(** * VaultGuard mobile: key derivation, record cipher and key lifecycle

    A shallow embedding of the security-bearing part of the VaultGuard
    client (src/crypto/key-derivation.ts, src/crypto/aes-gcm.ts,
    src/store/auth.store.ts, src/services/api.ts, src/services/auth.service.ts,
    src/utils/device.ts and the unlock screen) together with models of the
    platform primitives the code calls (the base-64 package, TextEncoder /
    TextDecoder, WebCrypto's PBKDF2 and AES-GCM).

    Conventions.
    - A JavaScript string is the list of its UTF-16 code units ([jsstring]).
    - A [Uint8Array] is a list of integers in [0, 255] ([bytes]).
    - An [async] function is modelled by the function that maps its inputs
      to its settled outcome: [Ok v] for a fulfilled promise, [Throw e] for a
      rejected one.  Each store action runs to completion before the next. *)

From Stdlib Require Import ZArith List Bool Lia String Ascii.
From stdpp Require Import base option list gmap strings.
Import ListNotations.
Local Open Scope Z_scope.

(** ** Outcomes of JavaScript calls *)

Inductive exn : Type :=
| Error (message : string)           (* new Error(message) *)
| SyntaxError                        (* thrown by JSON.parse *)
| InvalidCharacterError              (* thrown by the base-64 package *)
| DataError                          (* WebCrypto: malformed key data *)
| OperationError                     (* WebCrypto: operation failed *)
| AxiosError (message : string)      (* failed request; the text handleApiError reports *)
| StorageError.                      (* rejected SecureStore call *)

Inductive result (A : Type) : Type :=
| Ok (value : A)
| Throw (e : exn).
Arguments Ok {A} value.
Arguments Throw {A} e.

Definition bind_result {A B} (r : result A) (k : A -> result B) : result B :=
  match r with
  | Ok v => k v
  | Throw e => Throw e
  end.

(** [try { body } catch (error) { handler }] *)
Definition try_catch {A} (body : result A) (handler : exn -> result A) : result A :=
  match body with
  | Ok v => Ok v
  | Throw e => handler e
  end.

Declare Scope js_scope.
Delimit Scope js_scope with js.
Notation "'let*' x ':=' r 'in' k" := (bind_result r (fun x => k))
  (at level 10, x pattern, r at level 100, k at level 200) : js_scope.
Local Open Scope js_scope.

Definition is_ok {A} (r : result A) : bool :=
  match r with Ok _ => true | Throw _ => false end.

(** ** Strings and byte arrays *)

Definition jsstring := list Z.
Definition bytes := list Z.

(** Every element of a [Uint8Array] is an octet. *)
Definition octet (b : Z) : Prop := 0 <= b < 256.
Definition octets (bs : bytes) : Prop := Forall octet bs.

(** A string literal of the source, as its code units (ASCII literals only). *)
Definition js (s : string) : jsstring :=
  map (fun a => Z.of_nat (nat_of_ascii a)) (list_ascii_of_string s).

(** JavaScript truthiness of a string: only the empty string is falsy. *)
Definition truthy (s : jsstring) : bool :=
  match s with [] => false | _ :: _ => true end.

(** ** The base-64 package ([encode] and [decode])

    Model of the npm package imported by both crypto modules.  [encode]
    takes a binary string (all code units at most 0xFF) to RFC 4648 base64
    with padding; [decode] is the forgiving decoder: it drops ASCII
    whitespace, strips one or two trailing '=' when the length is a multiple
    of four, rejects a length of 1 modulo 4 and any character outside the
    alphabet, and then reads six bits per character. *)
Module Base64.

Definition TABLE : jsstring :=
  js "ABCDEFGHIJKLMNOPQRSTUVWXYZabcdefghijklmnopqrstuvwxyz0123456789+/".

Definition pad : Z := 61. (* '=' *)

(** [TABLE.charAt(i)]: the empty string when [i] is out of range. *)
Definition charAt (i : Z) : jsstring :=
  if (0 <=? i) && (i <? 64) then
    match nth_error TABLE (Z.to_nat i) with
    | Some c => [c]
    | None => []
    end
  else [].

(** [TABLE.indexOf(c)]: -1 when [c] is not in the alphabet. *)
Fixpoint index_from (c : Z) (t : jsstring) (i : Z) : Z :=
  match t with
  | [] => -1
  | x :: t' => if x =? c then i else index_from c t' (i + 1)
  end.
Definition indexOf (c : Z) : Z := index_from c TABLE 0.

Fixpoint encode_groups (input : jsstring) : jsstring :=
  match input with
  | a :: b :: c :: rest =>
      let buffer := Z.shiftl a 16 + Z.shiftl b 8 + c in
      charAt (Z.land (Z.shiftr buffer 18) 63) ++
      charAt (Z.land (Z.shiftr buffer 12) 63) ++
      charAt (Z.land (Z.shiftr buffer 6) 63) ++
      charAt (Z.land buffer 63) ++
      encode_groups rest
  | [a; b] =>
      let buffer := Z.shiftl a 8 + b in
      charAt (Z.shiftr buffer 10) ++
      charAt (Z.land (Z.shiftr buffer 4) 63) ++
      charAt (Z.land (Z.shiftl buffer 2) 63) ++
      [pad]
  | [a] =>
      charAt (Z.shiftr a 2) ++
      charAt (Z.land (Z.shiftl a 4) 63) ++
      [pad; pad]
  | [] => []
  end.

Definition encode (input : jsstring) : result jsstring :=
  if forallb (fun c => c <=? 255) input
  then Ok (encode_groups input)
  else Throw InvalidCharacterError.

(** The class [\t\n\f\r ] removed before decoding. *)
Definition is_space (c : Z) : bool :=
  (c =? 9) || (c =? 10) || (c =? 12) || (c =? 13) || (c =? 32).

(** [input.replace(/==?$/, '')] *)
Fixpoint strip_padding (input : jsstring) : jsstring :=
  match input with
  | [] => []
  | x :: r =>
      if (x =? pad) && forallb (fun c => c =? pad) r && (length r <=? 1)%nat
      then []
      else x :: strip_padding r
  end.

Fixpoint decode_groups (input : jsstring) : bytes :=
  match input with
  | a :: b :: c :: d :: rest =>
      let s2 := indexOf a * 64 + indexOf b in
      let s3 := s2 * 64 + indexOf c in
      let s4 := s3 * 64 + indexOf d in
      Z.land 255 (Z.shiftr s2 4) ::
      Z.land 255 (Z.shiftr s3 2) ::
      Z.land 255 s4 ::
      decode_groups rest
  | [a; b; c] =>
      let s2 := indexOf a * 64 + indexOf b in
      let s3 := s2 * 64 + indexOf c in
      [Z.land 255 (Z.shiftr s2 4); Z.land 255 (Z.shiftr s3 2)]
  | [a; b] =>
      let s2 := indexOf a * 64 + indexOf b in
      [Z.land 255 (Z.shiftr s2 4)]
  | _ => []
  end.

Definition decode (input : jsstring) : result jsstring :=
  let input := List.filter (fun c => negb (is_space c)) input in
  let input :=
    if (Z.of_nat (length input) mod 4 =? 0) then strip_padding input else input in
  if (Z.of_nat (length input) mod 4 =? 1)
     || negb (forallb (fun c => 0 <=? indexOf c) input)
  then Throw InvalidCharacterError
  else Ok (decode_groups input).

End Base64.

(** ** Helper functions shared by both crypto modules *)

(** [base64ToBytes]: each code unit of the decoded binary string is stored
    into a [Uint8Array] slot. *)
Definition base64ToBytes (base64 : jsstring) : result bytes :=
  let* binary := Base64.decode base64 in
  Ok (map (fun c => c mod 256) binary).

(** [bytesToBase64]: [String.fromCharCode] of each byte, then [encode]. *)
Definition bytesToBase64 (bs : bytes) : result jsstring :=
  Base64.encode (map (fun b => b mod 65536) bs).

(** ** TextEncoder and TextDecoder (UTF-8)

    Model of [new TextEncoder().encode(s)] and [new TextDecoder().decode(b)]
    after the WHATWG Encoding Standard.  Encoding first converts the string
    to scalar values (an unpaired surrogate becomes U+FFFD).  Decoding runs
    the UTF-8 decoder in replacement mode and, because the decoder is
    created without [ignoreBOM], drops a leading U+FEFF. *)
Module Text.

Definition is_high (c : Z) : bool := (0xD800 <=? c) && (c <=? 0xDBFF).
Definition is_low (c : Z) : bool := (0xDC00 <=? c) && (c <=? 0xDFFF).

Definition REPLACEMENT : Z := 0xFFFD.
Definition BOM : Z := 0xFEFF.

Fixpoint to_scalars (s : jsstring) : list Z :=
  match s with
  | [] => []
  | c :: rest =>
      if is_high c then
        match rest with
        | d :: rest' =>
            if is_low d
            then (0x10000 + Z.shiftl (c - 0xD800) 10 + (d - 0xDC00)) :: to_scalars rest'
            else REPLACEMENT :: to_scalars rest
        | [] => [REPLACEMENT]
        end
      else if is_low c then REPLACEMENT :: to_scalars rest
      else c :: to_scalars rest
  end.

Definition continuation (x : Z) : Z := Z.lor 0x80 (Z.land x 0x3F).

Definition encode_scalar (cp : Z) : bytes :=
  if cp <=? 0x7F then [cp]
  else if cp <=? 0x7FF then
    [Z.shiftr cp 6 + 0xC0; continuation cp]
  else if cp <=? 0xFFFF then
    [Z.shiftr cp 12 + 0xE0; continuation (Z.shiftr cp 6); continuation cp]
  else
    [Z.shiftr cp 18 + 0xF0; continuation (Z.shiftr cp 12);
     continuation (Z.shiftr cp 6); continuation cp].

(** [TextEncoder.prototype.encode] *)
Definition encode (s : jsstring) : bytes :=
  flat_map encode_scalar (to_scalars s).

Record decoder := {
  code_point : Z;
  bytes_seen : Z;
  bytes_needed : Z;
  lower : Z;
  upper : Z
}.

Definition initial : decoder :=
  {| code_point := 0; bytes_seen := 0; bytes_needed := 0;
     lower := 0x80; upper := 0xBF |}.

(** A byte read while no sequence is open. *)
Definition lead (b : Z) : list Z * decoder :=
  if (0 <=? b) && (b <=? 0x7F) then ([b], initial)
  else if (0xC2 <=? b) && (b <=? 0xDF) then
    ([], {| code_point := Z.land b 0x1F; bytes_seen := 0; bytes_needed := 1;
            lower := 0x80; upper := 0xBF |})
  else if (0xE0 <=? b) && (b <=? 0xEF) then
    ([], {| code_point := Z.land b 0xF; bytes_seen := 0; bytes_needed := 2;
            lower := if b =? 0xE0 then 0xA0 else 0x80;
            upper := if b =? 0xED then 0x9F else 0xBF |})
  else if (0xF0 <=? b) && (b <=? 0xF4) then
    ([], {| code_point := Z.land b 0x7; bytes_seen := 0; bytes_needed := 3;
            lower := if b =? 0xF0 then 0x90 else 0x80;
            upper := if b =? 0xF4 then 0x8F else 0xBF |})
  else ([REPLACEMENT], initial).

Definition step (d : decoder) (b : Z) : list Z * decoder :=
  if bytes_needed d =? 0 then lead b
  else if (b <? lower d) || (upper d <? b) then
    (* error; the byte is put back and read again with no sequence open *)
    let '(out, d') := lead b in (REPLACEMENT :: out, d')
  else
    let cp := Z.lor (Z.shiftl (code_point d) 6) (Z.land b 0x3F) in
    if bytes_seen d + 1 =? bytes_needed d
    then ([cp], initial)
    else ([], {| code_point := cp; bytes_seen := bytes_seen d + 1;
                 bytes_needed := bytes_needed d;
                 lower := 0x80; upper := 0xBF |}).

Fixpoint run (d : decoder) (input : bytes) : list Z :=
  match input with
  | [] => if bytes_needed d =? 0 then [] else [REPLACEMENT]
  | b :: rest => let '(out, d') := step d b in out ++ run d' rest
  end.

Definition strip_bom (cps : list Z) : list Z :=
  match cps with
  | c :: rest => if c =? BOM then rest else cps
  | [] => []
  end.

Definition from_scalar (cp : Z) : jsstring :=
  if cp <? 0x10000 then [cp]
  else
    let v := cp - 0x10000 in
    [0xD800 + Z.shiftr v 10; 0xDC00 + Z.land v 0x3FF].

(** [TextDecoder.prototype.decode] *)
Definition decode (input : bytes) : jsstring :=
  flat_map from_scalar (strip_bom (run initial input)).

(** Strings on which encoding loses nothing: every code unit is a 16-bit
    value and surrogates come in high/low pairs. *)
Fixpoint well_formed (s : jsstring) : bool :=
  match s with
  | [] => true
  | c :: rest =>
      if is_high c then
        match rest with
        | d :: rest' => is_low d && well_formed rest'
        | [] => false
        end
      else negb (is_low c) && (0 <=? c) && (c <=? 0xFFFF) && well_formed rest
  end.

Definition starts_with_bom (s : jsstring) : bool :=
  match s with c :: _ => c =? BOM | [] => false end.

End Text.

(** ** Byte-order helpers *)

(** The [n] low-order bytes of [x], most significant first. *)
Fixpoint be_bytes (n : nat) (x : Z) : bytes :=
  match n with
  | O => []
  | S n' => Z.land (Z.shiftr x (8 * Z.of_nat n')) 255 :: be_bytes n' x
  end.

(** The big-endian integer spelled by a byte string. *)
Definition be_value (bs : bytes) : Z :=
  fold_left (fun acc b => acc * 256 + b) bs 0.

Definition xor_bytes (a b : bytes) : bytes :=
  map (fun p => Z.lxor (fst p) (snd p)) (combine a b).

(** Cut a byte string into blocks of [n] bytes (the last one may be short). *)
Fixpoint blocks_of (fuel n : nat) (bs : bytes) : list bytes :=
  match fuel with
  | O => []
  | S fuel' =>
      match bs with
      | [] => []
      | _ => firstn n bs :: blocks_of fuel' n (skipn n bs)
      end
  end.
Definition blocks (n : nat) (bs : bytes) : list bytes :=
  blocks_of (length bs) n bs.

(** ** SHA-256 (FIPS 180-4), HMAC (RFC 2104) and PBKDF2 (RFC 8018)

    The algorithm WebCrypto runs for
    [deriveBits({name: 'PBKDF2', hash: 'SHA-256', ...})]. *)
Module SHA256.

Definition mask32 : Z := 0xFFFFFFFF.
Definition add32 (a b : Z) : Z := Z.land (a + b) mask32.
Definition rotr (n x : Z) : Z :=
  Z.lor (Z.shiftr x n) (Z.land (Z.shiftl x (32 - n)) mask32).
Definition shr (n x : Z) : Z := Z.shiftr x n.
Definition xor3 (a b c : Z) : Z := Z.lxor (Z.lxor a b) c.

Definition Ch (x y z : Z) : Z :=
  Z.lxor (Z.land x y) (Z.land (Z.lxor x mask32) z).
Definition Maj (x y z : Z) : Z :=
  xor3 (Z.land x y) (Z.land x z) (Z.land y z).
Definition Sigma0 (x : Z) : Z := xor3 (rotr 2 x) (rotr 13 x) (rotr 22 x).
Definition Sigma1 (x : Z) : Z := xor3 (rotr 6 x) (rotr 11 x) (rotr 25 x).
Definition sigma0 (x : Z) : Z := xor3 (rotr 7 x) (rotr 18 x) (shr 3 x).
Definition sigma1 (x : Z) : Z := xor3 (rotr 17 x) (rotr 19 x) (shr 10 x).

(** The first [n] primes, by trial division. *)
Definition is_prime (n : Z) : bool :=
  (1 <? n) && forallb (fun d => negb (n mod Z.of_nat d =? 0)) (seq 2 (Z.to_nat n - 2)).

Definition primes (n : nat) : list Z :=
  firstn n (List.filter is_prime (map Z.of_nat (seq 2 400))).

(** The integer cube root of a number below 2^132, one bit at a time. *)
Definition cube_root (n : Z) : Z :=
  fold_left (fun r i =>
               let c := r + 2 ^ Z.of_nat i in
               if c * c * c <=? n then c else r)
            (rev (seq 0 44)) 0.

(** The round constants: the first 32 bits of the fractional parts of the
    cube roots of the first 64 primes. *)
Definition K : list Z :=
  Eval vm_compute in
    map (fun p => Z.land (cube_root (p * 2 ^ 96)) mask32) (primes 64).

(** The initial hash value: the first 32 bits of the fractional parts of the
    square roots of the first 8 primes. *)
Definition H0 : list Z :=
  Eval vm_compute in
    map (fun p => Z.land (Z.sqrt (p * 2 ^ 64)) mask32) (primes 8).

Definition padding (msg : bytes) : bytes :=
  let l := Z.of_nat (length msg) in
  msg ++ [0x80] ++ repeat 0 (Z.to_nat ((55 - l) mod 64)) ++ be_bytes 8 (8 * l).

Definition words (block : bytes) : list Z := map be_value (blocks 4 block).

(** Extend the sixteen message words to the 64-word schedule. *)
Fixpoint schedule (n : nat) (w : list Z) : list Z :=
  match n with
  | O => w
  | S n' =>
      let t := length w in
      let at_ i := nth (t - i) w 0 in
      schedule n'
        (w ++ [add32 (add32 (sigma1 (at_ 2%nat)) (at_ 7%nat))
                     (add32 (sigma0 (at_ 15%nat)) (at_ 16%nat))])
  end.

Definition round (st : list Z) (kw : Z * Z) : list Z :=
  match st with
  | [a; b; c; d; e; f; g; h] =>
      let t1 := add32 (add32 (add32 h (Sigma1 e)) (add32 (Ch e f g) (fst kw))) (snd kw) in
      let t2 := add32 (Sigma0 a) (Maj a b c) in
      [add32 t1 t2; a; b; c; add32 d t1; e; f; g]
  | _ => st
  end.

Definition compress (h : list Z) (block : bytes) : list Z :=
  let w := schedule 48 (words block) in
  let st := fold_left round (combine K w) h in
  map (fun p => add32 (fst p) (snd p)) (combine h st).

Definition digest (msg : bytes) : bytes :=
  flat_map (be_bytes 4) (fold_left compress (blocks 64 (padding msg)) H0).

Definition block_size : nat := 64.

Definition hmac (key msg : bytes) : bytes :=
  let key := if (block_size <? length key)%nat then digest key else key in
  let key := key ++ repeat 0 (block_size - length key) in
  let ipad := map (fun b => Z.lxor b 0x36) key in
  let opad := map (fun b => Z.lxor b 0x5C) key in
  digest (opad ++ digest (ipad ++ msg)).

(** [F(P, S, c, i)]: the xor of the first [c] iterates of the PRF. *)
Definition pbkdf2_block (password salt : bytes) (iterations i : Z) : bytes :=
  let u1 := hmac password (salt ++ be_bytes 4 i) in
  snd (Z.iter (iterations - 1)
         (fun ut => let u := hmac password (fst ut) in (u, xor_bytes (snd ut) u))
         (u1, u1)).

Definition pbkdf2 (password salt : bytes) (iterations : Z) (dkLen : nat) : bytes :=
  firstn dkLen
    (flat_map (fun i => pbkdf2_block password salt iterations (Z.of_nat i))
              (seq 1 (Nat.div (dkLen + 31) 32))).

End SHA256.

(** ** AES (FIPS 197) and Galois/Counter Mode (NIST SP 800-38D)

    The algorithm WebCrypto runs for [{name: 'AES-GCM', iv, tagLength: 128}]
    with no additional authenticated data. *)
Module AES.

Definition SBOX : list Z :=
  [
    0x63; 0x7c; 0x77; 0x7b; 0xf2; 0x6b; 0x6f; 0xc5; 0x30; 0x01; 0x67; 0x2b; 0xfe; 0xd7; 0xab; 0x76;
    0xca; 0x82; 0xc9; 0x7d; 0xfa; 0x59; 0x47; 0xf0; 0xad; 0xd4; 0xa2; 0xaf; 0x9c; 0xa4; 0x72; 0xc0;
    0xb7; 0xfd; 0x93; 0x26; 0x36; 0x3f; 0xf7; 0xcc; 0x34; 0xa5; 0xe5; 0xf1; 0x71; 0xd8; 0x31; 0x15;
    0x04; 0xc7; 0x23; 0xc3; 0x18; 0x96; 0x05; 0x9a; 0x07; 0x12; 0x80; 0xe2; 0xeb; 0x27; 0xb2; 0x75;
    0x09; 0x83; 0x2c; 0x1a; 0x1b; 0x6e; 0x5a; 0xa0; 0x52; 0x3b; 0xd6; 0xb3; 0x29; 0xe3; 0x2f; 0x84;
    0x53; 0xd1; 0x00; 0xed; 0x20; 0xfc; 0xb1; 0x5b; 0x6a; 0xcb; 0xbe; 0x39; 0x4a; 0x4c; 0x58; 0xcf;
    0xd0; 0xef; 0xaa; 0xfb; 0x43; 0x4d; 0x33; 0x85; 0x45; 0xf9; 0x02; 0x7f; 0x50; 0x3c; 0x9f; 0xa8;
    0x51; 0xa3; 0x40; 0x8f; 0x92; 0x9d; 0x38; 0xf5; 0xbc; 0xb6; 0xda; 0x21; 0x10; 0xff; 0xf3; 0xd2;
    0xcd; 0x0c; 0x13; 0xec; 0x5f; 0x97; 0x44; 0x17; 0xc4; 0xa7; 0x7e; 0x3d; 0x64; 0x5d; 0x19; 0x73;
    0x60; 0x81; 0x4f; 0xdc; 0x22; 0x2a; 0x90; 0x88; 0x46; 0xee; 0xb8; 0x14; 0xde; 0x5e; 0x0b; 0xdb;
    0xe0; 0x32; 0x3a; 0x0a; 0x49; 0x06; 0x24; 0x5c; 0xc2; 0xd3; 0xac; 0x62; 0x91; 0x95; 0xe4; 0x79;
    0xe7; 0xc8; 0x37; 0x6d; 0x8d; 0xd5; 0x4e; 0xa9; 0x6c; 0x56; 0xf4; 0xea; 0x65; 0x7a; 0xae; 0x08;
    0xba; 0x78; 0x25; 0x2e; 0x1c; 0xa6; 0xb4; 0xc6; 0xe8; 0xdd; 0x74; 0x1f; 0x4b; 0xbd; 0x8b; 0x8a;
    0x70; 0x3e; 0xb5; 0x66; 0x48; 0x03; 0xf6; 0x0e; 0x61; 0x35; 0x57; 0xb9; 0x86; 0xc1; 0x1d; 0x9e;
    0xe1; 0xf8; 0x98; 0x11; 0x69; 0xd9; 0x8e; 0x94; 0x9b; 0x1e; 0x87; 0xe9; 0xce; 0x55; 0x28; 0xdf;
    0x8c; 0xa1; 0x89; 0x0d; 0xbf; 0xe6; 0x42; 0x68; 0x41; 0x99; 0x2d; 0x0f; 0xb0; 0x54; 0xbb; 0x16
  ].

Definition sub_byte (b : Z) : Z := nth (Z.to_nat b) SBOX 0.

Definition xtime (a : Z) : Z :=
  let b := Z.shiftl a 1 in
  if 0x100 <=? b then Z.lxor b 0x11B else b.

Definition RCON : list Z := [0x01; 0x02; 0x04; 0x08; 0x10; 0x20; 0x40; 0x80; 0x1B; 0x36].

Definition rot_word (w : bytes) : bytes :=
  match w with
  | a :: rest => rest ++ [a]
  | [] => []
  end.

Definition xor_head (w : bytes) (c : Z) : bytes :=
  match w with
  | a :: rest => Z.lxor a c :: rest
  | [] => []
  end.

(** Append [n] words to the key schedule [w] of a key of [nk] words. *)
Fixpoint expand (n nk : nat) (w : list bytes) : list bytes :=
  match n with
  | O => w
  | S n' =>
      let i := length w in
      let temp := nth (i - 1) w [] in
      let temp :=
        if (i mod nk =? 0)%nat then
          xor_head (map sub_byte (rot_word temp)) (nth (i / nk - 1) RCON 0)
        else if (6 <? nk)%nat && (i mod nk =? 4)%nat then map sub_byte temp
        else temp in
      expand n' nk (w ++ [xor_bytes (nth (i - nk) w []) temp])
  end.

(** The round keys, one 16-byte block per round. *)
Definition key_expansion (key : bytes) : list bytes :=
  let nk := (length key / 4)%nat in
  let nr := (nk + 6)%nat in
  blocks 16 (concat (expand (4 * (nr + 1) - nk) nk (blocks 4 key))).

Definition sub_bytes (st : bytes) : bytes := map sub_byte st.

(** The state is kept in input order: row [r] of column [c] at [r + 4c]. *)
Definition shift_rows (st : bytes) : bytes :=
  map (fun i => nth (i mod 4 + 4 * ((i / 4 + i mod 4) mod 4)) st 0) (seq 0 16).

Definition mix_column (col : bytes) : bytes :=
  match col with
  | [a0; a1; a2; a3] =>
      let x2 := xtime in
      let x3 a := Z.lxor (xtime a) a in
      [Z.lxor (Z.lxor (x2 a0) (x3 a1)) (Z.lxor a2 a3);
       Z.lxor (Z.lxor a0 (x2 a1)) (Z.lxor (x3 a2) a3);
       Z.lxor (Z.lxor a0 a1) (Z.lxor (x2 a2) (x3 a3));
       Z.lxor (Z.lxor (x3 a0) a1) (Z.lxor a2 (x2 a3))]
  | _ => col
  end.

Definition mix_columns (st : bytes) : bytes :=
  flat_map mix_column (blocks 4 st).

Definition add_round_key (st rk : bytes) : bytes := xor_bytes st rk.

Fixpoint rounds (st : bytes) (rks : list bytes) : bytes :=
  match rks with
  | [] => st
  | [last] => add_round_key (shift_rows (sub_bytes st)) last
  | rk :: rks' =>
      rounds (add_round_key (mix_columns (shift_rows (sub_bytes st))) rk) rks'
  end.

(** Encrypt one 16-byte block under the expanded key. *)
Definition cipher (round_keys : list bytes) (block : bytes) : bytes :=
  match round_keys with
  | rk0 :: rks => rounds (add_round_key block rk0) rks
  | [] => block
  end.

End AES.

Module GCM.

Definition R : Z := Z.shiftl 0xE1 120.

(** Multiplication in GF(2^128), blocks read as 128-bit integers whose
    most significant bit is the first bit of the block. *)
Definition gf_mul (x y : Z) : Z :=
  fst (fold_left
         (fun zv i =>
            let '(z, v) := zv in
            (if Z.testbit x (127 - Z.of_nat i) then Z.lxor z v else z,
             if Z.testbit v 0 then Z.lxor (Z.shiftr v 1) R else Z.shiftr v 1))
         (seq 0 128) (0, y)).

Definition pad16 (bs : bytes) : bytes :=
  bs ++ repeat 0 ((16 - length bs mod 16) mod 16).

Definition ghash (h : Z) (xs : list Z) : Z :=
  fold_left (fun y x => gf_mul (Z.lxor y x) h) xs 0.

Definition block_values (bs : bytes) : list Z := map be_value (blocks 16 (pad16 bs)).

Section WithKey.
Variable E : Z -> Z.   (* the block cipher under the key, on block values *)

Definition hash_key : Z := E 0.

Definition J0 (iv : bytes) : Z :=
  if (length iv =? 12)%nat then be_value (iv ++ [0; 0; 0; 1])
  else ghash hash_key (block_values iv ++ [8 * Z.of_nat (length iv)]).

(** The counter block [i] steps after [j0] (only the low 32 bits count). *)
Definition counter (j0 : Z) (i : Z) : Z :=
  Z.shiftl (Z.shiftr j0 32) 32 + (j0 + i) mod 2 ^ 32.

Definition keystream (j0 : Z) (len : nat) : bytes :=
  flat_map (fun i => be_bytes 16 (E (counter j0 (Z.of_nat i))))
           (seq 1 ((len + 15) / 16)).

Definition tag (j0 : Z) (ciphertext : bytes) : bytes :=
  let s := ghash hash_key
             (block_values ciphertext ++ [8 * Z.of_nat (length ciphertext)]) in
  be_bytes 16 (Z.lxor (E j0) s).

Definition seal (iv plaintext : bytes) : bytes :=
  let j0 := J0 iv in
  let ciphertext := xor_bytes plaintext (keystream j0 (length plaintext)) in
  ciphertext ++ tag j0 ciphertext.

Definition open (iv data : bytes) : option bytes :=
  if (length data <? 16)%nat then None
  else
    let j0 := J0 iv in
    let ciphertext := firstn (length data - 16) data in
    let received := skipn (length data - 16) data in
    if forallb (fun p => fst p =? snd p) (combine received (tag j0 ciphertext))
    then Some (xor_bytes ciphertext (keystream j0 (length ciphertext)))
    else None.
End WithKey.

Definition block_cipher (key : bytes) : Z -> Z :=
  let round_keys := AES.key_expansion key in
  fun x => be_value (AES.cipher round_keys (be_bytes 16 x)).

End GCM.

(** ** WebCrypto ([crypto.subtle]) as used by the two crypto modules

    A [CryptoKey] is modelled by its raw key bytes.  The model assumes the
    platform provides [crypto.subtle]; a failure of a call is the exception
    the WebCrypto specification prescribes. *)
Module Subtle.

Definition CryptoKey := bytes.

(** [importKey('raw', keyData, {name: 'AES-GCM', length: 256}, false, usages)]:
    the key data must be 128, 192 or 256 bits long. *)
Definition importKey_AES_GCM (keyData : bytes) : result CryptoKey :=
  let n := length keyData in
  if (n =? 16)%nat || (n =? 24)%nat || (n =? 32)%nat
  then Ok keyData
  else Throw DataError.

(** [importKey('raw', keyData, 'PBKDF2', false, ['deriveBits'])] *)
Definition importKey_PBKDF2 (keyData : bytes) : result CryptoKey := Ok keyData.

(** [encrypt({name: 'AES-GCM', iv, tagLength: 128}, key, data)]: ciphertext
    followed by the 16-byte tag.  An empty [iv] is rejected. *)
Definition encrypt_AES_GCM (iv : bytes) (key : CryptoKey) (data : bytes)
  : result bytes :=
  match iv with
  | [] => Throw OperationError
  | _ => Ok (GCM.seal (GCM.block_cipher key) iv data)
  end.

(** [decrypt({name: 'AES-GCM', iv, tagLength: 128}, key, data)] *)
Definition decrypt_AES_GCM (iv : bytes) (key : CryptoKey) (data : bytes)
  : result bytes :=
  match iv with
  | [] => Throw OperationError
  | _ =>
      match GCM.open (GCM.block_cipher key) iv data with
      | Some plaintext => Ok plaintext
      | None => Throw OperationError
      end
  end.

(** [deriveBits({name: 'PBKDF2', salt, iterations, hash: 'SHA-256'}, key, length)]:
    [length] must be a non-zero multiple of 8 and [iterations] non-zero. *)
Definition deriveBits_PBKDF2_SHA256
  (salt : bytes) (iterations : Z) (keyMaterial : CryptoKey) (length : Z)
  : result bytes :=
  if (length <=? 0) || negb (length mod 8 =? 0) || (iterations <=? 0)
  then Throw OperationError
  else Ok (SHA256.pbkdf2 keyMaterial salt iterations (Z.to_nat (length / 8))).

End Subtle.

(** [Uint8Array.prototype.slice(start, end)] with relative indices;
    [end_ = None] when the argument is omitted. *)
Definition slice (a : bytes) (start : Z) (end_ : option Z) : bytes :=
  let len := Z.of_nat (length a) in
  let relative i := if i <? 0 then Z.max (len + i) 0 else Z.min i len in
  let k := relative start in
  let final := match end_ with Some e => relative e | None => len end in
  firstn (Z.to_nat (final - k)) (skipn (Z.to_nat k) a).

(** ** src/crypto/key-derivation.ts *)

Definition PBKDF2_ITERATIONS : Z := 100000.
Definition KEY_LENGTH : Z := 32.

Definition stringToBytes (str : jsstring) : bytes := Text.encode str.

Definition pbkdf2Sha256 (password salt : bytes) (iterations keyLength : Z)
  : result bytes :=
  let* keyMaterial := Subtle.importKey_PBKDF2 password in
  let* derivedBits :=
    Subtle.deriveBits_PBKDF2_SHA256 salt iterations keyMaterial (keyLength * 8) in
  Ok derivedBits.

Definition deriveEncryptionKey (masterPassword userId : jsstring) : result jsstring :=
  if negb (truthy masterPassword) || (length masterPassword <? 8)%nat then
    Throw (Error "Master password must be at least 8 characters")
  else if negb (truthy userId) then
    Throw (Error "User ID is required as salt")
  else
    try_catch
      (let passwordBytes := stringToBytes masterPassword in
       let saltBytes := stringToBytes userId in
       let* keyBytes :=
         pbkdf2Sha256 passwordBytes saltBytes PBKDF2_ITERATIONS KEY_LENGTH in
       bytesToBase64 keyBytes)
      (fun _ => Throw (Error "Failed to derive encryption key")).

(** ** src/crypto/aes-gcm.ts *)

(** A field is [None] when the property is missing, [null] or [undefined]. *)
Record EncryptedData := {
  encryptedData : option jsstring;
  iv : option jsstring;
  authTag : option jsstring
}.

(** [!x] for an optional string. *)
Definition falsy (x : option jsstring) : bool :=
  match x with
  | Some s => negb (truthy s)
  | None => true
  end.

Definition field (x : option jsstring) : jsstring :=
  match x with Some s => s | None => [] end.

(** [random] is the content of the array after
    [crypto.getRandomValues(new Uint8Array(12))] in this call. *)
Definition encryptData (plaintext encryptionKey : jsstring) (random : bytes)
  : result EncryptedData :=
  if negb (truthy plaintext) then Throw (Error "Plaintext data is required")
  else if negb (truthy encryptionKey) then Throw (Error "Encryption key is required")
  else
    try_catch
      (let* keyBytes := base64ToBytes encryptionKey in
       let* cryptoKey := Subtle.importKey_AES_GCM keyBytes in
       let iv := random in
       let plaintextBytes := Text.encode plaintext in
       let* encryptedBuffer := Subtle.encrypt_AES_GCM iv cryptoKey plaintextBytes in
       let encryptedArray := encryptedBuffer in
       let ciphertext := slice encryptedArray 0 (Some (-16)) in
       let authTag := slice encryptedArray (-16) None in
       let* encryptedData64 := bytesToBase64 ciphertext in
       let* iv64 := bytesToBase64 iv in
       let* authTag64 := bytesToBase64 authTag in
       Ok {| encryptedData := Some encryptedData64;
             iv := Some iv64;
             authTag := Some authTag64 |})
      (fun _ => Throw (Error "Failed to encrypt data")).

(** [encrypted = None] models a [null] or [undefined] argument. *)
Definition decryptData (encrypted : option EncryptedData) (encryptionKey : jsstring)
  : result jsstring :=
  let get (f : EncryptedData -> option jsstring) :=
    match encrypted with Some e => f e | None => None end in
  if falsy (get encryptedData) || falsy (get iv) || falsy (get authTag) then
    Throw (Error "Invalid encrypted data structure")
  else if negb (truthy encryptionKey) then
    Throw (Error "Encryption key is required")
  else
    try_catch
      (let* keyBytes := base64ToBytes encryptionKey in
       let* cryptoKey := Subtle.importKey_AES_GCM keyBytes in
       let* ciphertext := base64ToBytes (field (get encryptedData)) in
       let* iv := base64ToBytes (field (get iv)) in
       let* authTag := base64ToBytes (field (get authTag)) in
       let encryptedData := ciphertext ++ authTag in
       let* decryptedBuffer := Subtle.decrypt_AES_GCM iv cryptoKey encryptedData in
       Ok (Text.decode decryptedBuffer))
      (fun _ => Throw (Error "Decryption failed - incorrect password or corrupted data")).

(** ** [JSON.parse]

    Model of the built-in after ECMA-404.  The result is kept as syntax: a
    number by its literal, an object by its members in source order. *)
Module JSON.

#[local] Unset Elimination Schemes.
Inductive value : Type :=
| Null
| Bool (b : bool)
| Number (literal : jsstring)
| String (s : jsstring)
| Array (items : list value)
| Object (members : list (jsstring * value)).
#[local] Set Elimination Schemes.

Definition is_ws (c : Z) : bool := (c =? 32) || (c =? 9) || (c =? 10) || (c =? 13).
Definition is_digit (c : Z) : bool := (48 <=? c) && (c <=? 57).

Fixpoint skip_ws (input : jsstring) : jsstring :=
  match input with
  | c :: rest => if is_ws c then skip_ws rest else input
  | [] => []
  end.

Fixpoint strip_prefix (prefix input : jsstring) : option jsstring :=
  match prefix, input with
  | [], _ => Some input
  | p :: prefix', c :: input' =>
      if p =? c then strip_prefix prefix' input' else None
  | _ :: _, [] => None
  end.

Definition hex_digit (c : Z) : option Z :=
  if is_digit c then Some (c - 48)
  else if (97 <=? c) && (c <=? 102) then Some (c - 87)
  else if (65 <=? c) && (c <=? 70) then Some (c - 55)
  else None.

(** The characters of a string literal after its opening quote. *)
Fixpoint string_body (input : jsstring) : option (jsstring * jsstring) :=
  match input with
  | [] => None
  | 34 :: rest => Some ([], rest)
  | 92 :: 117 :: a :: b :: c :: d :: rest =>
      match hex_digit a, hex_digit b, hex_digit c, hex_digit d, string_body rest with
      | Some a, Some b, Some c, Some d, Some (s, rest') =>
          Some (((a * 16 + b) * 16 + c) * 16 + d :: s, rest')
      | _, _, _, _, _ => None
      end
  | 92 :: e :: rest =>
      let unescaped :=
        if e =? 34 then Some 34 else if e =? 92 then Some 92
        else if e =? 47 then Some 47 else if e =? 98 then Some 8
        else if e =? 102 then Some 12 else if e =? 110 then Some 10
        else if e =? 114 then Some 13 else if e =? 116 then Some 9
        else None in
      match unescaped, string_body rest with
      | Some c, Some (s, rest') => Some (c :: s, rest')
      | _, _ => None
      end
  | c :: rest =>
      if c <? 32 then None
      else match string_body rest with
           | Some (s, rest') => Some (c :: s, rest')
           | None => None
           end
  end.

Fixpoint digits (input : jsstring) : jsstring * jsstring :=
  match input with
  | c :: rest =>
      if is_digit c then let '(ds, rest') := digits rest in (c :: ds, rest')
      else ([], input)
  | [] => ([], [])
  end.

(** A number literal: an optional minus sign, an integer part with no
    leading zero, an optional fraction and an optional exponent. *)
Definition number (input : jsstring) : option (jsstring * jsstring) :=
  let '(sign, input) :=
    match input with 45 :: rest => ([45], rest) | _ => ([], input) end in
  let '(int, input) :=
    match input with
    | 48 :: rest => ([48], rest)
    | _ => digits input
    end in
  match int with
  | [] => None
  | _ =>
      let frac :=
        match input with
        | 46 :: rest =>
            match digits rest with
            | ([], _) => None
            | (ds, rest') => Some (46 :: ds, rest')
            end
        | _ => Some ([], input)
        end in
      match frac with
      | None => None
      | Some (frac, input) =>
          let exponent :=
            match input with
            | e :: rest =>
                if (e =? 101) || (e =? 69) then
                  let '(esign, rest) :=
                    match rest with
                    | s :: rest' =>
                        if (s =? 43) || (s =? 45) then ([s], rest') else ([], rest)
                    | [] => ([], [])
                    end in
                  match digits rest with
                  | ([], _) => None
                  | (ds, rest') => Some (e :: esign ++ ds, rest')
                  end
                else Some ([], input)
            | [] => Some ([], [])
            end in
          match exponent with
          | None => None
          | Some (ex, input) => Some (sign ++ int ++ frac ++ ex, input)
          end
      end
  end.

Fixpoint parse_value (fuel : nat) (input : jsstring) : option (value * jsstring) :=
  match fuel with
  | O => None
  | S fuel' =>
      match skip_ws input with
      | 34 :: rest =>
          match string_body rest with
          | Some (s, rest') => Some (String s, rest')
          | None => None
          end
      | 91 :: rest =>
          match skip_ws rest with
          | 93 :: rest' => Some (Array [], rest')
          | rest' =>
              match parse_elements fuel' rest' with
              | Some (items, rest'') => Some (Array items, rest'')
              | None => None
              end
          end
      | 123 :: rest =>
          match skip_ws rest with
          | 125 :: rest' => Some (Object [], rest')
          | rest' =>
              match parse_members fuel' rest' with
              | Some (members, rest'') => Some (Object members, rest'')
              | None => None
              end
          end
      | input' =>
          match strip_prefix (js "null") input',
                strip_prefix (js "true") input',
                strip_prefix (js "false") input' with
          | Some rest, _, _ => Some (Null, rest)
          | _, Some rest, _ => Some (Bool true, rest)
          | _, _, Some rest => Some (Bool false, rest)
          | None, None, None =>
              match number input' with
              | Some (literal, rest) => Some (Number literal, rest)
              | None => None
              end
          end
      end
  end
(** One or more values separated by commas, up to the closing bracket. *)
with parse_elements (fuel : nat) (input : jsstring) : option (list value * jsstring) :=
  match fuel with
  | O => None
  | S fuel' =>
      match parse_value fuel' input with
      | Some (v, rest) =>
          match skip_ws rest with
          | 93 :: rest' => Some ([v], rest')
          | 44 :: rest' =>
              match parse_elements fuel' rest' with
              | Some (vs, rest'') => Some (v :: vs, rest'')
              | None => None
              end
          | _ => None
          end
      | None => None
      end
  end
(** One or more ["name": value] pairs, up to the closing brace. *)
with parse_members (fuel : nat) (input : jsstring)
  : option (list (jsstring * value) * jsstring) :=
  match fuel with
  | O => None
  | S fuel' =>
      match skip_ws input with
      | 34 :: rest =>
          match string_body rest with
          | Some (name, rest') =>
              match skip_ws rest' with
              | 58 :: rest'' =>
                  match parse_value fuel' rest'' with
                  | Some (v, rest3) =>
                      match skip_ws rest3 with
                      | 125 :: rest4 => Some ([(name, v)], rest4)
                      | 44 :: rest4 =>
                          match parse_members fuel' rest4 with
                          | Some (ms, rest5) => Some ((name, v) :: ms, rest5)
                          | None => None
                          end
                      | _ => None
                      end
                  | None => None
                  end
              | _ => None
              end
          | None => None
          end
      | _ => None
      end
  end.

(** [JSON.parse(text)]: the whole text must be one value. *)
Definition parse (text : jsstring) : result value :=
  match parse_value (2 * length text + 2) text with
  | Some (v, rest) =>
      match skip_ws rest with
      | [] => Ok v
      | _ => Throw SyntaxError
      end
  | None => Throw SyntaxError
  end.

End JSON.

Definition decryptObject (encrypted : option EncryptedData) (encryptionKey : jsstring)
  : result JSON.value :=
  let* jsonString := decryptData encrypted encryptionKey in
  JSON.parse jsonString.

(** [verifyMasterPassword] of key-derivation.ts: derive the key and try it
    on a known record.  No caller exists in the store. *)
Definition verifyMasterPassword (masterPassword userId : jsstring)
  (encryptedTestData : option EncryptedData) : result bool :=
  try_catch
    (let* key := deriveEncryptionKey masterPassword userId in
     let* _ := decryptData encryptedTestData key in
     Ok true)
    (fun _ => Ok false).

(** ** The session store and its collaborators

    State that outlives a call is gathered in a [World]: the Zustand auth
    store, the local state of the unlock screen, the contents of the secure
    key-value store, and the history of values handed to
    [SecureStore.setItemAsync].  What the environment decides (the outcome of
    an HTTP request, of a biometric prompt, a fresh UUID, whether the
    keychain answers) is an explicit input. *)

Module User.
Record t := {
  id : jsstring;
  email : jsstring;
  firstName : option jsstring;
  lastName : option jsstring
}.
End User.

Module AuthResponse.
Record t := {
  accessToken : jsstring;
  refreshToken : jsstring;
  userId : jsstring;
  email : jsstring;
  firstName : option jsstring;
  lastName : option jsstring
}.
End AuthResponse.

Record AuthStore := {
  user : option User.t;
  accessToken : option jsstring;
  refreshToken : option jsstring;
  encryptionKey : option jsstring;   (* Base64-encoded key (MEMORY ONLY) *)
  isAuthenticated : bool;
  isLoading : bool;
  error : option string
}.

(** [useState] cells of the unlock screen. *)
Record UnlockScreen := {
  password : jsstring;
  biometricAvailable : bool;
  biometricEnabled : bool
}.

Record World := {
  auth : AuthStore;
  screen : UnlockScreen;
  secure : gmap string jsstring;        (* SecureStore contents *)
  keychain : bool;                      (* whether SecureStore calls succeed *)
  writes : list (string * jsstring)     (* arguments of every setItemAsync call *)
}.

Definition initial_auth : AuthStore :=
  {| user := None; accessToken := None; refreshToken := None;
     encryptionKey := None; isAuthenticated := false; isLoading := false;
     error := None |}.

Definition initial_screen : UnlockScreen :=
  {| password := []; biometricAvailable := false; biometricEnabled := false |}.

(** The world when the process starts. *)
Definition boot (stored : gmap string jsstring) (available : bool) : World :=
  {| auth := initial_auth; screen := initial_screen; secure := stored;
     keychain := available; writes := [] |}.

(** *** Computations over the world *)

Definition M (A : Type) : Type := World -> result A * World.

Definition ret {A} (a : A) : M A := fun w => (Ok a, w).
Definition throw {A} (e : exn) : M A := fun w => (Throw e, w).
Definition lift {A} (r : result A) : M A := fun w => (r, w).

Definition bind {A B} (m : M A) (k : A -> M B) : M B :=
  fun w =>
    match m w with
    | (Ok a, w') => k a w'
    | (Throw e, w') => (Throw e, w')
    end.

Notation "x <- m ;; k" := (bind m (fun x => k))
  (at level 20, m at level 99, k at level 200) : js_scope.
Notation "m ;; k" := (bind m (fun _ => k))
  (at level 100, k at level 200, right associativity) : js_scope.

(** [try { body } catch (e) { handler }] *)
Definition catch {A} (body : M A) (handler : exn -> M A) : M A :=
  fun w =>
    match body w with
    | (Ok a, w') => (Ok a, w')
    | (Throw e, w') => handler e w'
    end.

(** [try { body } finally { cleanup }] *)
Definition finally {A} (body : M A) (cleanup : M unit) : M A :=
  fun w =>
    let '(r, w') := body w in
    match cleanup w' with
    | (Ok _, w'') => (r, w'')
    | (Throw e, w'') => (Throw e, w'')
    end.

(** [error.message] *)
Definition message (e : exn) : string :=
  match e with
  | Error m => m
  | AxiosError m => m
  | SyntaxError => "Unexpected token"
  | InvalidCharacterError => "Invalid character"
  | DataError => "Invalid key data"
  | OperationError => "The operation failed"
  | StorageError => "Could not access the secure store"
  end.

(** [s || fallback] for a string. *)
Definition or_default (s fallback : string) : string :=
  match s with EmptyString => fallback | _ => s end.

(** *** config/env.ts *)
Module ENV.
Definition ACCESS_TOKEN : string := "vaultguard_access_token".
Definition REFRESH_TOKEN : string := "vaultguard_refresh_token".
Definition DEVICE_ID : string := "vaultguard_device_id".
Definition BIOMETRIC_ENABLED : string := "vaultguard_biometric_enabled".
End ENV.

(** *** expo-secure-store *)
Module SecureStore.

Definition getItemAsync (key : string) : M (option jsstring) :=
  fun w => if keychain w then (Ok (secure w !! key), w) else (Throw StorageError, w).

Definition setItemAsync (key : string) (value : jsstring) : M unit :=
  fun w =>
    let logged :=
      {| auth := auth w; screen := screen w; secure := secure w;
         keychain := keychain w; writes := (key, value) :: writes w |} in
    if keychain w then
      (Ok tt,
       {| auth := auth w; screen := screen w;
          secure := <[key := value]> (secure w);
          keychain := keychain w; writes := (key, value) :: writes w |})
    else (Throw StorageError, logged).

Definition deleteItemAsync (key : string) : M unit :=
  fun w =>
    if keychain w then
      (Ok tt,
       {| auth := auth w; screen := screen w; secure := delete key (secure w);
          keychain := keychain w; writes := writes w |})
    else (Throw StorageError, w).

End SecureStore.

(** *** services/api.ts (token management) *)

Definition saveTokens (accessToken refreshToken : jsstring) : M unit :=
  SecureStore.setItemAsync ENV.ACCESS_TOKEN accessToken ;;
  SecureStore.setItemAsync ENV.REFRESH_TOKEN refreshToken.

Definition clearTokens : M unit :=
  SecureStore.deleteItemAsync ENV.ACCESS_TOKEN ;;
  SecureStore.deleteItemAsync ENV.REFRESH_TOKEN.

(** [handleApiError(error).message]: the text of an axios error, a fixed
    text for anything else. *)
Definition handleApiError (e : exn) : string :=
  match e with
  | AxiosError m => m
  | _ => "An unexpected error occurred"
  end.

(** *** services/auth.service.ts

    [post] is the outcome of the request to the authentication service. *)
Module AuthService.

Definition register (post : result AuthResponse.t) : M AuthResponse.t :=
  catch
    (authData <- lift post ;;
     saveTokens (AuthResponse.accessToken authData)
                (AuthResponse.refreshToken authData) ;;
     ret authData)
    (fun e => throw (Error (handleApiError e))).

Definition login (post : result AuthResponse.t) : M AuthResponse.t :=
  catch
    (authData <- lift post ;;
     saveTokens (AuthResponse.accessToken authData)
                (AuthResponse.refreshToken authData) ;;
     ret authData)
    (fun e => throw (Error (handleApiError e))).

Definition logout (post : result unit) : M unit :=
  finally
    (catch (lift post) (fun _ => ret tt))
    clearTokens.

End AuthService.

(** *** utils/device.ts *)

Definition DEVICE_ID_KEY : string := "vaultguard_device_id".

(** [fresh] and [fallback] are the values [uuid.v4()] returns at its two
    call sites. *)
Definition getDeviceId (fresh fallback : jsstring) : M jsstring :=
  catch
    (deviceId <- SecureStore.getItemAsync DEVICE_ID_KEY ;;
     if falsy deviceId then
       SecureStore.setItemAsync DEVICE_ID_KEY fresh ;;
       ret fresh
     else ret (field deviceId))
    (fun _ => ret fallback).

(** *** store/auth.store.ts *)

Definition get_auth : M AuthStore := fun w => (Ok (auth w), w).

(** Zustand's [set]: the store state is replaced by [f] of the current one. *)
Definition set (f : AuthStore -> AuthStore) : M unit :=
  fun w =>
    (Ok tt,
     {| auth := f (auth w); screen := screen w; secure := secure w;
        keychain := keychain w; writes := writes w |}).

Definition user_of (r : AuthResponse.t) : User.t :=
  {| User.id := AuthResponse.userId r;
     User.email := AuthResponse.email r;
     User.firstName := AuthResponse.firstName r;
     User.lastName := AuthResponse.lastName r |}.

Section AuthStoreActions.

(** The [deriveEncryptionKey] imported from the crypto module.  It is a
    parameter here so that two runs of the store under different key
    derivations can be compared. *)
Variable derive : jsstring -> jsstring -> result jsstring.

(** [set({ isLoading: true, error: null })] *)
Definition begin_loading (s : AuthStore) : AuthStore :=
  {| user := user s; accessToken := accessToken s; refreshToken := refreshToken s;
     encryptionKey := encryptionKey s; isAuthenticated := isAuthenticated s;
     isLoading := true; error := None |}.

(** [set({ error: error.message || fallback, isLoading: false })] *)
Definition fail_with (e : exn) (fallback : string) (s : AuthStore) : AuthStore :=
  {| user := user s; accessToken := accessToken s; refreshToken := refreshToken s;
     encryptionKey := encryptionKey s; isAuthenticated := isAuthenticated s;
     isLoading := false; error := Some (or_default (message e) fallback) |}.

(** The state update shared by [login] and [register]. *)
Definition signed_in (r : AuthResponse.t) (key : jsstring) (s : AuthStore)
  : AuthStore :=
  {| user := Some (user_of r);
     accessToken := Some (AuthResponse.accessToken r);
     refreshToken := Some (AuthResponse.refreshToken r);
     encryptionKey := Some key;
     isAuthenticated := true; isLoading := false; error := error s |}.

Definition login (email password : jsstring) (post : result AuthResponse.t)
  : M unit :=
  set begin_loading ;;
  catch
    (authResponse <- AuthService.login post ;;
     encryptionKey <- lift (derive password (AuthResponse.userId authResponse)) ;;
     set (signed_in authResponse encryptionKey))
    (fun error =>
       set (fail_with error "Login failed") ;;
       throw error).

Definition register (email password firstName lastName : jsstring)
  (post : result AuthResponse.t) : M unit :=
  set begin_loading ;;
  catch
    (authResponse <- AuthService.register post ;;
     encryptionKey <- lift (derive password (AuthResponse.userId authResponse)) ;;
     saveTokens (AuthResponse.accessToken authResponse)
                (AuthResponse.refreshToken authResponse) ;;
     set (signed_in authResponse encryptionKey))
    (fun error =>
       set (fail_with error "Registration failed") ;;
       throw error).

Definition logout (post : result unit) : M unit :=
  finally
    (catch (AuthService.logout post) (fun _ => ret tt))
    (clearTokens ;;
     set (fun s =>
            {| user := None; accessToken := None; refreshToken := None;
               encryptionKey := None; isAuthenticated := false;
               isLoading := isLoading s; error := None |})).

Definition loadSession : M unit :=
  set (fun s =>
         {| user := user s; accessToken := accessToken s;
            refreshToken := refreshToken s; encryptionKey := encryptionKey s;
            isAuthenticated := isAuthenticated s; isLoading := true;
            error := error s |}) ;;
  let stop_loading (s : AuthStore) :=
    {| user := user s; accessToken := accessToken s;
       refreshToken := refreshToken s; encryptionKey := encryptionKey s;
       isAuthenticated := isAuthenticated s; isLoading := false;
       error := error s |} in
  catch
    (accessToken' <- SecureStore.getItemAsync ENV.ACCESS_TOKEN ;;
     refreshToken' <- SecureStore.getItemAsync ENV.REFRESH_TOKEN ;;
     if negb (falsy accessToken') && negb (falsy refreshToken') then
       set (fun s =>
              {| user := user s; accessToken := accessToken';
                 refreshToken := refreshToken'; encryptionKey := encryptionKey s;
                 isAuthenticated := true; isLoading := false; error := error s |})
     else set stop_loading)
    (fun _ => set stop_loading).

Definition clearError : M unit :=
  set (fun s =>
         {| user := user s; accessToken := accessToken s;
            refreshToken := refreshToken s; encryptionKey := encryptionKey s;
            isAuthenticated := isAuthenticated s; isLoading := isLoading s;
            error := None |}).

Definition lockApp : M unit :=
  set (fun s =>
         {| user := user s; accessToken := accessToken s;
            refreshToken := refreshToken s; encryptionKey := None;
            isAuthenticated := isAuthenticated s; isLoading := isLoading s;
            error := error s |}).

Definition unlockApp (masterPassword : jsstring) : M unit :=
  s <- get_auth ;;
  match user s with
  | None => throw (Error "No active session")
  | Some u =>
      set begin_loading ;;
      catch
        (encryptionKey' <- lift (derive masterPassword (User.id u)) ;;
         set (fun s =>
                {| user := user s; accessToken := accessToken s;
                   refreshToken := refreshToken s;
                   encryptionKey := Some encryptionKey';
                   isAuthenticated := isAuthenticated s; isLoading := false;
                   error := error s |}))
        (fun error =>
           set (fail_with error "Failed to unlock") ;;
           throw error)
  end.

(** *** app/_layout.tsx: the AppState listener of the root layout *)

Definition handleAppStateChange (nextAppState : string) : M unit :=
  s <- get_auth ;;
  if String.eqb nextAppState "background" && isAuthenticated s
     && negb (falsy (encryptionKey s))
  then lockApp
  else ret tt.

(** *** app/(auth)/unlock.tsx *)

Definition BIOMETRIC_PASSWORD : string := "vaultguard_biometric_password".

Definition get_screen : M UnlockScreen := fun w => (Ok (screen w), w).

Definition set_screen (f : UnlockScreen -> UnlockScreen) : M unit :=
  fun w =>
    (Ok tt,
     {| auth := auth w; screen := f (screen w); secure := secure w;
        keychain := keychain w; writes := writes w |}).

Definition setPassword (text : jsstring) : M unit :=
  set_screen (fun c => {| password := text;
                          biometricAvailable := biometricAvailable c;
                          biometricEnabled := biometricEnabled c |}).

Definition setBiometricAvailable (b : bool) : M unit :=
  set_screen (fun c => {| password := password c;
                          biometricAvailable := b;
                          biometricEnabled := biometricEnabled c |}).

Definition setBiometricEnabled (b : bool) : M unit :=
  set_screen (fun c => {| password := password c;
                          biometricAvailable := biometricAvailable c;
                          biometricEnabled := b |}).

(** [authenticate] is the outcome of [LocalAuthentication.authenticateAsync]:
    its [success] flag, or the exception it raised. *)
Definition handleBiometricUnlock (authenticate : result bool) : M unit :=
  catch
    (success <- lift authenticate ;;
     if success : bool then
       storedPassword <- SecureStore.getItemAsync BIOMETRIC_PASSWORD ;;
       if negb (falsy storedPassword) then
         setPassword (field storedPassword) ;;
         unlockApp (field storedPassword)
       else ret tt
     else ret tt)
    (fun _ => ret tt).

(** [compatible] and [enrolled] are the answers of [hasHardwareAsync] and
    [isEnrolledAsync]. *)
Definition checkBiometric (compatible enrolled : bool) (authenticate : result bool)
  : M unit :=
  let available := compatible && enrolled in
  setBiometricAvailable available ;;
  if available then
    enabled <- SecureStore.getItemAsync ENV.BIOMETRIC_ENABLED ;;
    let is_true := bool_decide (enabled = Some (js "true")) in
    setBiometricEnabled is_true ;;
    if is_true then handleBiometricUnlock authenticate else ret tt
  else ret tt.

Definition handleUnlock : M unit :=
  c <- get_screen ;;
  if negb (truthy (password c)) then ret tt
  else
    clearError ;;
    catch
      (unlockApp (password c) ;;
       if biometricEnabled c
       then SecureStore.setItemAsync BIOMETRIC_PASSWORD (password c)
       else ret tt)
      (fun _ => ret tt).

(** *** Events

    Everything that can happen to the session between process start and
    exit, with the inputs the environment supplies. *)
Inductive event : Type :=
| Login (email password : jsstring) (post : result AuthResponse.t)
| Register (email password firstName lastName : jsstring)
           (post : result AuthResponse.t)
| Logout (post : result unit)
| LoadSession
| ClearError
| LockApp
| UnlockApp (masterPassword : jsstring)
| AppStateChange (nextAppState : string)
| TypePassword (text : jsstring)
| CheckBiometric (compatible enrolled : bool) (authenticate : result bool)
| BiometricUnlock (authenticate : result bool)
| PressUnlock
| GetDeviceId (fresh fallback : jsstring)
| KeychainStatus (available : bool).

Definition discard {A} (m : M A) : World -> World := fun w => snd (m w).

Definition step (e : event) : World -> World :=
  match e with
  | Login email pw post => discard (login email pw post)
  | Register email pw first last post => discard (register email pw first last post)
  | Logout post => discard (logout post)
  | LoadSession => discard loadSession
  | ClearError => discard clearError
  | LockApp => discard lockApp
  | UnlockApp pw => discard (unlockApp pw)
  | AppStateChange next => discard (handleAppStateChange next)
  | TypePassword text => discard (setPassword text)
  | CheckBiometric compatible enrolled authenticate =>
      discard (checkBiometric compatible enrolled authenticate)
  | BiometricUnlock authenticate => discard (handleBiometricUnlock authenticate)
  | PressUnlock => discard handleUnlock
  | GetDeviceId fresh fallback => discard (getDeviceId fresh fallback)
  | KeychainStatus available =>
      fun w => {| auth := auth w; screen := screen w; secure := secure w;
                  keychain := available; writes := writes w |}
  end.

Definition run (events : list event) (w : World) : World :=
  fold_left (fun w e => step e w) events w.

End AuthStoreActions.

(** ** Further modules of the client

    The validation utilities, the token readers and interceptors of the API
    client, the sign-in screens and the navigation effect, [encryptObject]
    with a model of [JSON.stringify], and the vault services and stores. *)

(** *** Regular expressions, as far as the validation utilities use them

    A pattern is a sequence of terms, each a set of code units with a
    quantifier, optionally anchored at either end.  Matching is the
    backtracking search of the language specification: a quantified term
    takes as much as it can and gives back until the rest matches. *)
Module RegExp.

Inductive quantifier : Type :=
| Once                     (* x *)
| OneOrMore                (* x+ *)
| Exactly (n : nat).       (* x{n} *)

Record term := {
  accepts : Z -> bool;
  quantity : quantifier
}.

Record pattern := {
  from_start : bool;       (* the pattern begins with ^ *)
  terms : list term;
  to_end : bool            (* the pattern ends with $ *)
}.

(** [\s]: white space and line terminators. *)
Definition space (c : Z) : bool :=
  ((9 <=? c) && (c <=? 13)) || (c =? 32) || (c =? 0xA0) || (c =? 0x1680)
  || ((0x2000 <=? c) && (c <=? 0x200A)) || (c =? 0x2028) || (c =? 0x2029)
  || (c =? 0x202F) || (c =? 0x205F) || (c =? 0x3000) || (c =? 0xFEFF).

(** [\d] and [\D] *)
Definition digit (c : Z) : bool := (48 <=? c) && (c <=? 57).
Definition non_digit (c : Z) : bool := negb (digit c).

Definition range (lo hi : string) (c : Z) : bool :=
  match js lo, js hi with
  | [l], [h] => (l <=? c) && (c <=? h)
  | _, _ => false
  end.

Definition literal (ch : string) (c : Z) : bool :=
  match js ch with
  | [l] => c =? l
  | _ => false
  end.

(** [n] code units of the set [p]; the input after them. *)
Fixpoint exactly (p : Z -> bool) (n : nat) (s : jsstring) : option jsstring :=
  match n with
  | O => Some s
  | S n' =>
      match s with
      | c :: rest => if p c then exactly p n' rest else None
      | [] => None
      end
  end.

(** One or more code units of the set [p], then [k]: the longest run first. *)
Fixpoint one_or_more (p : Z -> bool) (k : jsstring -> option jsstring)
  (s : jsstring) : option jsstring :=
  match s with
  | c :: rest =>
      if p c then
        match one_or_more p k rest with
        | Some r => Some r
        | None => k rest
        end
      else None
  | [] => None
  end.

(** A match of the terms at the head of [s]: the input that follows it. *)
Fixpoint match_here (ts : list term) (to_end : bool) (s : jsstring)
  : option jsstring :=
  match ts with
  | [] =>
      if to_end then match s with [] => Some [] | _ :: _ => None end
      else Some s
  | t :: ts' =>
      match quantity t with
      | Once =>
          match s with
          | c :: rest => if accepts t c then match_here ts' to_end rest else None
          | [] => None
          end
      | OneOrMore => one_or_more (accepts t) (match_here ts' to_end) s
      | Exactly n =>
          match exactly (accepts t) n s with
          | Some rest => match_here ts' to_end rest
          | None => None
          end
      end
  end.

(** The leftmost match at or after the head of [s]; [at_start] tells whether
    the head of [s] is the start of the subject. *)
Fixpoint search (r : pattern) (at_start : bool) (s : jsstring) : bool :=
  (if from_start r && negb at_start then false
   else match match_here (terms r) (to_end r) s with
        | Some _ => true
        | None => false
        end)
  || match s with
     | _ :: rest => search r false rest
     | [] => false
     end.

(** [regex.test(s)] *)
Definition test (r : pattern) (s : jsstring) : bool := search r true s.

(** [s.replace(regex, ...)] for a regex with the [g] flag: every match,
    from left to right, is replaced by [f] of the matched text. *)
Fixpoint replace_from (fuel : nat) (r : pattern) (f : jsstring -> jsstring)
  (at_start : bool) (s : jsstring) : jsstring :=
  match fuel with
  | O => s
  | S fuel' =>
      let next :=
        match s with
        | c :: rest => c :: replace_from fuel' r f false rest
        | [] => []
        end in
      if from_start r && negb at_start then next
      else
        match match_here (terms r) (to_end r) s with
        | Some rest =>
            match firstn (length s - length rest) s with
            | [] => f [] ++ next
            | matched => f matched ++ replace_from fuel' r f false rest
            end
        | None => next
        end
  end.

Definition replace_all (r : pattern) (f : jsstring -> jsstring) (s : jsstring)
  : jsstring :=
  replace_from (S (length s)) r f true s.

End RegExp.

(** [String.prototype.trim] *)
Fixpoint trim_start (s : jsstring) : jsstring :=
  match s with
  | c :: rest => if RegExp.space c then trim_start rest else s
  | [] => []
  end.

Definition trim (s : jsstring) : jsstring :=
  rev (trim_start (rev (trim_start s))).

(** *** utils/validation.ts *)

Module Validation.
Import RegExp.

Definition one (p : Z -> bool) : term := {| accepts := p; quantity := Once |}.
Definition many (p : Z -> bool) : term := {| accepts := p; quantity := OneOrMore |}.

(** [[^\s@]] *)
Definition local_char (c : Z) : bool := negb (space c || literal "@" c).

(** [/^[^\s@]+@[^\s@]+\.[^\s@]+$/] *)
Definition emailRegex : pattern :=
  {| from_start := true;
     terms := [many local_char; one (literal "@"); many local_char;
               one (literal "."); many local_char];
     to_end := true |}.

Definition isValidEmail (email : jsstring) : bool := test emailRegex email.

Definition unanchored (p : Z -> bool) : pattern :=
  {| from_start := false; terms := [one p]; to_end := false |}.

Definition upper : Z -> bool := range "A" "Z".
Definition lower : Z -> bool := range "a" "z".
Definition alnum (c : Z) : bool := lower c || upper c || digit c.

Definition isStrongPassword (password : jsstring) : bool :=
  if (length password <? 8)%nat then false
  else
    let hasUpperCase := test (unanchored upper) password in
    let hasLowerCase := test (unanchored lower) password in
    let hasNumber := test (unanchored digit) password in
    hasUpperCase && hasLowerCase && hasNumber.

Inductive strength : Type := weak | medium | strong.

Definition getPasswordStrength (password : jsstring) : strength * string :=
  if (length password <? 8)%nat then (weak, "Too short"%string)
  else
    let score := 0 in
    let score := if test (unanchored lower) password then score + 1 else score in
    let score := if test (unanchored upper) password then score + 1 else score in
    let score := if test (unanchored digit) password then score + 1 else score in
    let score :=
      if test (unanchored (fun c => negb (alnum c))) password then score + 1
      else score in
    let score := if (12 <=? length password)%nat then score + 1 else score in
    if score <? 3 then (weak, "Weak"%string)
    else if score <? 4 then (medium, "Medium"%string)
    else (strong, "Strong"%string).

(** [parseInt(ch)] for a one-character string: [None] is NaN. *)
Definition parseInt (c : Z) : option Z :=
  if digit c then Some (c - 48) else None.

(** The state of the loop of [isValidCardNumber]: [sum] ([None] is NaN) and
    [isEven]. *)
Definition luhn_step (st : option Z * bool) (c : Z) : option Z * bool :=
  let '(sum, isEven) := st in
  let digit := parseInt c in
  let digit :=
    if isEven then
      match digit with
      | Some d => let d := d * 2 in Some (if 9 <? d then d - 9 else d)
      | None => None
      end
    else digit in
  let sum :=
    match sum, digit with
    | Some s, Some d => Some (s + d)
    | _, _ => None
    end in
  (sum, negb isEven).

Definition isValidCardNumber (cardNumber : jsstring) : bool :=
  let digits := replace_all (unanchored non_digit) (fun _ => []) cardNumber in
  if (length digits <? 13)%nat || (19 <? length digits)%nat then false
  else
    (* for (let i = digits.length - 1; i >= 0; i--) *)
    let '(sum, _) := fold_left luhn_step (rev digits) (Some 0, false) in
    match sum with
    | Some s => s mod 10 =? 0
    | None => false
    end.

(** [/(\d{4})/g] *)
Definition four_digits : pattern :=
  {| from_start := false;
     terms := [{| accepts := digit; quantity := Exactly 4 |}];
     to_end := false |}.

Definition formatCardNumber (cardNumber : jsstring) : jsstring :=
  let digits := replace_all (unanchored non_digit) (fun _ => []) cardNumber in
  trim (replace_all four_digits (fun group => group ++ js " ") digits).

End Validation.

(** *** services/api.ts (reading the tokens back) *)

Definition getAccessToken : M (option jsstring) :=
  SecureStore.getItemAsync ENV.ACCESS_TOKEN.

Definition getRefreshToken : M (option jsstring) :=
  SecureStore.getItemAsync ENV.REFRESH_TOKEN.

(** *** app/(auth)/register.tsx *)

Module RegisterForm.
Record t := {
  firstName : jsstring;
  lastName : jsstring;
  email : jsstring;
  password : jsstring;
  confirmPassword : jsstring
}.
End RegisterForm.

Module FormErrors.
Record t := {
  email : string;
  password : string;
  confirmPassword : string
}.
End FormErrors.

(** [validateForm]: the errors handed to [setErrors], and the verdict. *)
Definition validateForm (formData : RegisterForm.t) : FormErrors.t * bool :=
  let email_error :=
    if negb (truthy (RegisterForm.email formData)) then "Email is required"%string
    else if negb (Validation.isValidEmail (RegisterForm.email formData))
    then "Invalid email format"%string
    else EmptyString in
  let password_error :=
    if negb (truthy (RegisterForm.password formData))
    then "Password is required"%string
    else if negb (Validation.isStrongPassword (RegisterForm.password formData))
    then "Password must be at least 8 characters with uppercase, lowercase, and number"%string
    else EmptyString in
  let confirm_error :=
    if bool_decide (RegisterForm.password formData
                    = RegisterForm.confirmPassword formData)
    then EmptyString
    else "Passwords do not match"%string in
  let newErrors :=
    {| FormErrors.email := email_error;
       FormErrors.password := password_error;
       FormErrors.confirmPassword := confirm_error |} in
  (newErrors,
   negb (existsb (fun error => negb (String.eqb error EmptyString))
                 [email_error; password_error; confirm_error])).

(** [handleRegister]: nothing is sent unless the form passes. *)
Definition handleRegister (derive : jsstring -> jsstring -> result jsstring)
  (formData : RegisterForm.t) (post : result AuthResponse.t) : M unit :=
  if negb (snd (validateForm formData)) then ret tt
  else if negb (truthy (RegisterForm.firstName formData))
          || negb (truthy (RegisterForm.lastName formData))
  then ret tt
  else
    clearError ;;
    catch
      (register derive (RegisterForm.email formData) (RegisterForm.password formData)
                (RegisterForm.firstName formData) (RegisterForm.lastName formData)
                post)
      (fun _ => ret tt).

(** *** app/(auth)/login.tsx *)

Definition handleLogin (derive : jsstring -> jsstring -> result jsstring)
  (email password : jsstring) (post : result AuthResponse.t) : M unit :=
  if negb (truthy email) then ret tt
  else if negb (Validation.isValidEmail email) then ret tt
  else if negb (truthy password) then ret tt
  else
    clearError ;;
    catch (login derive email password post) (fun _ => ret tt).

(** *** app/_layout.tsx: the navigation effect of the root layout

    [segments] is what [useSegments] returns; the result is the argument
    of [router.replace], if the effect calls it. *)
Definition redirect (s : AuthStore) (segments : list string) : option string :=
  if isLoading s then None
  else
    let first_is (group : string) :=
      match segments with
      | segment :: _ => String.eqb segment group
      | [] => false
      end in
    let inAuthGroup := first_is "(auth)" in
    let inAppGroup := first_is "(app)" in
    if negb (isAuthenticated s) && negb inAuthGroup then
      Some "/(auth)/login"%string
    else if isAuthenticated s && falsy (encryptionKey s)
            && negb (existsb (String.eqb "unlock") segments) then
      Some "/(auth)/unlock"%string
    else if isAuthenticated s && negb (falsy (encryptionKey s)) && negb inAppGroup then
      Some "/(app)/vaults"%string
    else None.

(** *** services/api.ts (interceptors of [apiClient])

    Of a request configuration only what the interceptors touch is kept:
    the headers and the [_retry] mark. *)
Module Request.
Record t := {
  headers : gmap string jsstring;
  _retry : bool
}.
End Request.

Definition with_header (name : string) (value : jsstring) (config : Request.t)
  : Request.t :=
  {| Request.headers := <[name := value]> (Request.headers config);
     Request._retry := Request._retry config |}.

(** The request interceptor; [fresh] and [fallback] are the identifiers
    [getDeviceId] may have to generate. *)
Definition onRequest (fresh fallback : jsstring) (config : Request.t)
  : M Request.t :=
  accessToken <- SecureStore.getItemAsync ENV.ACCESS_TOKEN ;;
  let config :=
    if negb (falsy accessToken)
    then with_header "Authorization" (js "Bearer " ++ field accessToken) config
    else config in
  deviceId <- getDeviceId fresh fallback ;;
  ret (with_header "X-Device-Id" deviceId config).

(** The response interceptor for a failed request.  [status] is
    [error.response?.status], [refresh] answers the call to the refresh
    endpoint with the two new tokens, and [resend] is [apiClient] applied to
    the request again.  The promise of the resent request is returned, not
    awaited, so its failure does not reach the [catch] block. *)
Definition onResponseError {A} (error : exn) (status : option Z)
  (originalRequest : Request.t)
  (refresh : jsstring -> result (jsstring * jsstring))
  (resend : Request.t -> M A) : M A :=
  if bool_decide (status = Some 401) && negb (Request._retry originalRequest) then
    let originalRequest :=
      {| Request.headers := Request.headers originalRequest;
         Request._retry := true |} in
    retried <-
      catch
        (refreshToken <- SecureStore.getItemAsync ENV.REFRESH_TOKEN ;;
         if falsy refreshToken then throw (Error "No refresh token available")
         else
           tokens <- lift (refresh (field refreshToken)) ;;
           SecureStore.setItemAsync ENV.ACCESS_TOKEN (fst tokens) ;;
           SecureStore.setItemAsync ENV.REFRESH_TOKEN (snd tokens) ;;
           ret (with_header "Authorization" (js "Bearer " ++ fst tokens)
                            originalRequest))
        (fun refreshError => clearTokens ;; throw refreshError) ;;
    resend retried
  else throw error.

(** *** [JSON.stringify]

    Model of the built-in after ECMA-262 (SerializeJSONProperty and
    QuoteJSONString) on the values the vault screens build: strings,
    booleans, [null], [undefined], arrays and plain objects.  An object is
    given by its own enumerable properties in enumeration order. *)

#[local] Unset Elimination Schemes.
Inductive jsvalue : Type :=
| JsUndefined
| JsNull
| JsBoolean (b : bool)
| JsString (s : jsstring)
| JsArray (items : list jsvalue)
| JsObject (properties : list (jsstring * jsvalue)).
#[local] Set Elimination Schemes.

Module Stringify.

Definition hex_char (n : Z) : Z := if n <? 10 then 48 + n else 87 + n.

(** [\uXXXX] with lower-case digits *)
Definition unicode_escape (c : Z) : jsstring :=
  [92; 117; hex_char (c / 4096 mod 16); hex_char (c / 256 mod 16);
   hex_char (c / 16 mod 16); hex_char (c mod 16)].

(** A code unit that is not a surrogate. *)
Definition escape_unit (c : Z) : jsstring :=
  if c =? 8 then [92; 98]            (* backspace: \b *)
  else if c =? 9 then [92; 116]      (* tab: \t *)
  else if c =? 10 then [92; 110]     (* line feed: \n *)
  else if c =? 12 then [92; 102]     (* form feed: \f *)
  else if c =? 13 then [92; 114]     (* carriage return: \r *)
  else if c =? 34 then [92; 34]      (* quotation mark *)
  else if c =? 92 then [92; 92]      (* backslash *)
  else if c <? 32 then unicode_escape c
  else [c].

(** The text between the quotes: surrogate pairs are kept, a surrogate
    on its own is escaped. *)
Fixpoint quote_body (s : jsstring) : jsstring :=
  match s with
  | [] => []
  | c :: rest =>
      if Text.is_high c then
        match rest with
        | d :: rest' =>
            if Text.is_low d then c :: d :: quote_body rest'
            else unicode_escape c ++ quote_body rest
        | [] => unicode_escape c
        end
      else if Text.is_low c then unicode_escape c ++ quote_body rest
      else escape_unit c ++ quote_body rest
  end.

Definition quote (s : jsstring) : jsstring := 34 :: quote_body s ++ [34].

(** The parts separated by commas. *)
Fixpoint join (parts : list jsstring) : jsstring :=
  match parts with
  | [] => []
  | [part] => part
  | part :: rest => part ++ 44 :: join rest
  end.

(** [None] is [undefined]: an array element that has no text is written
    [null], an object property that has none is left out. *)
Fixpoint stringify (v : jsvalue) : option jsstring :=
  match v with
  | JsUndefined => None
  | JsNull => Some (js "null")
  | JsBoolean b => Some (if b then js "true" else js "false")
  | JsString s => Some (quote s)
  | JsArray items =>
      Some (91 :: join (map (fun item =>
                               match stringify item with
                               | Some text => text
                               | None => js "null"
                               end) items) ++ [93])
  | JsObject properties =>
      Some (123 :: join (flat_map (fun property =>
                                     match stringify (snd property) with
                                     | Some text =>
                                         [quote (fst property) ++ 58 :: text]
                                     | None => []
                                     end) properties) ++ [125])
  end.

End Stringify.

(** *** crypto/aes-gcm.ts: [encryptObject]

    When [JSON.stringify] returns [undefined], [encryptData] is entered with
    a falsy plaintext and its first guard throws. *)
Definition encryptObject (obj : jsvalue) (encryptionKey : jsstring) (random : bytes)
  : result EncryptedData :=
  match Stringify.stringify obj with
  | Some jsonString => encryptData jsonString encryptionKey random
  | None => Throw (Error "Plaintext data is required")
  end.

(** *** types/index.ts: vaults and vault items *)

Inductive VaultItemType : Type :=
| PASSWORD        (* 'password' *)
| NOTE            (* 'secure_note' *)
| CARD.           (* 'credit_card' *)

Module Vault.
Record t := {
  id : jsstring;
  name : jsstring;
  description : option jsstring;
  icon : option jsstring;
  itemCount : Z;
  createdAt : jsstring;
  updatedAt : jsstring
}.
End Vault.

Module VaultItem.
Record t := {
  id : jsstring;
  vaultId : jsstring;
  type : VaultItemType;
  name : jsstring;
  encryptedData : option EncryptedData;   (* as the server sent it *)
  favorite : bool;
  createdAt : jsstring;
  updatedAt : jsstring;
  lastAccessedAt : option jsstring
}.
End VaultItem.

(** [{ ...item, data }] *)
Module DecryptedVaultItem.
Record t := {
  item : VaultItem.t;
  data : JSON.value
}.
End DecryptedVaultItem.

Module CreateVaultItemRequest.
Record t := {
  vaultId : jsstring;
  type : VaultItemType;
  name : jsstring;
  encryptedData : EncryptedData;
  favorite : bool
}.
End CreateVaultItemRequest.

Module UpdateVaultItemRequest.
Record t := {
  name : option jsstring;
  encryptedData : option EncryptedData;
  favorite : option bool
}.
End UpdateVaultItemRequest.

(** *** services/vault.service.ts

    The outcome of each HTTP request is an input: [get], [post], [put] and
    [delete] stand for the calls on [apiClient]. *)
Module VaultService.

Definition getVaults (get : result (list Vault.t)) : result (list Vault.t) :=
  try_catch get (fun error => Throw (Error (handleApiError error))).

Definition getVaultById (get : result Vault.t) : result Vault.t :=
  try_catch get (fun error => Throw (Error (handleApiError error))).

Definition createVault (post : result Vault.t) : result Vault.t :=
  try_catch post (fun error => Throw (Error (handleApiError error))).

Definition updateVault (put : result Vault.t) : result Vault.t :=
  try_catch put (fun error => Throw (Error (handleApiError error))).

Definition deleteVault (delete : result unit) : result unit :=
  try_catch delete (fun error => Throw (Error (handleApiError error))).

End VaultService.

(** *** services/vault-item.service.ts *)
Module VaultItemService.

Definition getVaultItems (get : result (list VaultItem.t))
  : result (list VaultItem.t) :=
  try_catch get (fun error => Throw (Error (handleApiError error))).

Definition getVaultItemById (get : result VaultItem.t) : result VaultItem.t :=
  try_catch get (fun error => Throw (Error (handleApiError error))).

(** [random] is the nonce drawn by [encryptData]; [post] answers the
    request that is sent. *)
Definition createVaultItem (vaultId : jsstring) (type : VaultItemType)
  (name : jsstring) (data : jsvalue) (encryptionKey : jsstring) (favorite : bool)
  (random : bytes) (post : CreateVaultItemRequest.t -> result VaultItem.t)
  : result VaultItem.t :=
  try_catch
    (let* encryptedData := encryptObject data encryptionKey random in
     let request :=
       {| CreateVaultItemRequest.vaultId := vaultId;
          CreateVaultItemRequest.type := type;
          CreateVaultItemRequest.name := name;
          CreateVaultItemRequest.encryptedData := encryptedData;
          CreateVaultItemRequest.favorite := favorite |} in
     post request)
    (fun error => Throw (Error (handleApiError error))).

Definition updateVaultItem (request : UpdateVaultItemRequest.t)
  (put : UpdateVaultItemRequest.t -> result VaultItem.t) : result VaultItem.t :=
  try_catch (put request)
            (fun error => Throw (Error (handleApiError error))).

Definition updateVaultItemData (name : jsstring) (data : jsvalue)
  (encryptionKey : jsstring) (favorite : option bool) (random : bytes)
  (put : UpdateVaultItemRequest.t -> result VaultItem.t) : result VaultItem.t :=
  try_catch
    (let* encryptedData := encryptObject data encryptionKey random in
     let request :=
       {| UpdateVaultItemRequest.name := Some name;
          UpdateVaultItemRequest.encryptedData := Some encryptedData;
          UpdateVaultItemRequest.favorite := favorite |} in
     updateVaultItem request put)
    (fun error => Throw (Error (handleApiError error))).

Definition deleteVaultItem (delete : result unit) : result unit :=
  try_catch delete (fun error => Throw (Error (handleApiError error))).

Definition decryptVaultItem (item : VaultItem.t) (encryptionKey : jsstring)
  : result DecryptedVaultItem.t :=
  try_catch
    (let* decryptedData :=
       decryptObject (VaultItem.encryptedData item) encryptionKey in
     Ok {| DecryptedVaultItem.item := item;
           DecryptedVaultItem.data := decryptedData |})
    (fun _ => Throw (Error "Failed to decrypt item - incorrect password")).

Definition toggleFavorite (currentStatus : bool)
  (put : UpdateVaultItemRequest.t -> result VaultItem.t) : result VaultItem.t :=
  updateVaultItem
    {| UpdateVaultItemRequest.name := None;
       UpdateVaultItemRequest.encryptedData := None;
       UpdateVaultItemRequest.favorite := Some (negb currentStatus) |}
    put.

End VaultItemService.

(** *** store/vault.store.ts *)
Module VaultStore.

Record state := {
  vaults : list Vault.t;
  currentVaultId : option jsstring;
  isLoading : bool;
  error : option string
}.

Definition initial : state :=
  {| vaults := []; currentVaultId := None; isLoading := false; error := None |}.

(** [set({ isLoading: true, error: null })] *)
Definition begin (s : state) : state :=
  {| vaults := vaults s; currentVaultId := currentVaultId s;
     isLoading := true; error := None |}.

(** [set({ error: error.message || fallback, isLoading: false })] *)
Definition fail (e : exn) (fallback : string) (s : state) : state :=
  {| vaults := vaults s; currentVaultId := currentVaultId s;
     isLoading := false; error := Some (or_default (message e) fallback) |}.

Definition fetchVaults (get : result (list Vault.t)) (s : state)
  : result unit * state :=
  let s := begin s in
  match VaultService.getVaults get with
  | Ok vaults' =>
      (Ok tt, {| vaults := vaults'; currentVaultId := currentVaultId s;
                 isLoading := false; error := error s |})
  | Throw e => (Throw e, fail e "Failed to fetch vaults" s)
  end.

Definition createVault (post : result Vault.t) (s : state)
  : result Vault.t * state :=
  let s := begin s in
  match VaultService.createVault post with
  | Ok newVault =>
      (Ok newVault,
       {| vaults := vaults s ++ [newVault]; currentVaultId := currentVaultId s;
          isLoading := false; error := error s |})
  | Throw e => (Throw e, fail e "Failed to create vault" s)
  end.

Definition updateVault (vaultId : jsstring) (put : result Vault.t) (s : state)
  : result unit * state :=
  let s := begin s in
  match VaultService.updateVault put with
  | Ok updatedVault =>
      (Ok tt,
       {| vaults := map (fun v => if bool_decide (Vault.id v = vaultId)
                                  then updatedVault else v) (vaults s);
          currentVaultId := currentVaultId s;
          isLoading := false; error := error s |})
  | Throw e => (Throw e, fail e "Failed to update vault" s)
  end.

Definition deleteVault (vaultId : jsstring) (delete : result unit) (s : state)
  : result unit * state :=
  let s := begin s in
  match VaultService.deleteVault delete with
  | Ok _ =>
      (Ok tt,
       {| vaults := List.filter (fun v => negb (bool_decide (Vault.id v = vaultId)))
                                (vaults s);
          currentVaultId :=
            if bool_decide (currentVaultId s = Some vaultId) then None
            else currentVaultId s;
          isLoading := false; error := error s |})
  | Throw e => (Throw e, fail e "Failed to delete vault" s)
  end.

Definition setCurrentVault (vaultId : option jsstring) (s : state) : state :=
  {| vaults := vaults s; currentVaultId := vaultId;
     isLoading := isLoading s; error := error s |}.

Definition clearError (s : state) : state :=
  {| vaults := vaults s; currentVaultId := currentVaultId s;
     isLoading := isLoading s; error := None |}.

End VaultStore.

(** *** store/vault-item.store.ts *)
Module VaultItemStore.

Record state := {
  items : list VaultItem.t;
  decryptedItems : gmap (list Z) DecryptedVaultItem.t;
  isLoading : bool;
  error : option string
}.

Definition initial : state :=
  {| items := []; decryptedItems := ∅; isLoading := false; error := None |}.

Definition begin (s : state) : state :=
  {| items := items s; decryptedItems := decryptedItems s;
     isLoading := true; error := None |}.

Definition fail (e : exn) (fallback : string) (s : state) : state :=
  {| items := items s; decryptedItems := decryptedItems s;
     isLoading := false; error := Some (or_default (message e) fallback) |}.

Definition fetchItems (get : result (list VaultItem.t)) (s : state)
  : result unit * state :=
  let s := begin s in
  match VaultItemService.getVaultItems get with
  | Ok items' =>
      (Ok tt, {| items := items'; decryptedItems := decryptedItems s;
                 isLoading := false; error := error s |})
  | Throw e => (Throw e, fail e "Failed to fetch items" s)
  end.

(** [favorite = None] when the argument is omitted. *)
Definition createItem (vaultId : jsstring) (type : VaultItemType) (name : jsstring)
  (data : jsvalue) (encryptionKey : jsstring) (favorite : option bool)
  (random : bytes) (post : CreateVaultItemRequest.t -> result VaultItem.t)
  (s : state) : result VaultItem.t * state :=
  let favorite := match favorite with Some b => b | None => false end in
  let s := begin s in
  match VaultItemService.createVaultItem vaultId type name data encryptionKey
                                         favorite random post with
  | Ok newItem =>
      (Ok newItem,
       {| items := items s ++ [newItem]; decryptedItems := decryptedItems s;
          isLoading := false; error := error s |})
  | Throw e => (Throw e, fail e "Failed to create item" s)
  end.

Definition updateItem (itemId name : jsstring) (data : jsvalue)
  (encryptionKey : jsstring) (favorite : option bool) (random : bytes)
  (put : UpdateVaultItemRequest.t -> result VaultItem.t) (s : state)
  : result unit * state :=
  let s := begin s in
  match VaultItemService.updateVaultItemData name data encryptionKey favorite
                                             random put with
  | Ok updatedItem =>
      (Ok tt,
       {| items := map (fun item => if bool_decide (VaultItem.id item = itemId)
                                    then updatedItem else item) (items s);
          decryptedItems := delete itemId (decryptedItems s);
          isLoading := false; error := error s |})
  | Throw e => (Throw e, fail e "Failed to update item" s)
  end.

Definition deleteItem (itemId : jsstring) (delete_ : result unit) (s : state)
  : result unit * state :=
  let s := begin s in
  match VaultItemService.deleteVaultItem delete_ with
  | Ok _ =>
      (Ok tt,
       {| items := List.filter
                     (fun item => negb (bool_decide (VaultItem.id item = itemId)))
                     (items s);
          decryptedItems := delete itemId (decryptedItems s);
          isLoading := false; error := error s |})
  | Throw e => (Throw e, fail e "Failed to delete item" s)
  end.

Definition decryptItem (itemId encryptionKey : jsstring) (s : state)
  : result unit * state :=
  match List.find (fun i => bool_decide (VaultItem.id i = itemId)) (items s) with
  | None => (Throw (Error "Item not found"), s)
  | Some item =>
      match VaultItemService.decryptVaultItem item encryptionKey with
      | Ok decryptedItem =>
          (Ok tt,
           {| items := items s;
              decryptedItems := <[itemId := decryptedItem]> (decryptedItems s);
              isLoading := isLoading s; error := error s |})
      | Throw e => (Throw e, s)
      end
  end.

Definition toggleFavorite (itemId : jsstring) (currentStatus : bool)
  (put : UpdateVaultItemRequest.t -> result VaultItem.t) (s : state)
  : result unit * state :=
  match VaultItemService.toggleFavorite currentStatus put with
  | Ok updatedItem =>
      (Ok tt,
       {| items := map (fun item => if bool_decide (VaultItem.id item = itemId)
                                    then updatedItem else item) (items s);
          decryptedItems := decryptedItems s;
          isLoading := isLoading s; error := error s |})
  | Throw e =>
      (Throw e,
       {| items := items s; decryptedItems := decryptedItems s;
          isLoading := isLoading s;
          error := Some (or_default (message e) "Failed to toggle favorite") |})
  end.

Definition clearDecryptedItems (s : state) : state :=
  {| items := items s; decryptedItems := ∅;
     isLoading := isLoading s; error := error s |}.

Definition clearError (s : state) : state :=
  {| items := items s; decryptedItems := decryptedItems s;
     isLoading := isLoading s; error := None |}.

End VaultItemStore.

(** * Vocabulary of the statements *)

Module Base64Spec.
Import Base64.

(** The character that stands for the six-bit digit [i]. *)
Definition chr (i : Z) : Z := nth (Z.to_nat i) TABLE 0.

(** The table maps digit [i] to one character, [indexOf] maps it back, and
    the character is neither padding nor white space. *)
Definition chr_ok (i : Z) : bool :=
  match charAt i with
  | [c] => (c =? chr i) && (indexOf c =? i) && negb (c =? pad)
           && negb (is_space c) && (0 <=? c) && (c <=? 255)
  | _ => false
  end.

(** The encoding without its padding characters. *)
Fixpoint digits (input : bytes) : jsstring :=
  match input with
  | a :: b :: c :: rest =>
      chr (a / 4) :: chr (a mod 4 * 16 + b / 16) ::
      chr (b mod 16 * 4 + c / 64) :: chr (c mod 64) :: digits rest
  | [a; b] => [chr (a / 4); chr (a mod 4 * 16 + b / 16); chr (b mod 16 * 4)]
  | [a] => [chr (a / 4); chr (a mod 4 * 16)]
  | [] => []
  end.

End Base64Spec.

Module TextSpec.

(** Unicode scalar values: code points that are not surrogates. *)
Definition scalar (cp : Z) : Prop :=
  0 <= cp <= 0x10FFFF /\ ~ (0xD800 <= cp <= 0xDFFF).

End TextSpec.

Module GCMSpec.
Import GCM.

Section WithKey.
Variable E : Z -> Z.

(** The ciphertext part of [seal]: the plaintext under the key stream. *)
Definition sealed_text (iv p : bytes) : bytes :=
  xor_bytes p (keystream E (J0 E iv) (length p)).

End WithKey.

End GCMSpec.

(** Bytes written as lower-case hexadecimal, used to state test vectors. *)
Definition hex (bs : bytes) : string :=
  let digit (n : Z) :=
    match nth_error (list_ascii_of_string "0123456789abcdef") (Z.to_nat n) with
    | Some a => a
    | None => "?"%char
    end in
  string_of_list_ascii (flat_map (fun b => [digit (b / 16); digit (b mod 16)]) bs).

(** Bytes read from lower-case hexadecimal, used to state test vectors. *)
Definition unhex (s : string) : bytes :=
  let v (a : ascii) :=
    let n := Z.of_nat (nat_of_ascii a) in if n <? 58 then n - 48 else n - 87 in
  (fix go (l : list ascii) :=
     match l with
     | a :: b :: r => (v a * 16 + v b) :: go r
     | _ => []
     end) (list_ascii_of_string s).

(** A literal in which each apostrophe stands for a double quote. *)
Definition js_quoted (s : string) : jsstring :=
  map (fun c => if c =? 39 then 34 else c) (js s).

(** A key string is usable for AES-256 when it is the base64 text of 32 bytes. *)
Definition valid_key (encryptionKey : jsstring) : Prop :=
  exists keyBytes,
    base64ToBytes encryptionKey = Ok keyBytes /\ length keyBytes = 32%nat.

(** What [crypto.getRandomValues(new Uint8Array(12))] can leave in the array. *)
Definition nonce_draw (random : bytes) : Prop :=
  length random = 12%nat /\ octets random.

(** Plaintexts that the text codec carries unchanged. *)
Definition plain_text (p : jsstring) : Prop :=
  p <> [] /\ Text.well_formed p = true /\ Text.starts_with_bom p = false.

(** The record produced for plaintext bytes [pb] under key bytes [kb]. *)
Definition sealed_record (kb random pb : bytes) : EncryptedData :=
  let E := GCM.block_cipher kb in
  let c := GCMSpec.sealed_text E random pb in
  {| encryptedData := Some (Base64.encode_groups c);
     iv := Some (Base64.encode_groups random);
     authTag := Some (Base64.encode_groups (GCM.tag E (GCM.J0 E random) c)) |}.

(** Sample inputs used in the examples: the base64 text of the key bytes
    0, 1, ..., 31 and a twelve-byte nonce. *)
Definition sample_key : jsstring := js "AAECAwQFBgcICQoLDA0ODxAREhMUFRYXGBkaGxwdHh8=".
Definition sample_nonce : bytes := [1; 2; 3; 4; 5; 6; 7; 8; 9; 10; 11; 12].
Definition other_nonce : bytes := [12; 11; 10; 9; 8; 7; 6; 5; 4; 3; 2; 1].

(** The record WebCrypto produces for ["hello"] under the sample key and
    nonce (the values agree with OpenSSL's AES-256-GCM). *)
Definition hello_record : EncryptedData :=
  {| encryptedData := Some (js "bY82uYM=");
     iv := Some (js "AQIDBAUGBwgJCgsM");
     authTag := Some (js "UupW4A46KeukH686kQo1yw==") |}.

(** Some field of the record is missing or empty, or there is no record. *)
Definition missing_field (encrypted : option EncryptedData) : bool :=
  match encrypted with
  | Some e => falsy (encryptedData e) || falsy (iv e) || falsy (authTag e)
  | None => true
  end.

(** The two errors with which [deriveEncryptionKey] rejects its arguments:
    the specification's InvalidInput condition. *)
Definition InvalidInput (e : exn) : Prop :=
  e = Error "Master password must be at least 8 characters" \/
  e = Error "User ID is required as salt".

(** The key derivation as the specification words it: the base64 encoding
    of the 256-bit PBKDF2-HMAC-SHA256 output for 100,000 iterations, with the
    UTF-8 bytes of the master password as password and the UTF-8 bytes of
    the account id as salt. *)
Definition derive_reference (masterSecret accountId : jsstring) : jsstring :=
  let password := Text.encode masterSecret in
  let salt := Text.encode accountId in
  let derivedKey := SHA256.pbkdf2 password salt 100000 (256 / 8) in
  Base64.encode_groups derivedKey.

(** The error with which [decryptData] reports a failed decryption. *)
Definition DECRYPTION_FAILED : exn :=
  Error "Decryption failed - incorrect password or corrupted data".

(** [hello_record] with its nonce field emptied. *)
Definition hello_without_nonce : EncryptedData :=
  {| encryptedData := Some (js "bY82uYM=");
     iv := Some [];
     authTag := Some (js "UupW4A46KeukH686kQo1yw==") |}.

(** [hello_record] with the last character of its tag changed. *)
Definition hello_tampered : EncryptedData :=
  {| encryptedData := Some (js "bY82uYM=");
     iv := Some (js "AQIDBAUGBwgJCgsM");
     authTag := Some (js "UupW4A46KeukH686kQo1yg==") |}.

(** The store state [logout] leaves behind. *)
Definition signed_out (s : AuthStore) : AuthStore :=
  {| user := None; accessToken := None; refreshToken := None;
     encryptionKey := None; isAuthenticated := false;
     isLoading := isLoading s; error := None |}.

(** The store state after a successful [unlockApp] that derived [key]. *)
Definition unlocked (key : jsstring) (s : AuthStore) : AuthStore :=
  {| user := user s; accessToken := accessToken s; refreshToken := refreshToken s;
     encryptionKey := Some key; isAuthenticated := isAuthenticated s;
     isLoading := false; error := None |}.

(** The world with its auth store changed by [f] and nothing else. *)
Definition with_auth (f : AuthStore -> AuthStore) (w : World) : World :=
  {| auth := f (auth w); screen := screen w; secure := secure w;
     keychain := keychain w; writes := writes w |}.

(** A response of the authentication service, used in the examples. *)
Definition sample_response : AuthResponse.t :=
  {| AuthResponse.accessToken := js "access-token";
     AuthResponse.refreshToken := js "refresh-token";
     AuthResponse.userId := js "user-42";
     AuthResponse.email := js "a@b.com";
     AuthResponse.firstName := None;
     AuthResponse.lastName := None |}.

(** The world after a first registration with the master password
    "Sup3rSecret!". *)
Definition registered_world : World :=
  snd (register deriveEncryptionKey (js "a@b.com") (js "Sup3rSecret!")
                (js "A") (js "B") (Ok sample_response) (boot ∅ true)).

(** The registered world after the application was locked. *)
Definition locked_world : World := snd (lockApp registered_world).

(** A locked session: account context and tokens present, no key. *)
Definition sample_locked : World :=
  {| auth := {| user := Some (user_of sample_response);
                accessToken := Some (js "access-token");
                refreshToken := Some (js "refresh-token");
                encryptionKey := None;
                isAuthenticated := true; isLoading := false; error := None |};
     screen := initial_screen; secure := ∅; keychain := true; writes := [] |}.

(** A secure store that holds both tokens of an earlier session. *)
Definition persisted_tokens : gmap string jsstring :=
  <[ENV.ACCESS_TOKEN := js "access-token"]>
    (<[ENV.REFRESH_TOKEN := js "refresh-token"]> ∅).

(** ** What may reach the secure store *)

Section Provenance.

(** The secure store as the process found it. *)
Variable stored : gmap string jsstring.

(** [r] is a response the authentication service gave to a login or a
    registration among [events]. *)
Definition issued (events : list event) (r : AuthResponse.t) : Prop :=
  (exists email pw, In (Login email pw (Ok r)) events) \/
  (exists email pw first last, In (Register email pw first last (Ok r)) events).

(** [v] was typed into the master-password field, or is the master
    password the store already held for biometric unlock. *)
Definition entered (events : list event) (v : jsstring) : Prop :=
  In (TypePassword v) events \/ stored !! BIOMETRIC_PASSWORD = Some v.

(** The biometric opt-in flag is set in the secure store. *)
Definition opted_in : Prop :=
  stored !! ENV.BIOMETRIC_ENABLED = Some (js "true").

(** The key/value pairs that may be handed to [SecureStore.setItemAsync]. *)
Inductive permitted (events : list event) : string * jsstring -> Prop :=
| permit_access r :
    issued events r ->
    permitted events (ENV.ACCESS_TOKEN, AuthResponse.accessToken r)
| permit_refresh r :
    issued events r ->
    permitted events (ENV.REFRESH_TOKEN, AuthResponse.refreshToken r)
| permit_device fresh fallback :
    In (GetDeviceId fresh fallback) events ->
    permitted events (DEVICE_ID_KEY, fresh)
| permit_password v :
    opted_in -> entered events v ->
    permitted events (BIOMETRIC_PASSWORD, v).

(** What holds of every world reached by [events]: the writes so far were
    permitted, the password field and the password kept for biometric unlock
    were entered by the user, the screen believes in the opt-in only if the
    flag is set, and the flag itself is as the process found it. *)
Record invariant (events : list event) (w : World) : Prop := {
  inv_writes : forall kv, In kv (writes w) -> permitted events kv;
  inv_password : password (screen w) = [] \/ entered events (password (screen w));
  inv_stored : forall v : jsstring,
      secure w !! BIOMETRIC_PASSWORD = Some v -> entered events v;
  inv_enabled : biometricEnabled (screen w) = true -> opted_in;
  inv_flag : secure w !! ENV.BIOMETRIC_ENABLED = stored !! ENV.BIOMETRIC_ENABLED
}.

End Provenance.

(** Two key derivations have the same outcomes when they fail on the same
    inputs with the same error; the keys they return may differ. *)
Definition same_outcomes (d1 d2 : jsstring -> jsstring -> result jsstring) : Prop :=
  forall pw uid,
    match d1 pw uid, d2 pw uid with
    | Ok _, Ok _ => True
    | Throw e1, Throw e2 => e1 = e2
    | _, _ => False
    end.

(** Two worlds that differ at most in the resident key. *)
Record alike (w1 w2 : World) : Prop := {
  alike_user : user (auth w1) = user (auth w2);
  alike_accessToken : accessToken (auth w1) = accessToken (auth w2);
  alike_refreshToken : refreshToken (auth w1) = refreshToken (auth w2);
  alike_isAuthenticated : isAuthenticated (auth w1) = isAuthenticated (auth w2);
  alike_isLoading : isLoading (auth w1) = isLoading (auth w2);
  alike_error : error (auth w1) = error (auth w2);
  alike_screen : screen w1 = screen w2;
  alike_secure : secure w1 = secure w2;
  alike_keychain : keychain w1 = keychain w2;
  alike_writes : writes w1 = writes w2
}.

(** A key derivation with the outcomes of [deriveEncryptionKey] that
    returns one fixed key. *)
Definition constant_key (pw uid : jsstring) : result jsstring :=
  match deriveEncryptionKey pw uid with
  | Ok _ => Ok (js "AAAA")
  | Throw e => Throw e
  end.

(** Register, lock, and unlock again from the unlock screen. *)
Definition sample_session : list event :=
  [Register (js "a@b.com") (js "Sup3rSecret!") (js "A") (js "B") (Ok sample_response);
   LockApp;
   CheckBiometric true true (Ok false);
   TypePassword (js "Sup3rSecret!");
   PressUnlock;
   GetDeviceId (js "6f1c0a52-device") (js "fallback")].

(** A secure store in which the biometric opt-in flag is set. *)
Definition opted_in_store : gmap string jsstring :=
  <[ENV.BIOMETRIC_ENABLED := js "true"]> ∅.

(** ** Vocabulary for the further modules *)

(** A part of an e-mail address as the pattern reads it: not empty, and
    free of white space and of the at sign. *)
Definition email_part (s : jsstring) : bool :=
  truthy s && forallb Validation.local_char s.

(** The decimal digits of a string, in order. *)
Definition digits_of (s : jsstring) : jsstring := List.filter RegExp.digit s.

(** Digits in groups of four, separated by single spaces. *)
Fixpoint grouped (ds : jsstring) : jsstring :=
  match ds with
  | a :: b :: c :: d :: rest =>
      match rest with
      | [] => [a; b; c; d]
      | _ :: _ => a :: b :: c :: d :: 32 :: grouped rest
      end
  | _ => ds
  end.

(** The text [replace] produces for the four-digit pattern on a string
    of digits: every complete group is followed by a space. *)
Fixpoint spaced (ds : jsstring) : jsstring :=
  match ds with
  | a :: b :: c :: d :: rest => a :: b :: c :: d :: 32 :: spaced rest
  | _ => ds
  end.

(** [trim] at the end of the string only. *)
Definition trim_end (s : jsstring) : jsstring := rev (trim_start (rev s)).

(** What a digit adds to the Luhn sum; [doubled] holds at every second
    position, counted from the right. *)
Definition luhn_weight (doubled : bool) (d : Z) : Z :=
  if doubled then (if 9 <? 2 * d then 2 * d - 9 else 2 * d) else d.

(** The Luhn sum of digit characters listed from the right. *)
Fixpoint luhn_total (doubled : bool) (cs : jsstring) : Z :=
  match cs with
  | c :: rest => luhn_weight doubled (c - 48) + luhn_total (negb doubled) rest
  | [] => 0
  end.

(** Every element of a string is a UTF-16 code unit. *)
Definition code_units (s : jsstring) : Prop := Forall (fun c => 0 <= c <= 0xFFFF) s.

(** Raw key material of a size AES accepts. *)
Definition aes_key_bytes (kb : bytes) : Prop :=
  (length kb = 16 \/ length kb = 24 \/ length kb = 32)%nat.

(** A record with its tag field replaced. *)
Definition with_tag (r : EncryptedData) (tag64 : jsstring) : EncryptedData :=
  {| encryptedData := encryptedData r; iv := iv r; authTag := Some tag64 |}.

(** The resident key was derived for the current account, an account is
    only present in an authenticated session, and an authenticated session
    holds both tokens. *)
Record session_consistent (derive : jsstring -> jsstring -> result jsstring)
  (s : AuthStore) : Prop := {
  key_of_account :
    forall key, encryptionKey s = Some key ->
      exists u pw, user s = Some u /\ derive pw (User.id u) = Ok key;
  account_authenticated : is_Some (user s) -> isAuthenticated s = true;
  session_tokens :
    isAuthenticated s = true -> is_Some (accessToken s) /\ is_Some (refreshToken s)
}.

(** The segments of a static route. *)
Fixpoint split_path (path : list ascii) (segment : list ascii) : list string :=
  let close := match segment with
               | [] => []
               | _ => [string_of_list_ascii (rev segment)]
               end in
  match path with
  | [] => close
  | c :: rest =>
      if Ascii.eqb c "/" then close ++ split_path rest []
      else split_path rest (c :: segment)
  end.

(** What [useSegments] returns on the route [href]. *)
Definition segments_of (href : string) : list string :=
  split_path (list_ascii_of_string href) [].

(** A filled-in registration form. *)
Definition sample_form : RegisterForm.t :=
  {| RegisterForm.firstName := js "Ada";
     RegisterForm.lastName := js "Lovelace";
     RegisterForm.email := js "ada@example.com";
     RegisterForm.password := js "Sup3rSecret!";
     RegisterForm.confirmPassword := js "Sup3rSecret!" |}.

(** What [JSON.parse] rebuilds from the text of a value: an array element
    without text comes back as [null], a property without text is gone. *)
Fixpoint parsed (v : jsvalue) : JSON.value :=
  match v with
  | JsUndefined => JSON.Null
  | JsNull => JSON.Null
  | JsBoolean b => JSON.Bool b
  | JsString s => JSON.String s
  | JsArray items => JSON.Array (map parsed items)
  | JsObject properties =>
      JSON.Object
        (flat_map (fun property =>
                     match snd property with
                     | JsUndefined => []
                     | _ => [(fst property, parsed (snd property))]
                     end) properties)
  end.

(** A UTF-16 code unit. *)
Definition is_code_unit (c : Z) : bool := (0 <=? c) && (c <=? 0xFFFF).

(** Every string in the value, property names included, is a list of
    UTF-16 code units. *)
Fixpoint strings_ok (v : jsvalue) : bool :=
  match v with
  | JsString s => forallb is_code_unit s
  | JsArray items => forallb strings_ok items
  | JsObject properties =>
      forallb (fun property =>
                 forallb is_code_unit (fst property) && strings_ok (snd property))
              properties
  | _ => true
  end.

(** The text of a value where one is needed (an array element). *)
Definition text_of (v : jsvalue) : jsstring :=
  match Stringify.stringify v with
  | Some text => text
  | None => js "null"
  end.

(** The texts of the properties that are written. *)
Definition member_texts (properties : list (jsstring * jsvalue)) : list jsstring :=
  flat_map (fun property =>
              match Stringify.stringify (snd property) with
              | Some text => [Stringify.quote (fst property) ++ 58 :: text]
              | None => []
              end) properties.

(** The members [JSON.parse] rebuilds. *)
Definition parsed_members (properties : list (jsstring * jsvalue))
  : list (jsstring * JSON.value) :=
  flat_map (fun property =>
              match snd property with
              | JsUndefined => []
              | _ => [(fst property, parsed (snd property))]
              end) properties.

(** The first character of a text decides how it is read. *)
Definition opens_value (h : Z) : Prop :=
  h = 34 \/ h = 91 \/ h = 123 \/ h = 110 \/ h = 116 \/ h = 102.

(** A value is read back from its text, whatever follows. *)
Definition reads_back (v : jsvalue) : Prop :=
  forall fuel rest,
    (length (text_of v) < fuel)%nat -> strings_ok v = true ->
    JSON.parse_value fuel (text_of v ++ rest) = Some (parsed v, rest).

(** A text that can be put in front of any other without changing
    whether the whole is well-formed. *)
Definition transparent (text : jsstring) : Prop :=
  forall tail, Text.well_formed (text ++ tail) = Text.well_formed tail.

(** The data of a password entry whose optional fields were left empty,
    and one with a lone surrogate and a leading U+FEFF in its strings. *)
Definition sample_entry : jsvalue :=
  JsObject [(js "username", JsString (js "ada@example.com"));
            (js "password", JsString (0xFEFF :: 0xD800 :: js_quoted "p'w\d"));
            (js "url", JsUndefined);
            (js "notes", JsUndefined)].

(** A server that stores what it is sent: the item it returns for a
    creation request carries the identifier [newId] and the record of the
    request. *)
Definition stores_request (newId : jsstring)
  (post : CreateVaultItemRequest.t -> result VaultItem.t) : Prop :=
  forall request,
    exists item,
      post request = Ok item /\
      VaultItem.id item = newId /\
      VaultItem.encryptedData item =
        Some (CreateVaultItemRequest.encryptedData request).

(** A server of that kind, used in the examples. *)
Definition sample_server (request : CreateVaultItemRequest.t) : result VaultItem.t :=
  Ok {| VaultItem.id := js "item-1";
        VaultItem.vaultId := CreateVaultItemRequest.vaultId request;
        VaultItem.type := CreateVaultItemRequest.type request;
        VaultItem.name := CreateVaultItemRequest.name request;
        VaultItem.encryptedData :=
          Some (CreateVaultItemRequest.encryptedData request);
        VaultItem.favorite := CreateVaultItemRequest.favorite request;
        VaultItem.createdAt := js "2025-12-18T00:00:00Z";
        VaultItem.updatedAt := js "2025-12-18T00:00:00Z";
        VaultItem.lastAccessedAt := None |}.

(** The error in which [handleApiError] wraps what is not a failed request. *)
Definition UNEXPECTED : exn := Error "An unexpected error occurred".

(** The request that is sent again after a refresh that returned
    [newAccess]. *)
Definition retried (request : Request.t) (newAccess : jsstring) : Request.t :=
  {| Request.headers :=
       <["Authorization"%string := js "Bearer " ++ newAccess]>
         (Request.headers request);
     Request._retry := true |}.

(** The world after both tokens were replaced. *)
Definition with_tokens (access refresh : jsstring) (w : World) : World :=
  {| auth := auth w; screen := screen w;
     secure := <[ENV.REFRESH_TOKEN := refresh]>
                 (<[ENV.ACCESS_TOKEN := access]> (secure w));
     keychain := keychain w;
     writes := (ENV.REFRESH_TOKEN, refresh) :: (ENV.ACCESS_TOKEN, access)
               :: writes w |}.

(** A resent request that is refused again. *)
Definition refused {A} (error : exn) : Request.t -> M A := fun _ => throw error.

(** * Facts about the platform models *)

(** ** Facts about the base-64 model *)

Section ListInduction.
Context {A : Type} (P : list A -> Prop).
Hypothesis P0 : P [].
Hypothesis P1 : forall a, P [a].
Hypothesis P2 : forall a b, P [a; b].
Hypothesis P3 : forall a b c l, P l -> P (a :: b :: c :: l).

Lemma list_ind_by3 : forall l, P l.
Proof using P0 P1 P2 P3.
  assert (H : forall l, P l /\ (forall a, P (a :: l)) /\ (forall a b, P (a :: b :: l))).
  { induction l as [|x l (IH0 & IH1 & IH2)]; repeat split; auto. }
  intro l. apply H.
Qed.
End ListInduction.

Lemma land_63 a : Z.land a 63 = a mod 64.
Proof. apply (Z.land_ones a 6). lia. Qed.

Lemma land_255 a : Z.land a 255 = a mod 256.
Proof. apply (Z.land_ones a 8). lia. Qed.

Lemma land_255_l a : Z.land 255 a = a mod 256.
Proof. rewrite Z.land_comm. apply land_255. Qed.

Ltac bits_to_arith :=
  rewrite ?land_63, ?land_255, ?land_255_l;
  repeat first
    [ rewrite Z.shiftl_mul_pow2 by lia
    | rewrite Z.shiftr_div_pow2 by lia ];
  change (2 ^ 2) with 4; change (2 ^ 4) with 16; change (2 ^ 6) with 64;
  change (2 ^ 8) with 256; change (2 ^ 10) with 1024; change (2 ^ 12) with 4096;
  change (2 ^ 16) with 65536; change (2 ^ 18) with 262144.

Module Base64Facts.
Import Base64 Base64Spec.

Lemma chr_ok_all : forallb chr_ok (map Z.of_nat (seq 0 64)) = true.
Proof. vm_compute. reflexivity. Qed.

Lemma chr_ok_range i : 0 <= i < 64 -> chr_ok i = true.
Proof.
  intros Hi. pose proof chr_ok_all as H.
  rewrite forallb_forall in H. apply H.
  apply in_map_iff. exists (Z.to_nat i). split; [lia|].
  apply in_seq. lia.
Qed.

Lemma chr_spec i :
  0 <= i < 64 ->
  charAt i = [chr i] /\ indexOf (chr i) = i /\ chr i <> pad /\
  is_space (chr i) = false /\ 0 <= chr i <= 255.
Proof.
  intros Hi. pose proof (chr_ok_range i Hi) as H. unfold chr_ok in H.
  destruct (charAt i) as [|c [|]]; try discriminate.
  rewrite !andb_true_iff, !negb_true_iff in H.
  destruct H as (((((Hc & Hidx) & Hpad) & Hsp) & Hlo) & Hhi).
  apply Z.eqb_eq in Hc. subst c.
  apply Z.eqb_eq in Hidx. apply Z.eqb_neq in Hpad.
  repeat split; auto; lia.
Qed.

Lemma charAt_chr i : 0 <= i < 64 -> charAt i = [chr i].
Proof. intros. apply chr_spec; assumption. Qed.

Lemma indexOf_chr i : 0 <= i < 64 -> indexOf (chr i) = i.
Proof. intros. apply chr_spec; assumption. Qed.

(** The six-bit digits of a group, in arithmetic form. *)
Lemma encode_groups_3 a b c rest :
  octet a -> octet b -> octet c ->
  encode_groups (a :: b :: c :: rest) =
  chr (a / 4) :: chr (a mod 4 * 16 + b / 16) ::
  chr (b mod 16 * 4 + c / 64) :: chr (c mod 64) :: encode_groups rest.
Proof.
  unfold octet. intros Ha Hb Hc. cbn [encode_groups].
  bits_to_arith.
  replace (((a * 65536 + b * 256 + c) / 262144) mod 64) with (a / 4)
    by (Z.div_mod_to_equations; lia).
  replace (((a * 65536 + b * 256 + c) / 4096) mod 64) with (a mod 4 * 16 + b / 16)
    by (Z.div_mod_to_equations; lia).
  replace (((a * 65536 + b * 256 + c) / 64) mod 64) with (b mod 16 * 4 + c / 64)
    by (Z.div_mod_to_equations; lia).
  replace ((a * 65536 + b * 256 + c) mod 64) with (c mod 64)
    by (Z.div_mod_to_equations; lia).
  rewrite !charAt_chr by (Z.div_mod_to_equations; lia).
  reflexivity.
Qed.

Lemma encode_groups_2 a b :
  octet a -> octet b ->
  encode_groups [a; b] =
  [chr (a / 4); chr (a mod 4 * 16 + b / 16); chr (b mod 16 * 4); pad].
Proof.
  unfold octet. intros Ha Hb. cbn [encode_groups].
  bits_to_arith.
  replace ((a * 256 + b) / 1024) with (a / 4) by (Z.div_mod_to_equations; lia).
  replace (((a * 256 + b) / 16) mod 64) with (a mod 4 * 16 + b / 16)
    by (Z.div_mod_to_equations; lia).
  replace (((a * 256 + b) * 4) mod 64) with (b mod 16 * 4)
    by (Z.div_mod_to_equations; lia).
  rewrite !charAt_chr by (Z.div_mod_to_equations; lia).
  reflexivity.
Qed.

Lemma encode_groups_1 a :
  octet a ->
  encode_groups [a] = [chr (a / 4); chr (a mod 4 * 16); pad; pad].
Proof.
  unfold octet. intros Ha. cbn [encode_groups].
  bits_to_arith.
  replace ((a * 16) mod 64) with (a mod 4 * 16) by (Z.div_mod_to_equations; lia).
  rewrite !charAt_chr by (Z.div_mod_to_equations; lia).
  reflexivity.
Qed.

Lemma strip_padding_cons x r :
  x <> pad -> strip_padding (x :: r) = x :: strip_padding r.
Proof.
  intros Hx. cbn [strip_padding].
  apply Z.eqb_neq in Hx. rewrite Hx. reflexivity.
Qed.

Lemma filter_all {A} (f : A -> bool) l :
  forallb f l = true -> List.filter f l = l.
Proof.
  induction l as [|x l IH]; cbn; [reflexivity|].
  intros H. apply andb_prop in H as [Hx Hl].
  rewrite Hx, IH by assumption. reflexivity.
Qed.

Ltac octets_inv :=
  repeat match goal with
         | H : octets (_ :: _) |- _ => apply Forall_cons in H; destruct H
         | H : Forall octet (_ :: _) |- _ => apply Forall_cons in H; destruct H
         end.

Ltac sextet := unfold octet in *; Z.div_mod_to_equations; lia.

Ltac encode_step :=
  first [ rewrite encode_groups_3 by assumption
        | rewrite encode_groups_2 by assumption
        | rewrite encode_groups_1 by assumption ].

Lemma chr_not_space i : 0 <= i < 64 -> is_space (chr i) = false.
Proof. intros. apply chr_spec; assumption. Qed.

Lemma encode_groups_no_space l :
  octets l -> forallb (fun c => negb (is_space c)) (encode_groups l) = true.
Proof.
  induction l as [| a | a b | a b c l IH] using list_ind_by3;
    intros Hl; octets_inv; [reflexivity | encode_step ..];
    cbn [forallb];
    rewrite !chr_not_space by sextet;
    rewrite ?IH by assumption; reflexivity.
Qed.

Lemma encode_groups_length l :
  octets l -> exists k, length (encode_groups l) = (4 * k)%nat.
Proof.
  induction l as [| a | a b | a b c l IH] using list_ind_by3;
    intros Hl; octets_inv.
  - exists 0%nat. reflexivity.
  - encode_step. exists 1%nat. reflexivity.
  - encode_step. exists 1%nat. reflexivity.
  - encode_step. destruct IH as [k Hk]; [assumption|].
    exists (S k). cbn [length]. lia.
Qed.

Lemma chr_not_pad i : 0 <= i < 64 -> chr i <> pad.
Proof. intros. apply chr_spec; assumption. Qed.

Lemma strip_padding_encode l :
  octets l -> strip_padding (encode_groups l) = digits l.
Proof.
  induction l as [| a | a b | a b c l IH] using list_ind_by3;
    intros Hl; octets_inv; [reflexivity | encode_step ..];
    rewrite !strip_padding_cons by (apply chr_not_pad; sextet);
    cbn [digits]; rewrite ?IH by assumption; reflexivity.
Qed.

Lemma digits_length l :
  exists k, (length (digits l) = 4 * k \/ length (digits l) = 4 * k + 2
             \/ length (digits l) = 4 * k + 3)%nat.
Proof.
  induction l as [| a | a b | a b c l IH] using list_ind_by3.
  - exists 0%nat. auto.
  - exists 0%nat. auto.
  - exists 0%nat. auto.
  - destruct IH as [k Hk]. exists (S k). cbn [digits length]. lia.
Qed.

Lemma digits_alphabet l :
  octets l -> forallb (fun c => 0 <=? indexOf c) (digits l) = true.
Proof.
  induction l as [| a | a b | a b c l IH] using list_ind_by3;
    intros Hl; octets_inv; cbn [digits forallb];
    rewrite ?indexOf_chr by sextet;
    rewrite ?IH by assumption;
    repeat (apply andb_true_intro; split); try reflexivity;
    apply Z.leb_le; sextet.
Qed.

Lemma decode_groups_digits l :
  octets l -> decode_groups (digits l) = l.
Proof.
  induction l as [| a | a b | a b c l IH] using list_ind_by3;
    intros Hl; octets_inv; cbn [digits decode_groups];
    rewrite ?indexOf_chr by sextet; bits_to_arith;
    rewrite ?IH by assumption;
    repeat f_equal; sextet.
Qed.

Theorem decode_encode_groups l :
  octets l -> decode (encode_groups l) = Ok l.
Proof.
  intros Hl. unfold decode.
  rewrite filter_all by (apply encode_groups_no_space; assumption).
  destruct (encode_groups_length l Hl) as [k Hk].
  replace (Z.of_nat (length (encode_groups l)) mod 4 =? 0) with true
    by (symmetry; apply Z.eqb_eq; rewrite Hk; Z.div_mod_to_equations; lia).
  rewrite strip_padding_encode by assumption.
  rewrite digits_alphabet by assumption.
  destruct (digits_length l) as [j Hj].
  replace (Z.of_nat (length (digits l)) mod 4 =? 1) with false
    by (symmetry; apply Z.eqb_neq; Z.div_mod_to_equations; lia).
  cbn [orb negb]. rewrite decode_groups_digits by assumption. reflexivity.
Qed.

Lemma encode_groups_nonempty l :
  octets l -> truthy (encode_groups l) = truthy l.
Proof.
  destruct l as [|a [|b [|c l]]]; intros Hl; octets_inv;
    [reflexivity | encode_step ..]; reflexivity.
Qed.

End Base64Facts.

Lemma map_mod_octets m bs :
  256 <= m -> octets bs -> map (fun b => b mod m) bs = bs.
Proof.
  intros Hm. induction 1 as [|b bs Hb _ IH]; cbn; [reflexivity|].
  rewrite IH. f_equal. unfold octet in Hb. apply Z.mod_small. lia.
Qed.

Lemma bytesToBase64_ok bs :
  octets bs -> bytesToBase64 bs = Ok (Base64.encode_groups bs).
Proof.
  intros Hbs. unfold bytesToBase64, Base64.encode.
  rewrite map_mod_octets by (assumption || lia).
  replace (forallb (fun c => c <=? 255) bs) with true; [reflexivity|].
  symmetry. apply forallb_forall. intros b Hb.
  unfold octets in Hbs. rewrite List.Forall_forall in Hbs.
  apply Hbs in Hb. unfold octet in Hb. apply Z.leb_le. lia.
Qed.

Lemma base64ToBytes_encode bs :
  octets bs -> base64ToBytes (Base64.encode_groups bs) = Ok bs.
Proof.
  intros Hbs. unfold base64ToBytes.
  rewrite Base64Facts.decode_encode_groups by assumption. cbn.
  rewrite map_mod_octets by (assumption || lia). reflexivity.
Qed.

Lemma encode_groups_inj bs1 bs2 :
  octets bs1 -> octets bs2 ->
  Base64.encode_groups bs1 = Base64.encode_groups bs2 -> bs1 = bs2.
Proof.
  intros H1 H2 E.
  pose proof (base64ToBytes_encode bs1 H1) as R1.
  rewrite E, (base64ToBytes_encode bs2 H2) in R1. congruence.
Qed.

(** ** Facts about the UTF-8 model *)

Lemma land_shiftl_low x y n :
  0 <= n -> 0 <= y < 2 ^ n -> Z.land (Z.shiftl x n) y = 0.
Proof.
  intros Hn Hy. apply Z.bits_inj'. intros m Hm.
  rewrite Z.land_spec, Z.bits_0.
  destruct (Z.lt_ge_cases m n) as [Hlt | Hge].
  - rewrite Z.shiftl_spec_low by assumption. reflexivity.
  - assert (Hbit : Z.testbit y m = false).
    { destruct (Z.eq_dec y 0) as [-> | Hy0]; [apply Z.bits_0|].
      apply Z.bits_above_log2; [lia|].
      apply Z.lt_le_trans with n; [|assumption].
      apply Z.log2_lt_pow2; lia. }
    rewrite Hbit. apply andb_false_r.
Qed.

Lemma lor_shiftl_low x y n :
  0 <= n -> 0 <= y < 2 ^ n -> Z.lor (Z.shiftl x n) y = x * 2 ^ n + y.
Proof.
  intros Hn Hy.
  pose proof (land_shiftl_low x y n Hn Hy) as Hland.
  rewrite <- Z.shiftl_mul_pow2 by assumption.
  rewrite <- Z.lxor_lor by assumption.
  symmetry. apply Z.add_nocarry_lxor. assumption.
Qed.

Module TextFacts.
Import Text TextSpec.

Lemma continuation_arith x : continuation x = 128 + x mod 64.
Proof.
  unfold continuation. rewrite land_63.
  change 128 with (Z.shiftl 2 6) at 1.
  rewrite lor_shiftl_low; [reflexivity | lia |].
  change (2 ^ 6) with 64. Z.div_mod_to_equations; lia.
Qed.

Lemma append_bits c b :
  Z.lor (Z.shiftl c 6) (Z.land b 63) = c * 64 + b mod 64.
Proof.
  rewrite land_63, lor_shiftl_low; [reflexivity | lia |].
  change (2 ^ 6) with 64. Z.div_mod_to_equations; lia.
Qed.

Ltac decide_tests :=
  repeat match goal with
         | |- context [Z.leb ?a ?b] => destruct (Z.leb_spec a b); try lia
         | |- context [Z.ltb ?a ?b] => destruct (Z.ltb_spec a b); try lia
         end;
  cbn [andb orb negb].

Lemma lead_1 b : 0 <= b <= 0x7F -> lead b = ([b], initial).
Proof. intros Hb. unfold lead. decide_tests. reflexivity. Qed.

Lemma lead_2 b :
  0xC2 <= b <= 0xDF ->
  lead b = ([], {| code_point := b mod 32; bytes_seen := 0; bytes_needed := 1;
                   lower := 0x80; upper := 0xBF |}).
Proof.
  intros Hb. unfold lead. decide_tests.
  change 31 with (Z.ones 5). rewrite (Z.land_ones b 5) by lia. reflexivity.
Qed.

Lemma lead_3 b :
  0xE0 <= b <= 0xEF ->
  lead b = ([], {| code_point := b mod 16; bytes_seen := 0; bytes_needed := 2;
                   lower := if b =? 0xE0 then 0xA0 else 0x80;
                   upper := if b =? 0xED then 0x9F else 0xBF |}).
Proof.
  intros Hb. unfold lead. decide_tests.
  change 15 with (Z.ones 4). rewrite (Z.land_ones b 4) by lia. reflexivity.
Qed.

Lemma lead_4 b :
  0xF0 <= b <= 0xF4 ->
  lead b = ([], {| code_point := b mod 8; bytes_seen := 0; bytes_needed := 3;
                   lower := if b =? 0xF0 then 0x90 else 0x80;
                   upper := if b =? 0xF4 then 0x8F else 0xBF |}).
Proof.
  intros Hb. unfold lead. decide_tests.
  change 7 with (Z.ones 3). rewrite (Z.land_ones b 3) by lia. reflexivity.
Qed.

Lemma step_continue d b :
  bytes_needed d <> 0 -> lower d <= b <= upper d ->
  step d b =
  if bytes_seen d + 1 =? bytes_needed d
  then ([code_point d * 64 + b mod 64], initial)
  else ([], {| code_point := code_point d * 64 + b mod 64;
               bytes_seen := bytes_seen d + 1;
               bytes_needed := bytes_needed d;
               lower := 0x80; upper := 0xBF |}).
Proof.
  intros Hn Hb. unfold step.
  apply Z.eqb_neq in Hn. rewrite Hn.
  decide_tests. rewrite append_bits. reflexivity.
Qed.

Lemma step_initial b : step initial b = lead b.
Proof. reflexivity. Qed.

Lemma encode_scalar_arith cp :
  0 <= cp ->
  encode_scalar cp =
  if cp <=? 0x7F then [cp]
  else if cp <=? 0x7FF then [cp / 64 + 192; 128 + cp mod 64]
  else if cp <=? 0xFFFF then
    [cp / 4096 + 224; 128 + (cp / 64) mod 64; 128 + cp mod 64]
  else
    [cp / 262144 + 240; 128 + (cp / 4096) mod 64;
     128 + (cp / 64) mod 64; 128 + cp mod 64].
Proof.
  intros Hcp. unfold encode_scalar.
  rewrite !continuation_arith. bits_to_arith. reflexivity.
Qed.

Ltac fields := cbn [code_point bytes_seen bytes_needed lower upper].

Ltac in_range :=
  fields;
  repeat match goal with
         | |- context [Z.eqb ?a ?b] => destruct (Z.eqb_spec a b)
         end;
  Z.div_mod_to_equations; lia.

Ltac continue_step :=
  rewrite step_continue by in_range; fields;
  lazymatch goal with
  | |- context [Z.eqb ?a ?b] =>
      let v := eval compute in (Z.eqb a b) in change (Z.eqb a b) with v
  end;
  cbv beta iota.

(** Decoding the encoding of one scalar value yields that value and
    leaves the decoder with no sequence open. *)
Lemma run_encode_scalar cp rest :
  scalar cp -> run initial (encode_scalar cp ++ rest) = cp :: run initial rest.
Proof.
  intros [Hr Hs]. rewrite encode_scalar_arith by lia.
  destruct (Z.leb_spec cp 0x7F); [|destruct (Z.leb_spec cp 0x7FF);
                                   [|destruct (Z.leb_spec cp 0xFFFF)]];
    cbn [app run]; rewrite step_initial.
  - rewrite lead_1 by lia. reflexivity.
  - rewrite lead_2 by in_range. continue_step.
    cbn [app]. f_equal. Z.div_mod_to_equations; lia.
  - rewrite lead_3 by in_range. continue_step. continue_step.
    cbn [app]. f_equal. Z.div_mod_to_equations; lia.
  - rewrite lead_4 by in_range. continue_step. continue_step. continue_step.
    cbn [app]. f_equal. Z.div_mod_to_equations; lia.
Qed.

Lemma run_encode_scalars cps :
  Forall scalar cps -> run initial (flat_map encode_scalar cps) = cps.
Proof.
  induction 1 as [|cp cps Hcp _ IH]; [reflexivity|].
  cbn [flat_map]. rewrite run_encode_scalar, IH by assumption. reflexivity.
Qed.

Lemma encode_scalar_octets cp : scalar cp -> octets (encode_scalar cp).
Proof.
  intros [Hr Hs]. rewrite encode_scalar_arith by lia. unfold octets, octet.
  destruct (Z.leb_spec cp 0x7F); [|destruct (Z.leb_spec cp 0x7FF);
                                   [|destruct (Z.leb_spec cp 0xFFFF)]];
    repeat constructor; Z.div_mod_to_equations; lia.
Qed.

Lemma encode_scalar_nonempty cp : encode_scalar cp <> [].
Proof.
  unfold encode_scalar.
  repeat match goal with
         | |- context [Z.leb ?a ?b] => destruct (Z.leb a b)
         end; discriminate.
Qed.

Lemma length_induction {A} (P : list A -> Prop) :
  (forall l, (forall l', (length l' < length l)%nat -> P l') -> P l) ->
  forall l, P l.
Proof.
  intros Hstep l.
  assert (H : forall n l, (length l < n)%nat -> P l).
  { induction n as [|n IH]; intros l' Hl'; [lia|].
    apply Hstep. intros l'' Hl''. apply IH. lia. }
  apply (H (S (length l))). lia.
Qed.

Ltac split_surrogate_tests :=
  unfold is_high, is_low in *;
  repeat match goal with
         | H : context [Z.leb ?a ?b] |- _ => destruct (Z.leb_spec a b)
         | |- context [Z.leb ?a ?b] => destruct (Z.leb_spec a b)
         | |- context [Z.ltb ?a ?b] => destruct (Z.ltb_spec a b)
         end;
  cbn [andb negb] in *; try discriminate; try lia.

Lemma pair_scalar c d :
  is_high c = true -> is_low d = true ->
  scalar (0x10000 + Z.shiftl (c - 0xD800) 10 + (d - 0xDC00)).
Proof.
  intros Hc Hd. rewrite Z.shiftl_mul_pow2 by lia. change (2 ^ 10) with 1024.
  unfold scalar. split_surrogate_tests.
Qed.

Lemma from_scalar_pair c d :
  is_high c = true -> is_low d = true ->
  from_scalar (0x10000 + Z.shiftl (c - 0xD800) 10 + (d - 0xDC00)) = [c; d].
Proof.
  intros Hc Hd. unfold from_scalar.
  rewrite Z.shiftl_mul_pow2 by lia. change (2 ^ 10) with 1024.
  change 1023 with (Z.ones 10). rewrite Z.land_ones by lia.
  rewrite Z.shiftr_div_pow2 by lia. change (2 ^ 10) with 1024.
  split_surrogate_tests.
  f_equal; [|f_equal]; Z.div_mod_to_equations; lia.
Qed.

Lemma from_scalar_unit c :
  0 <= c <= 0xFFFF -> from_scalar c = [c].
Proof.
  intros Hc. unfold from_scalar.
  destruct (Z.ltb_spec c 0x10000); [reflexivity | lia].
Qed.

Lemma unit_scalar c :
  is_high c = false -> is_low c = false -> 0 <= c <= 0xFFFF -> scalar c.
Proof. intros Hh Hl Hc. unfold scalar. split_surrogate_tests. Qed.

(** Case analysis on the head of a well-formed string. *)
Lemma well_formed_inv s :
  well_formed s = true ->
  s = [] \/
  (exists c d rest, s = c :: d :: rest /\ is_high c = true /\ is_low d = true
                    /\ well_formed rest = true) \/
  (exists c rest, s = c :: rest /\ is_high c = false /\ is_low c = false
                  /\ 0 <= c <= 0xFFFF /\ well_formed rest = true).
Proof.
  destruct s as [|c rest]; [auto|]. cbn [well_formed].
  destruct (is_high c) eqn:Hh.
  - destruct rest as [|d rest]; [discriminate|].
    intros H. apply andb_prop in H as [Hd Hr].
    right. left. exists c, d, rest. auto.
  - intros H. rewrite !andb_true_iff, negb_true_iff in H.
    destruct H as (((Hl & H0) & H1) & Hr).
    right. right. exists c, rest. repeat split; auto; lia.
Qed.

Lemma to_scalars_pair c d rest :
  is_high c = true -> is_low d = true ->
  to_scalars (c :: d :: rest) =
  (0x10000 + Z.shiftl (c - 0xD800) 10 + (d - 0xDC00)) :: to_scalars rest.
Proof. intros Hc Hd. cbn [to_scalars]. rewrite Hc, Hd. reflexivity. Qed.

Lemma to_scalars_unit c rest :
  is_high c = false -> is_low c = false ->
  to_scalars (c :: rest) = c :: to_scalars rest.
Proof. intros Hc Hd. cbn [to_scalars]. rewrite Hc, Hd. reflexivity. Qed.

Lemma to_scalars_well_formed s :
  well_formed s = true ->
  Forall scalar (to_scalars s) /\ flat_map from_scalar (to_scalars s) = s.
Proof.
  induction s as [s IH] using length_induction. intros Hwf.
  destruct (well_formed_inv s Hwf)
    as [-> | [(c & d & rest & -> & Hc & Hd & Hr) | (c & rest & -> & Hh & Hl & Hc & Hr)]].
  - split; [constructor | reflexivity].
  - destruct (IH rest) as [IH1 IH2]; [cbn; lia | assumption |].
    rewrite to_scalars_pair by assumption. split.
    + constructor; [apply pair_scalar; assumption | assumption].
    + cbn [flat_map]. rewrite from_scalar_pair, IH2 by assumption. reflexivity.
  - destruct (IH rest) as [IH1 IH2]; [cbn; lia | assumption |].
    rewrite to_scalars_unit by assumption. split.
    + constructor; [apply unit_scalar; assumption | assumption].
    + cbn [flat_map]. rewrite from_scalar_unit, IH2 by assumption. reflexivity.
Qed.

Lemma strip_bom_to_scalars s :
  well_formed s = true -> starts_with_bom s = false ->
  strip_bom (to_scalars s) = to_scalars s.
Proof.
  intros Hwf Hbom.
  destruct (well_formed_inv s Hwf)
    as [-> | [(c & d & rest & -> & Hc & Hd & Hr) | (c & rest & -> & Hh & Hl & Hc & Hr)]].
  - reflexivity.
  - rewrite to_scalars_pair by assumption. cbn [strip_bom].
    destruct (Z.eqb_spec (0x10000 + Z.shiftl (c - 0xD800) 10 + (d - 0xDC00)) BOM)
      as [E|]; [|reflexivity].
    exfalso. rewrite Z.shiftl_mul_pow2 in E by lia. change (2 ^ 10) with 1024 in E.
    unfold BOM in E. split_surrogate_tests.
  - rewrite to_scalars_unit by assumption. cbn [strip_bom].
    cbn [starts_with_bom] in Hbom. rewrite Hbom. reflexivity.
Qed.

(** Round trip of the text codec. *)
Theorem decode_encode s :
  well_formed s = true -> starts_with_bom s = false -> decode (encode s) = s.
Proof.
  intros Hwf Hbom. unfold decode, encode.
  destruct (to_scalars_well_formed s Hwf) as [Hsc Hback].
  rewrite run_encode_scalars by assumption.
  rewrite strip_bom_to_scalars by assumption. exact Hback.
Qed.

Lemma encode_octets s : well_formed s = true -> octets (encode s).
Proof.
  intros Hwf. destruct (to_scalars_well_formed s Hwf) as [Hsc _].
  unfold encode. induction Hsc as [|cp cps Hcp _ IH]; [constructor|].
  cbn [flat_map]. apply Forall_app. split; [apply encode_scalar_octets|]; assumption.
Qed.

Lemma to_scalars_nonempty s : s <> [] -> to_scalars s <> [].
Proof.
  destruct s as [|c rest]; [congruence|]. intros _. cbn [to_scalars].
  destruct (is_high c); [destruct rest as [|d rest]; [|destruct (is_low d)]
                        | destruct (is_low c)]; discriminate.
Qed.

Lemma encode_nonempty s : s <> [] -> encode s <> [].
Proof.
  intros Hs. unfold encode.
  pose proof (to_scalars_nonempty s Hs) as Hne.
  destruct (to_scalars s) as [|cp cps]; [congruence|].
  cbn [flat_map]. pose proof (encode_scalar_nonempty cp) as Hcp.
  destruct (encode_scalar cp); [congruence | discriminate].
Qed.

End TextFacts.

Example sha256_abc :
  hex (SHA256.digest (js "abc")) =
  "ba7816bf8f01cfea414140de5dae2223b00361a396177a9cb410ff61f20015ad"%string.
Proof. vm_compute. reflexivity. Qed.

Example sha256_empty :
  hex (SHA256.digest []) =
  "e3b0c44298fc1c149afbf4c8996fb92427ae41e4649b934ca495991b7852b855"%string.
Proof. vm_compute. reflexivity. Qed.

Example hmac_sha256_fox :
  hex (SHA256.hmac (js "key") (js "The quick brown fox jumps over the lazy dog")) =
  "f7bc83f430538424b13298e6aa6fb143ef4d59a14946175997479dbc2d1a3cd8"%string.
Proof. vm_compute. reflexivity. Qed.

Example pbkdf2_sha256_two_iterations :
  hex (SHA256.pbkdf2 (js "password") (js "salt") 2 32) =
  "ae4d0c95af6b46d32d0adff928f06dd02a303f8ef3c251dfd6e2d85a95474c43"%string.
Proof. vm_compute. reflexivity. Qed.

Example pbkdf2_sha256_two_blocks :
  hex (SHA256.pbkdf2 (js "password") (js "salt") 3 40) =
  "ad35240ac683febfaf3cd49d845473fbbbaa2437f5f82d5a415ae00ac76c6bfccf9a9b8d6d2fe4a1"%string.
Proof. vm_compute. reflexivity. Qed.

Example aes256_fips197 :
  hex (AES.cipher
         (AES.key_expansion
            (unhex "000102030405060708090a0b0c0d0e0f101112131415161718191a1b1c1d1e1f"))
         (unhex "00112233445566778899aabbccddeeff")) =
  "8ea2b7ca516745bfeafc49904b496089"%string.
Proof. vm_compute. reflexivity. Qed.

Example aes128_fips197 :
  hex (AES.cipher (AES.key_expansion (unhex "000102030405060708090a0b0c0d0e0f"))
                  (unhex "00112233445566778899aabbccddeeff")) =
  "69c4e0d86a7b0430d8cdb78070b4c55a"%string.
Proof. vm_compute. reflexivity. Qed.

Example gcm_aes256_zero_block :
  hex (GCM.seal (GCM.block_cipher (repeat 0 32)) (repeat 0 12) (repeat 0 16)) =
  "cea7403d4d606b6e074ec5d3baf39d18d0d1c8a799996bf0265b98b5d48ab919"%string.
Proof. vm_compute. reflexivity. Qed.

Example gcm_aes256_four_blocks :
  hex (GCM.seal
         (GCM.block_cipher
            (unhex "feffe9928665731c6d6a8f9467308308feffe9928665731c6d6a8f9467308308"))
         (unhex "cafebabefacedbaddecaf888")
         (unhex ("d9313225f88406e5a55909c5aff5269a86a7a9531534f7da2e4c303d8a318a72"
                 ++ "1c3c0c95956809532fcf0e2449a6b525b16aedf5aa0de657ba637b391aafd255"))) =
  ("522dc1f099567d07f47f37a32a84427d643a8cdcbfe5c0c97598a2bd2555d1aa"
   ++ "8cb08e48590dbb3da7b08b1056828838c5f61e6393ba7a0abcc9f662898015ad"
   ++ "b094dac5d93471bdec1a502270e3cc6c")%string.
Proof. vm_compute. reflexivity. Qed.

Example gcm_rejects_flipped_tag :
  GCM.open (GCM.block_cipher (repeat 0 32)) (repeat 0 12)
    (unhex "cea7403d4d606b6e074ec5d3baf39d18d0d1c8a799996bf0265b98b5d48ab918") = None.
Proof. vm_compute. reflexivity. Qed.

(** ** Facts about the byte helpers and GCM *)

Lemma lxor_octet a b : octet a -> octet b -> octet (Z.lxor a b).
Proof.
  unfold octet. intros Ha Hb. split; [apply Z.lxor_nonneg; lia|].
  destruct (Z.eq_dec (Z.lxor a b) 0) as [E | Hne]; [lia|].
  assert (Hpos : 0 < Z.lxor a b) by (pose proof (proj2 (Z.lxor_nonneg a b)); lia).
  apply (Z.log2_lt_pow2 _ 8); [assumption|].
  pose proof (Z.log2_lxor a b) as Hl.
  assert (Ha8 : Z.log2 a < 8).
  { destruct (Z.eq_dec a 0) as [-> | ?]; [cbn; lia | apply Z.log2_lt_pow2; lia]. }
  assert (Hb8 : Z.log2 b < 8).
  { destruct (Z.eq_dec b 0) as [-> | ?]; [cbn; lia | apply Z.log2_lt_pow2; lia]. }
  lia.
Qed.

Lemma be_bytes_length n x : length (be_bytes n x) = n.
Proof. induction n as [|n IH]; cbn [be_bytes length]; [reflexivity | now rewrite IH]. Qed.

Lemma be_bytes_octets n x : octets (be_bytes n x).
Proof.
  induction n as [|n IH]; cbn [be_bytes]; constructor; [|exact IH].
  unfold octet. rewrite land_255. Z.div_mod_to_equations; lia.
Qed.

Lemma xor_bytes_length p ks :
  (length p <= length ks)%nat -> length (xor_bytes p ks) = length p.
Proof.
  intros H. unfold xor_bytes. rewrite length_map, length_combine. lia.
Qed.

Lemma xor_bytes_involutive p ks :
  (length p <= length ks)%nat -> xor_bytes (xor_bytes p ks) ks = p.
Proof.
  unfold xor_bytes. revert ks.
  induction p as [|a p IH]; intros [|k ks] H; cbn in *; try reflexivity; try lia.
  rewrite IH by lia. f_equal.
  rewrite Z.lxor_assoc, Z.lxor_nilpotent, Z.lxor_0_r. reflexivity.
Qed.

Lemma xor_bytes_octets p ks : octets p -> octets ks -> octets (xor_bytes p ks).
Proof.
  unfold xor_bytes, octets. intros Hp. revert ks.
  induction Hp as [|a p Ha _ IH]; intros ks Hks; [constructor|].
  destruct Hks as [|k ks Hk Hks]; cbn; constructor;
    [apply lxor_octet; assumption | apply IH; assumption].
Qed.

Module GCMFacts.
Import GCM GCMSpec.

Section WithKey.
Variable E : Z -> Z.

Lemma flat_blocks_length (f : nat -> Z) l :
  length (flat_map (fun i => be_bytes 16 (f i)) l) = (16 * length l)%nat.
Proof.
  induction l as [|i l IH]; [reflexivity|].
  cbn [flat_map length]. rewrite length_app, be_bytes_length, IH. lia.
Qed.

Lemma keystream_length j0 len :
  length (keystream E j0 len) = (16 * ((len + 15) / 16))%nat.
Proof.
  unfold keystream.
  rewrite (flat_blocks_length (fun i => E (counter j0 (Z.of_nat i)))).
  rewrite length_seq. reflexivity.
Qed.

Lemma keystream_covers j0 len : (len <= length (keystream E j0 len))%nat.
Proof.
  rewrite keystream_length.
  pose proof (Nat.div_mod_eq (len + 15) 16) as Hd.
  pose proof (Nat.mod_upper_bound (len + 15) 16). lia.
Qed.

Lemma keystream_octets j0 len : octets (keystream E j0 len).
Proof.
  unfold keystream. generalize (seq 1 ((len + 15) / 16)).
  induction l as [|i l IH]; [constructor|].
  cbn [flat_map]. apply Forall_app. split; [apply be_bytes_octets | exact IH].
Qed.

Lemma tag_length j0 c : length (tag E j0 c) = 16%nat.
Proof. apply be_bytes_length. Qed.

Lemma tag_octets j0 c : octets (tag E j0 c).
Proof. apply be_bytes_octets. Qed.

Lemma seal_split iv p :
  seal E iv p = sealed_text E iv p ++ tag E (J0 E iv) (sealed_text E iv p).
Proof. reflexivity. Qed.

Lemma sealed_text_length iv p : length (sealed_text E iv p) = length p.
Proof. apply xor_bytes_length, keystream_covers. Qed.

Lemma sealed_text_octets iv p : octets p -> octets (sealed_text E iv p).
Proof. intros Hp. apply xor_bytes_octets; [assumption | apply keystream_octets]. Qed.

Lemma same_bytes l : forallb (fun p => fst p =? snd p) (combine l l) = true.
Proof.
  induction l as [|a l IH]; [reflexivity|].
  cbn. rewrite Z.eqb_refl, IH. reflexivity.
Qed.

(** Authenticated decryption inverts authenticated encryption. *)
Theorem open_seal iv p : open E iv (seal E iv p) = Some p.
Proof.
  rewrite seal_split. unfold open.
  set (c := sealed_text E iv p). set (t := tag E (J0 E iv) c).
  assert (Hc : length c = length p) by apply sealed_text_length.
  assert (Ht : length t = 16%nat) by apply tag_length.
  rewrite length_app, Ht.
  replace (length c + 16 <? 16)%nat with false
    by (symmetry; apply Nat.ltb_ge; lia).
  replace (length c + 16 - 16)%nat with (length c) by lia.
  rewrite firstn_app, Nat.sub_diag, firstn_all, firstn_O, app_nil_r.
  rewrite skipn_app, Nat.sub_diag, skipn_all, skipn_O. cbn [app].
  fold t. rewrite same_bytes.
  unfold c at 1, sealed_text. rewrite Hc.
  rewrite xor_bytes_involutive by apply keystream_covers. reflexivity.
Qed.
End WithKey.

End GCMFacts.

Example json_parse_record :
  JSON.parse (js_quoted "{'username': 'a@b.com', 'n': [1, -2.5e3, true, null]}") =
  Ok (JSON.Object [(js "username", JSON.String (js "a@b.com"));
                   (js "n", JSON.Array [JSON.Number (js "1"); JSON.Number (js "-2.5e3");
                                        JSON.Bool true; JSON.Null])]).
Proof. vm_compute. reflexivity. Qed.

Example json_parse_rejects_text : JSON.parse (js "hello") = Throw SyntaxError.
Proof. vm_compute. reflexivity. Qed.

Example json_parse_rejects_trailing : JSON.parse (js "{} x") = Throw SyntaxError.
Proof. vm_compute. reflexivity. Qed.

(** ** Facts about the cipher functions *)

Lemma slice_front c t :
  length t = 16%nat -> slice (c ++ t) 0 (Some (-16)) = c.
Proof.
  intros Ht. unfold slice. rewrite length_app, Ht.
  change (0 <? 0) with false. change (-16 <? 0) with true. cbv beta iota.
  rewrite Z.min_l by lia. rewrite Z.max_l by lia.
  change (Z.to_nat 0) with 0%nat. rewrite skipn_O.
  replace (Z.to_nat (Z.of_nat (length c + 16) + -16 - 0)) with (length c) by lia.
  rewrite firstn_app, Nat.sub_diag, firstn_all, firstn_O, app_nil_r. reflexivity.
Qed.

Lemma slice_back c t :
  length t = 16%nat -> slice (c ++ t) (-16) None = t.
Proof.
  intros Ht. unfold slice. rewrite length_app, Ht.
  change (-16 <? 0) with true. cbv beta iota.
  rewrite Z.max_l by lia.
  replace (Z.to_nat (Z.of_nat (length c + 16) + -16)) with (length c) by lia.
  rewrite skipn_app, Nat.sub_diag, skipn_all, skipn_O. cbn [app].
  replace (Z.to_nat (Z.of_nat (length c + 16) - (Z.of_nat (length c + 16) + -16)))
    with (length t) by lia.
  apply firstn_all.
Qed.

Lemma truthy_nonempty (s : jsstring) : s <> [] -> truthy s = true.
Proof. destruct s; [congruence | reflexivity]. Qed.

Lemma truthy_length (s : jsstring) : (0 < length s)%nat -> truthy s = true.
Proof. destruct s; cbn; [lia | reflexivity]. Qed.

Lemma truthy_encode_groups bs :
  octets bs -> (0 < length bs)%nat -> truthy (Base64.encode_groups bs) = true.
Proof.
  intros Ho Hl. rewrite Base64Facts.encode_groups_nonempty by assumption.
  apply truthy_length. assumption.
Qed.

Lemma valid_key_truthy k : valid_key k -> truthy k = true.
Proof.
  intros (kb & Hk & Hl). destruct k; [|reflexivity].
  cbv in Hk. injection Hk as <-. discriminate.
Qed.

Lemma encryptData_ok p k kb random :
  p <> [] -> Text.well_formed p = true ->
  base64ToBytes k = Ok kb -> length kb = 32%nat -> nonce_draw random ->
  encryptData p k random = Ok (sealed_record kb random (Text.encode p)).
Proof.
  intros Hp Hwf Hk Hkl [Hrl Hro].
  assert (Hkt : truthy k = true) by (apply valid_key_truthy; exists kb; auto).
  unfold encryptData. rewrite (truthy_nonempty p Hp), Hkt. cbn [negb].
  rewrite Hk. cbn [bind_result].
  unfold Subtle.importKey_AES_GCM. rewrite Hkl. cbn [Nat.eqb orb bind_result].
  unfold Subtle.encrypt_AES_GCM.
  destruct random as [|r0 random']; [discriminate|].
  set (random := r0 :: random') in *. cbn [bind_result].
  rewrite GCMFacts.seal_split.
  set (E := GCM.block_cipher kb).
  set (c := GCMSpec.sealed_text E random (Text.encode p)).
  set (t := GCM.tag E (GCM.J0 E random) c).
  assert (Ht : length t = 16%nat) by apply GCMFacts.tag_length.
  rewrite slice_front, slice_back by assumption.
  assert (Hco : octets c)
    by (apply GCMFacts.sealed_text_octets, TextFacts.encode_octets; assumption).
  rewrite !bytesToBase64_ok
    by (assumption || apply GCMFacts.tag_octets).
  reflexivity.
Qed.

Lemma decryptData_sealed k kb random pb :
  base64ToBytes k = Ok kb -> length kb = 32%nat -> nonce_draw random ->
  octets pb -> pb <> [] ->
  decryptData (Some (sealed_record kb random pb)) k = Ok (Text.decode pb).
Proof.
  intros Hk Hkl [Hrl Hro] Hpo Hpne.
  assert (Hkt : truthy k = true) by (apply valid_key_truthy; exists kb; auto).
  unfold decryptData, sealed_record.
  set (E := GCM.block_cipher kb).
  set (c := GCMSpec.sealed_text E random pb).
  set (t := GCM.tag E (GCM.J0 E random) c).
  assert (Hcl : length c = length pb) by apply GCMFacts.sealed_text_length.
  assert (Hco : octets c) by (apply GCMFacts.sealed_text_octets; assumption).
  assert (Hto : octets t) by apply GCMFacts.tag_octets.
  assert (Htl : length t = 16%nat) by apply GCMFacts.tag_length.
  assert (Hpl : (0 < length pb)%nat) by (destruct pb; cbn; [congruence | lia]).
  cbn [encryptedData iv authTag falsy field].
  rewrite !truthy_encode_groups by (assumption || lia).
  rewrite Hkt. cbn [negb orb].
  rewrite Hk. cbn [bind_result].
  unfold Subtle.importKey_AES_GCM. rewrite Hkl. cbn [Nat.eqb orb bind_result].
  rewrite !base64ToBytes_encode by assumption. cbn [bind_result].
  unfold Subtle.decrypt_AES_GCM.
  destruct random as [|r0 random']; [discriminate|].
  fold (GCMSpec.sealed_text E (r0 :: random') pb) in c.
  change (c ++ t) with (GCM.seal E (r0 :: random') pb).
  rewrite GCMFacts.open_seal. reflexivity.
Qed.

(** ** Facts about SHA-256, HMAC and PBKDF2: shape of the outputs *)

Lemma flat_map_octets {A} (f : A -> bytes) l :
  (forall x, octets (f x)) -> octets (flat_map f l).
Proof.
  intros Hf. induction l as [|x l IH]; [constructor|].
  cbn [flat_map]. apply Forall_app. split; [apply Hf | exact IH].
Qed.

Lemma flat_map_length_const {A} (f : A -> bytes) n l :
  (forall x, length (f x) = n) -> length (flat_map f l) = (n * length l)%nat.
Proof.
  intros Hf. induction l as [|x l IH]; [cbn; lia|].
  cbn [flat_map length]. rewrite length_app, Hf, IH. lia.
Qed.

Lemma firstn_octets n bs : octets bs -> octets (firstn n bs).
Proof.
  intros H. revert n. induction H as [|b bs Hb _ IH]; intros [|n]; cbn;
    constructor; [assumption | apply IH].
Qed.

Lemma Z_iter_invariant {A} (Inv : A -> Prop) (f : A -> A) :
  (forall x, Inv x -> Inv (f x)) -> forall n x, Inv x -> Inv (Z.iter n f x).
Proof.
  intros Hf [|p|p] x Hx; cbn [Z.iter]; try assumption.
  apply Pos.iter_invariant; auto.
Qed.

Module SHA256Facts.
Import SHA256.

Lemma round_length st kw : length st = 8%nat -> length (round st kw) = 8%nat.
Proof.
  intros H. destruct st as [|a [|b [|c [|d [|e [|f [|g [|h [|]]]]]]]]];
    try discriminate. reflexivity.
Qed.

Lemma rounds_length kws st :
  length st = 8%nat -> length (fold_left round kws st) = 8%nat.
Proof.
  revert st. induction kws as [|kw kws IH]; intros st H; [exact H|].
  cbn [fold_left]. apply IH, round_length, H.
Qed.

Lemma compress_length h block :
  length h = 8%nat -> length (compress h block) = 8%nat.
Proof.
  intros H. unfold compress.
  rewrite length_map, length_combine, rounds_length by assumption. lia.
Qed.

Lemma digest_state_length bl h :
  length h = 8%nat -> length (fold_left compress bl h) = 8%nat.
Proof.
  revert h. induction bl as [|b bl IH]; intros h H; [exact H|].
  cbn [fold_left]. apply IH, compress_length, H.
Qed.

Lemma digest_length msg : length (digest msg) = 32%nat.
Proof.
  unfold digest.
  rewrite (flat_map_length_const _ 4) by (intro; apply be_bytes_length).
  rewrite digest_state_length by reflexivity. reflexivity.
Qed.

Lemma digest_octets msg : octets (digest msg).
Proof. apply flat_map_octets. intro. apply be_bytes_octets. Qed.

Lemma hmac_length key msg : length (hmac key msg) = 32%nat.
Proof. apply digest_length. Qed.

Lemma hmac_octets key msg : octets (hmac key msg).
Proof. apply digest_octets. Qed.

Lemma pbkdf2_block_shape password salt iterations i :
  length (pbkdf2_block password salt iterations i) = 32%nat /\
  octets (pbkdf2_block password salt iterations i).
Proof.
  unfold pbkdf2_block.
  set (inv := fun ut : bytes * bytes =>
                (length (fst ut) = 32%nat /\ octets (fst ut)) /\
                (length (snd ut) = 32%nat /\ octets (snd ut))).
  apply (Z_iter_invariant inv).
  - intros [u t] [[Hul Huo] [Htl Hto]]. cbn [fst snd] in *.
    repeat split; cbn [fst snd].
    + apply hmac_length.
    + apply hmac_octets.
    + rewrite xor_bytes_length; [assumption | rewrite hmac_length; lia].
    + apply xor_bytes_octets; [assumption | apply hmac_octets].
  - repeat split; cbn [fst snd];
      (apply hmac_length || apply hmac_octets).
Qed.

Lemma pbkdf2_octets password salt iterations dkLen :
  octets (pbkdf2 password salt iterations dkLen).
Proof.
  apply firstn_octets, flat_map_octets. intro. apply pbkdf2_block_shape.
Qed.

Lemma pbkdf2_length password salt iterations dkLen :
  length (pbkdf2 password salt iterations dkLen) = dkLen.
Proof.
  unfold pbkdf2. rewrite length_firstn.
  rewrite (flat_map_length_const _ 32) by (intro; apply pbkdf2_block_shape).
  rewrite length_seq.
  pose proof (Nat.div_mod_eq (dkLen + 31) 32) as Hd.
  pose proof (Nat.mod_upper_bound (dkLen + 31) 32). lia.
Qed.

End SHA256Facts.

Lemma pbkdf2Sha256_ok password salt :
  pbkdf2Sha256 password salt PBKDF2_ITERATIONS KEY_LENGTH =
  Ok (SHA256.pbkdf2 password salt 100000 32).
Proof. reflexivity. Qed.

Lemma deriveEncryptionKey_ok masterPassword userId :
  (8 <= length masterPassword)%nat -> userId <> [] ->
  deriveEncryptionKey masterPassword userId =
  Ok (Base64.encode_groups
        (SHA256.pbkdf2 (Text.encode masterPassword) (Text.encode userId) 100000 32)).
Proof.
  intros Hlen Hid. unfold deriveEncryptionKey.
  rewrite truthy_length by lia. rewrite (truthy_nonempty userId Hid).
  replace (length masterPassword <? 8)%nat with false
    by (symmetry; apply Nat.ltb_ge; lia).
  cbn [negb orb]. unfold stringToBytes.
  rewrite pbkdf2Sha256_ok. cbn [bind_result].
  rewrite bytesToBase64_ok by apply SHA256Facts.pbkdf2_octets.
  reflexivity.
Qed.

(** One hundred thousand iterations are never unfolded by a tactic. *)
#[global] Opaque SHA256.pbkdf2.

(** * Properties of the cipher and of key derivation *)

Example encryptData_hello :
  encryptData (js "hello") sample_key sample_nonce = Ok hello_record.
Proof. vm_compute. reflexivity. Qed.

Example decryptData_hello :
  decryptData (Some hello_record) sample_key = Ok (js "hello").
Proof. vm_compute. reflexivity. Qed.

(** A leading U+FEFF does not survive the round trip, and an unpaired
    surrogate comes back as U+FFFD. *)
Example roundtrip_drops_bom :
  (let* r := encryptData (0xFEFF :: js "hello") sample_key sample_nonce in
   decryptData (Some r) sample_key) = Ok (js "hello").
Proof. vm_compute. reflexivity. Qed.

Example roundtrip_replaces_lone_surrogate :
  (let* r := encryptData (0xD800 :: js "hello") sample_key sample_nonce in
   decryptData (Some r) sample_key) = Ok (0xFFFD :: js "hello").
Proof. vm_compute. reflexivity. Qed.

(** The [iv] field of a returned record is the base64 text of the bytes
    drawn in that call, whatever the plaintext and the key. *)
Lemma encryptData_iv p k random r :
  encryptData p k random = Ok r ->
  exists iv64, bytesToBase64 random = Ok iv64 /\ iv r = Some iv64.
Proof.
  unfold encryptData.
  destruct (truthy p); cbn [negb]; [|discriminate].
  destruct (truthy k); cbn [negb]; [|discriminate].
  destruct (base64ToBytes k) as [kb|]; cbn [bind_result try_catch]; [|discriminate].
  destruct (Subtle.importKey_AES_GCM kb) as [ck|];
    cbn [bind_result try_catch]; [|discriminate].
  destruct (Subtle.encrypt_AES_GCM random ck (Text.encode p)) as [buf|];
    cbn [bind_result try_catch]; [|discriminate].
  destruct (bytesToBase64 (slice buf 0 (Some (-16)))) as [c64|];
    cbn [bind_result try_catch]; [|discriminate].
  destruct (bytesToBase64 random) as [iv64|];
    cbn [bind_result try_catch]; [|discriminate].
  destruct (bytesToBase64 (slice buf (-16) None)) as [t64|];
    cbn [bind_result try_catch]; [|discriminate].
  intros [= <-]. exists iv64. split; reflexivity.
Qed.

(** C1 (as stated) fails on the empty plaintext: [encryptData] rejects it,
    so there is no record to decrypt. *)
Lemma roundtrip_fails_on_empty_plaintext :
  valid_key sample_key /\ nonce_draw sample_nonce /\
  encryptData [] sample_key sample_nonce = Throw (Error "Plaintext data is required") /\
  ~ (exists r, encryptData [] sample_key sample_nonce = Ok r /\
               decryptData (Some r) sample_key = Ok []).
Proof.
  split; [|split; [|split]].
  - exists (map Z.of_nat (seq 0 32)). split; vm_compute; reflexivity.
  - split; [reflexivity|]. repeat constructor; unfold octet; lia.
  - reflexivity.
  - intros (r & Hr & _). discriminate Hr.
Qed.

(** C1 (amended). Round trip of the authenticated cipher: for every
    non-empty plaintext that is well-formed UTF-16 and does not start with
    U+FEFF, every key that is the base64 text of 32 bytes and every drawn
    nonce, [encryptData] returns a record and [decryptData] of that record
    under the same key returns exactly the plaintext. *)
Theorem cipher_roundtrip p k random :
  plain_text p -> valid_key k -> nonce_draw random ->
  exists r, encryptData p k random = Ok r /\ decryptData (Some r) k = Ok p.
Proof.
  intros (Hne & Hwf & Hbom) (kb & Hk & Hkl) Hrand.
  exists (sealed_record kb random (Text.encode p)). split.
  - apply encryptData_ok; assumption.
  - rewrite (decryptData_sealed k kb) ; try assumption.
    + rewrite TextFacts.decode_encode by assumption. reflexivity.
    + apply TextFacts.encode_octets. assumption.
    + apply TextFacts.encode_nonempty. assumption.
Qed.

Lemma cipher_roundtrip_witness :
  exists r, encryptData (js "hello") sample_key sample_nonce = Ok r /\
            decryptData (Some r) sample_key = Ok (js "hello").
Proof.
  apply (cipher_roundtrip (js "hello") sample_key sample_nonce).
  - split; [discriminate | split; reflexivity].
  - exists (map Z.of_nat (seq 0 32)). split; vm_compute; reflexivity.
  - split; [reflexivity|]. repeat constructor; unfold octet; lia.
Defined.

Lemma nonce_draw_sample : nonce_draw sample_nonce /\ nonce_draw other_nonce.
Proof. split; (split; [reflexivity | repeat constructor; unfold octet; lia]). Qed.



Lemma decryptData_missing_field r k :
  missing_field r = true ->
  decryptData r k = Throw (Error "Invalid encrypted data structure").
Proof.
  intros H. unfold decryptData. destruct r as [e|]; cbn in H |- *.
  - rewrite H. reflexivity.
  - reflexivity.
Qed.

Lemma decryptData_empty_key r :
  missing_field r = false ->
  decryptData r [] = Throw (Error "Encryption key is required").
Proof.
  intros H. unfold decryptData. destruct r as [e|]; cbn in H |- *.
  - rewrite H. reflexivity.
  - discriminate.
Qed.

(** C10. Input validation of the cipher interface: [encryptData] throws on
    the empty plaintext for every key, before any other step; [encryptData]
    and [decryptData] throw when the key is empty; and [decryptData] throws
    'Invalid encrypted data structure', an error different from the one that
    reports a failed decryption, whenever the record or one of its three
    fields is missing or empty. *)
Theorem cipher_input_validation :
  (forall k random,
      encryptData [] k random = Throw (Error "Plaintext data is required")) /\
  (forall p random,
      encryptData p [] random =
      Throw (Error (if truthy p then "Encryption key is required"
                    else "Plaintext data is required"))) /\
  (forall r,
      decryptData r [] =
      Throw (Error (if missing_field r then "Invalid encrypted data structure"
                    else "Encryption key is required"))) /\
  (forall r k,
      missing_field r = true ->
      decryptData r k = Throw (Error "Invalid encrypted data structure")) /\
  Error "Invalid encrypted data structure" <>
  Error "Decryption failed - incorrect password or corrupted data".
Proof.
  repeat split.
  - intros p random. unfold encryptData. destruct (truthy p); reflexivity.
  - intros r. destruct (missing_field r) eqn:H.
    + apply decryptData_missing_field. assumption.
    + apply decryptData_empty_key. assumption.
  - intros r k. apply decryptData_missing_field.
  - discriminate.
Qed.

Lemma cipher_input_validation_witness :
  decryptData (Some {| encryptedData := Some (js "bY82uYM=");
                       iv := Some [];
                       authTag := None |}) sample_key =
  Throw (Error "Invalid encrypted data structure").
Proof.
  apply (proj1 (proj2 (proj2 (proj2 cipher_input_validation)))).
  reflexivity.
Defined.

(** C9. Input validation of key derivation: [deriveEncryptionKey] fails
    with InvalidInput exactly when the master password has fewer than 8
    code units (the empty password included) or the account id is empty;
    [derive("short", "user-1")] is such a failure. *)
Theorem derive_input_validation :
  (forall masterPassword userId,
      (exists e, deriveEncryptionKey masterPassword userId = Throw e /\ InvalidInput e)
      <-> ((length masterPassword < 8)%nat \/ userId = [])) /\
  deriveEncryptionKey (js "short") (js "user-1") =
  Throw (Error "Master password must be at least 8 characters").
Proof.
  split; [|reflexivity].
  intros pw uid. split.
  - intros (e & He & Hinv).
    destruct (Nat.lt_ge_cases (length pw) 8) as [Hlt | Hge]; [left; exact Hlt|].
    destruct uid as [|c uid]; [right; reflexivity|].
    exfalso. rewrite deriveEncryptionKey_ok in He by (assumption || discriminate).
    discriminate He.
  - intros [Hlt | ->].
    + exists (Error "Master password must be at least 8 characters").
      split; [|left; reflexivity].
      unfold deriveEncryptionKey.
      apply Nat.ltb_lt in Hlt. rewrite Hlt, orb_true_r. reflexivity.
    + unfold deriveEncryptionKey.
      destruct (negb (truthy pw) || (length pw <? 8)%nat).
      * eexists. split; [reflexivity | left; reflexivity].
      * eexists. split; [reflexivity | right; reflexivity].
Qed.

(** C2. Key derivation equals the reference definition: for a master
    password of at least 8 code units and a non-empty account id,
    [deriveEncryptionKey] returns [derive_reference], the base64 text of the
    32-byte PBKDF2-SHA256 output; the result is a function of the two
    arguments alone, so equal inputs give equal output. *)
Theorem derive_matches_reference masterPassword userId :
  (8 <= length masterPassword)%nat -> userId <> [] ->
  deriveEncryptionKey masterPassword userId =
    Ok (derive_reference masterPassword userId) /\
  length (SHA256.pbkdf2 (Text.encode masterPassword) (Text.encode userId)
                        100000 (256 / 8)) = 32%nat /\
  base64ToBytes (derive_reference masterPassword userId) =
    Ok (SHA256.pbkdf2 (Text.encode masterPassword) (Text.encode userId)
                      100000 (256 / 8)) /\
  (forall masterPassword' userId',
      masterPassword' = masterPassword -> userId' = userId ->
      deriveEncryptionKey masterPassword' userId' =
      deriveEncryptionKey masterPassword userId).
Proof.
  intros Hlen Hid. repeat split.
  - apply deriveEncryptionKey_ok; assumption.
  - apply SHA256Facts.pbkdf2_length.
  - apply base64ToBytes_encode, SHA256Facts.pbkdf2_octets.
  - intros pw' uid' -> ->. reflexivity.
Qed.

Lemma derive_matches_reference_witness :
  let masterPassword := js "Sup3rSecret!" in
  let userId := js "user-42" in
  deriveEncryptionKey masterPassword userId =
  Ok (derive_reference masterPassword userId).
Proof.
  intros masterPassword userId.
  refine (proj1 (derive_matches_reference masterPassword userId _ _)).
  - subst masterPassword. vm_compute. lia.
  - subst userId. discriminate.
Defined.

(** Derived keys are valid AES-256 keys. *)
Lemma derived_key_valid masterPassword userId key :
  deriveEncryptionKey masterPassword userId = Ok key -> valid_key key.
Proof.
  intros H.
  destruct (Nat.lt_ge_cases (length masterPassword) 8) as [Hlt | Hge].
  { unfold deriveEncryptionKey in H. apply Nat.ltb_lt in Hlt.
    rewrite Hlt, orb_true_r in H. discriminate. }
  destruct userId as [|c uid].
  { unfold deriveEncryptionKey in H.
    destruct (negb (truthy masterPassword) || (length masterPassword <? 8)%nat);
      discriminate. }
  rewrite deriveEncryptionKey_ok in H by (assumption || discriminate).
  set (dk := SHA256.pbkdf2 _ _ _ _) in H.
  assert (Hkey : key = Base64.encode_groups dk) by congruence.
  exists dk. subst key dk. split.
  - apply base64ToBytes_encode, SHA256Facts.pbkdf2_octets.
  - apply SHA256Facts.pbkdf2_length.
Qed.

(** * Failures of [decryptObject] *)

(** C6 (as stated) fails: three records that [decryptObject] rejects under
    the same key are reported in three different ways.  An authentic record
    whose text is not JSON surfaces [JSON.parse]'s SyntaxError, a record
    with an empty nonce is rejected as 'Invalid encrypted data structure',
    and only the record with a wrong tag gets the decryption-failure error. *)
Lemma decryptObject_failures_differ :
  decryptObject (Some hello_record) sample_key = Throw SyntaxError /\
  decryptObject (Some hello_without_nonce) sample_key =
    Throw (Error "Invalid encrypted data structure") /\
  decryptObject (Some hello_tampered) sample_key = Throw DECRYPTION_FAILED /\
  SyntaxError <> DECRYPTION_FAILED /\
  Error "Invalid encrypted data structure" <> DECRYPTION_FAILED.
Proof.
  repeat split; try (vm_compute; reflexivity); discriminate.
Qed.

Lemma decryptData_outcome r k :
  missing_field r = false -> k <> [] ->
  (exists text, decryptData r k = Ok text) \/ decryptData r k = Throw DECRYPTION_FAILED.
Proof.
  intros Hr Hk. unfold decryptData.
  assert (Hguard :
            falsy (match r with Some e => encryptedData e | None => None end)
            || falsy (match r with Some e => iv e | None => None end)
            || falsy (match r with Some e => authTag e | None => None end) = false).
  { destruct r as [e|]; [exact Hr | discriminate Hr]. }
  rewrite Hguard, (truthy_nonempty k Hk). cbn [negb].
  match goal with
  | |- (exists text, try_catch ?body _ = _) \/ _ => destruct body as [text | e]
  end; cbn [try_catch]; [left; eauto | right; reflexivity].
Qed.

(** C6 (amended). The failures of [decryptObject] fall into four classes
    that the caller can tell apart: a record with a missing or empty field
    is rejected as 'Invalid encrypted data structure'; an empty key as
    'Encryption key is required'; every failure while decrypting a complete
    record under a non-empty key (bad base64, bad key length, malformed
    nonce, wrong key, tag mismatch) is reported as the one error 'Decryption
    failed - incorrect password or corrupted data'; and a text that decrypts
    but does not parse surfaces as [JSON.parse]'s SyntaxError. *)
Theorem decryptObject_failure_classes r k e :
  decryptObject r k = Throw e ->
  (e = Error "Invalid encrypted data structure" /\ missing_field r = true) \/
  (e = Error "Encryption key is required" /\ missing_field r = false /\ k = []) \/
  (e = DECRYPTION_FAILED /\ missing_field r = false /\ k <> [] /\
   decryptData r k = Throw DECRYPTION_FAILED) \/
  (e = SyntaxError /\ missing_field r = false /\ k <> [] /\
   exists text, decryptData r k = Ok text /\ JSON.parse text = Throw SyntaxError).
Proof.
  unfold decryptObject. intros H.
  destruct (missing_field r) eqn:Hr.
  { rewrite decryptData_missing_field in H by assumption.
    cbn [bind_result] in H.
    left. split; [congruence | reflexivity]. }
  destruct k as [|c k].
  { rewrite decryptData_empty_key in H by assumption.
    cbn [bind_result] in H.
    right. left. repeat split; congruence. }
  right. right.
  destruct (decryptData_outcome r (c :: k) Hr) as [[text Ht] | Hfail];
    [discriminate | |].
  - right. rewrite Ht in H. cbn [bind_result] in H.
    assert (He : e = SyntaxError).
    { unfold JSON.parse in H.
      destruct (JSON.parse_value _ text) as [[v rest]|]; [|congruence].
      destruct (JSON.skip_ws rest); congruence. }
    subst e. repeat split; try discriminate. exists text. auto.
  - left. rewrite Hfail in H. cbn [bind_result] in H.
    repeat split; try discriminate; congruence.
Qed.

Lemma decryptObject_failure_classes_witness :
  (DECRYPTION_FAILED = Error "Invalid encrypted data structure" /\
   missing_field (Some hello_tampered) = true) \/
  (DECRYPTION_FAILED = Error "Encryption key is required" /\
   missing_field (Some hello_tampered) = false /\ sample_key = []) \/
  (DECRYPTION_FAILED = DECRYPTION_FAILED /\
   missing_field (Some hello_tampered) = false /\ sample_key <> [] /\
   decryptData (Some hello_tampered) sample_key = Throw DECRYPTION_FAILED) \/
  (DECRYPTION_FAILED = SyntaxError /\
   missing_field (Some hello_tampered) = false /\ sample_key <> [] /\
   exists text, decryptData (Some hello_tampered) sample_key = Ok text /\
                JSON.parse text = Throw SyntaxError).
Proof.
  apply (decryptObject_failure_classes (Some hello_tampered) sample_key DECRYPTION_FAILED).
  vm_compute. reflexivity.
Defined.

(** * The key lifecycle *)

Ltac run_action :=
  unfold finally, catch, bind, lift, ret, throw, set, get_auth, set_screen, get_screen,
    SecureStore.getItemAsync, SecureStore.setItemAsync, SecureStore.deleteItemAsync;
  cbn [fst snd auth screen secure keychain writes].

Lemma lockApp_spec w :
  lockApp w =
  (Ok tt,
   {| auth := {| user := user (auth w); accessToken := accessToken (auth w);
                 refreshToken := refreshToken (auth w); encryptionKey := None;
                 isAuthenticated := isAuthenticated (auth w);
                 isLoading := isLoading (auth w); error := error (auth w) |};
      screen := screen w; secure := secure w; keychain := keychain w;
      writes := writes w |}).
Proof. reflexivity. Qed.

Lemma logout_spec post w :
  logout post w =
  if keychain w then
    (Ok tt,
     {| auth := signed_out (auth w); screen := screen w;
        secure := delete ENV.REFRESH_TOKEN
                    (delete ENV.ACCESS_TOKEN
                       (delete ENV.REFRESH_TOKEN
                          (delete ENV.ACCESS_TOKEN (secure w))));
        keychain := true; writes := writes w |})
  else (Throw StorageError, w).
Proof.
  unfold logout, AuthService.logout, clearTokens. run_action.
  destruct w as [a c s k ws]. cbn [auth screen secure keychain writes].
  destruct post as [[]|e], k; reflexivity.
Qed.

(** C4. Lifecycle key-clearing invariant: after [lockApp] the key is
    absent and the account context and tokens are as before; whenever
    [logout] completes, the key, the account context and the tokens are
    absent from the store and the persisted tokens are deleted.  ([logout]
    completes exactly when the keychain answers; otherwise it rejects and
    changes nothing.) *)
Theorem key_cleared_by_lock_and_logout (post : result unit) (w : World) :
  (fst (lockApp w) = Ok tt /\
   encryptionKey (auth (snd (lockApp w))) = None /\
   user (auth (snd (lockApp w))) = user (auth w) /\
   accessToken (auth (snd (lockApp w))) = accessToken (auth w) /\
   refreshToken (auth (snd (lockApp w))) = refreshToken (auth w) /\
   isAuthenticated (auth (snd (lockApp w))) = isAuthenticated (auth w)) /\
  match logout post w with
  | (Ok _, w') =>
      keychain w = true /\
      encryptionKey (auth w') = None /\
      user (auth w') = None /\
      accessToken (auth w') = None /\
      refreshToken (auth w') = None /\
      isAuthenticated (auth w') = false /\
      secure w' !! ENV.ACCESS_TOKEN = None /\
      secure w' !! ENV.REFRESH_TOKEN = None
  | (Throw _, w') => keychain w = false /\ w' = w
  end.
Proof.
  split; [rewrite lockApp_spec; cbn; auto 10|].
  rewrite logout_spec. destruct (keychain w); [|split; reflexivity].
  cbn [auth secure signed_out encryptionKey user accessToken refreshToken
       isAuthenticated].
  repeat split.
  - rewrite lookup_delete_ne by discriminate. apply lookup_delete_eq.
  - apply lookup_delete_eq.
Qed.

(** ** [unlockApp] and [loadSession] *)

(** The three ways [unlockApp] can end. *)
Lemma unlockApp_spec derive masterPassword w :
  unlockApp derive masterPassword w =
  match user (auth w) with
  | None => (Throw (Error "No active session"), w)
  | Some u =>
      match derive masterPassword (User.id u) with
      | Ok key => (Ok tt, with_auth (unlocked key) w)
      | Throw e =>
          (Throw e,
           with_auth (fun s => fail_with e "Failed to unlock" (begin_loading s)) w)
      end
  end.
Proof.
  unfold unlockApp. run_action.
  destruct (user (auth w)) as [u|]; [|reflexivity]. run_action.
  destruct (derive masterPassword (User.id u)); reflexivity.
Qed.

(** The effect of a successful [register] on the auth store. *)
Lemma register_ok derive email password firstName lastName r key w :
  keychain w = true ->
  derive password (AuthResponse.userId r) = Ok key ->
  fst (register derive email password firstName lastName (Ok r) w) = Ok tt /\
  auth (snd (register derive email password firstName lastName (Ok r) w)) =
    signed_in r key (begin_loading (auth w)).
Proof.
  intros Hk Hd. destruct w as [a c s k ws]. cbn [keychain] in Hk. subst k.
  unfold register, AuthService.register, saveTokens. run_action.
  rewrite Hd. run_action. split; reflexivity.
Qed.

Lemma lockApp_auth w :
  auth (snd (lockApp w)) =
  {| user := user (auth w); accessToken := accessToken (auth w);
     refreshToken := refreshToken (auth w); encryptionKey := None;
     isAuthenticated := isAuthenticated (auth w);
     isLoading := isLoading (auth w); error := error (auth w) |}.
Proof. reflexivity. Qed.

Lemma registered_world_auth :
  auth registered_world =
  signed_in sample_response (derive_reference (js "Sup3rSecret!") (js "user-42"))
            (begin_loading initial_auth).
Proof.
  assert (Hreg : deriveEncryptionKey (js "Sup3rSecret!") (js "user-42") =
                 Ok (derive_reference (js "Sup3rSecret!") (js "user-42")))
    by (apply deriveEncryptionKey_ok; [vm_compute; lia | discriminate]).
  exact (proj2 (register_ok deriveEncryptionKey (js "a@b.com") (js "Sup3rSecret!")
                  (js "A") (js "B") sample_response _ (boot ∅ true) eq_refl Hreg)).
Qed.

Lemma locked_world_auth :
  auth locked_world =
  {| user := Some (user_of sample_response);
     accessToken := Some (js "access-token");
     refreshToken := Some (js "refresh-token");
     encryptionKey := None;
     isAuthenticated := true; isLoading := false; error := None |}.
Proof.
  unfold locked_world. rewrite lockApp_auth, registered_world_auth. reflexivity.
Qed.

(** C7 (as stated) fails: after registering with one master password and
    locking, [unlockApp] with a different password reports success and
    leaves a key resident, the key derived from the wrong password. *)
Lemma unlockApp_accepts_wrong_password :
  encryptionKey (auth registered_world) =
    Some (derive_reference (js "Sup3rSecret!") (js "user-42")) /\
  encryptionKey (auth locked_world) = None /\
  js "WrongPassw0rd" <> js "Sup3rSecret!" /\
  fst (unlockApp deriveEncryptionKey (js "WrongPassw0rd") locked_world) = Ok tt /\
  encryptionKey
    (auth (snd (unlockApp deriveEncryptionKey (js "WrongPassw0rd") locked_world))) =
    Some (derive_reference (js "WrongPassw0rd") (js "user-42")).
Proof.
  assert (Hwrong : deriveEncryptionKey (js "WrongPassw0rd") (js "user-42") =
                   Ok (derive_reference (js "WrongPassw0rd") (js "user-42")))
    by (apply deriveEncryptionKey_ok; [vm_compute; lia | discriminate]).
  split; [rewrite registered_world_auth; reflexivity|].
  split; [rewrite locked_world_auth; reflexivity|].
  split; [discriminate|].
  rewrite unlockApp_spec, locked_world_auth.
  cbn [user User.id user_of AuthResponse.userId sample_response].
  rewrite Hwrong. split; reflexivity.
Qed.

(** C7 (amended). [unlockApp] does not verify the password: whenever an
    account context with a non-empty id is present, [unlockApp] with any
    master password of at least 8 code units, correct or not, reports
    success and leaves the state unlocked with the key derived from that
    password; nothing else in the world changes (no record is read or
    decrypted, and [verifyMasterPassword] is not called). *)
Theorem unlockApp_never_verifies masterPassword w u :
  user (auth w) = Some u ->
  (8 <= length masterPassword)%nat -> User.id u <> [] ->
  unlockApp deriveEncryptionKey masterPassword w =
  (Ok tt, with_auth (unlocked (derive_reference masterPassword (User.id u))) w).
Proof.
  intros Hu Hlen Hid. rewrite unlockApp_spec, Hu.
  rewrite deriveEncryptionKey_ok by assumption. reflexivity.
Qed.

Lemma unlockApp_never_verifies_witness :
  unlockApp deriveEncryptionKey (js "WrongPassw0rd") sample_locked =
  (Ok tt,
   with_auth (unlocked (derive_reference (js "WrongPassw0rd")
                          (User.id (user_of sample_response))))
             sample_locked).
Proof.
  apply (unlockApp_never_verifies (js "WrongPassw0rd") sample_locked
           (user_of sample_response)).
  - reflexivity.
  - vm_compute. lia.
  - discriminate.
Defined.

Lemma loadSession_spec w :
  loadSession w =
  let loading (s : AuthStore) :=
    {| user := user s; accessToken := accessToken s; refreshToken := refreshToken s;
       encryptionKey := encryptionKey s; isAuthenticated := isAuthenticated s;
       isLoading := true; error := error s |} in
  let settle (s : AuthStore) :=
    if keychain w
       && negb (falsy (secure w !! ENV.ACCESS_TOKEN))
       && negb (falsy (secure w !! ENV.REFRESH_TOKEN))
    then
      {| user := user s; accessToken := secure w !! ENV.ACCESS_TOKEN;
         refreshToken := secure w !! ENV.REFRESH_TOKEN;
         encryptionKey := encryptionKey s; isAuthenticated := true;
         isLoading := false; error := error s |}
    else
      {| user := user s; accessToken := accessToken s;
         refreshToken := refreshToken s; encryptionKey := encryptionKey s;
         isAuthenticated := isAuthenticated s; isLoading := false;
         error := error s |} in
  (Ok tt, with_auth (fun s => settle (loading s)) w).
Proof.
  unfold loadSession, with_auth. run_action.
  destruct (keychain w); [|reflexivity]. run_action.
  destruct (falsy (secure w !! ENV.ACCESS_TOKEN)),
           (falsy (secure w !! ENV.REFRESH_TOKEN)); reflexivity.
Qed.

(** C8, evaluated on the code.  When the process starts with both tokens
    persisted, [loadSession] sets the tokens and [isAuthenticated] and leaves
    the key absent, but it also leaves the account context absent: [user] is
    still [null], and the next [unlockApp] is rejected with 'No active
    session' whatever the password, so the session cannot be unlocked. *)
Theorem loadSession_leaves_user_absent
  (stored : gmap string jsstring) (access refresh : jsstring) :
  stored !! ENV.ACCESS_TOKEN = Some access ->
  stored !! ENV.REFRESH_TOKEN = Some refresh ->
  access <> [] -> refresh <> [] ->
  let restored := snd (loadSession (boot stored true)) in
  fst (loadSession (boot stored true)) = Ok tt /\
  auth restored =
    {| user := None; accessToken := Some access; refreshToken := Some refresh;
       encryptionKey := None; isAuthenticated := true; isLoading := false;
       error := None |} /\
  forall masterPassword,
    unlockApp deriveEncryptionKey masterPassword restored =
    (Throw (Error "No active session"), restored).
Proof.
  intros Ha Hr Hane Hrne restored.
  assert (Hauth : auth restored =
                  {| user := None; accessToken := Some access;
                     refreshToken := Some refresh; encryptionKey := None;
                     isAuthenticated := true; isLoading := false; error := None |}).
  { subst restored. rewrite loadSession_spec.
    cbn [snd with_auth auth boot keychain secure andb initial_auth user accessToken
         refreshToken encryptionKey isAuthenticated isLoading error].
    rewrite Ha, Hr. cbn [falsy].
    rewrite (truthy_nonempty access Hane), (truthy_nonempty refresh Hrne).
    reflexivity. }
  split; [rewrite loadSession_spec; reflexivity|].
  split; [exact Hauth|].
  intros pw. rewrite unlockApp_spec, Hauth. reflexivity.
Qed.

Lemma loadSession_leaves_user_absent_witness :
  user (auth (snd (loadSession (boot persisted_tokens true)))) = None /\
  unlockApp deriveEncryptionKey (js "Sup3rSecret!")
            (snd (loadSession (boot persisted_tokens true))) =
  (Throw (Error "No active session"), snd (loadSession (boot persisted_tokens true))).
Proof.
  destruct (loadSession_leaves_user_absent persisted_tokens
              (js "access-token") (js "refresh-token")) as (_ & Hauth & Hunlock).
  - reflexivity.
  - reflexivity.
  - discriminate.
  - discriminate.
  - split; [rewrite Hauth; reflexivity | apply Hunlock].
Defined.

(** * What reaches the secure store *)

Ltac unfold_actions :=
  unfold step, discard, checkBiometric, handleUnlock, handleBiometricUnlock,
    handleAppStateChange, login, register, logout, loadSession, unlockApp,
    clearError, lockApp, getDeviceId, setPassword, setBiometricAvailable,
    setBiometricEnabled, AuthService.login, AuthService.register,
    AuthService.logout, saveTokens, clearTokens;
  run_action;
  cbn [password biometricAvailable biometricEnabled].

(** The storage keys are pairwise different. *)
Lemma storage_keys_distinct :
  ENV.ACCESS_TOKEN <> ENV.BIOMETRIC_ENABLED /\
  ENV.REFRESH_TOKEN <> ENV.BIOMETRIC_ENABLED /\
  DEVICE_ID_KEY <> ENV.BIOMETRIC_ENABLED /\
  BIOMETRIC_PASSWORD <> ENV.BIOMETRIC_ENABLED /\
  ENV.ACCESS_TOKEN <> BIOMETRIC_PASSWORD /\
  ENV.REFRESH_TOKEN <> BIOMETRIC_PASSWORD /\
  DEVICE_ID_KEY <> BIOMETRIC_PASSWORD.
Proof. repeat split; discriminate. Qed.

Section ProvenanceFacts.

Variable derive : jsstring -> jsstring -> result jsstring.

(** The secure store as the process found it. *)
Variable stored : gmap string jsstring.

Lemma issued_mono events e r : issued events r -> issued (events ++ [e]) r.
Proof.
  intros [(a & b & H) | (a & b & c & d & H)]; [left | right];
    repeat eexists; apply in_or_app; left; exact H.
Qed.

Lemma entered_mono events e v : entered stored events v -> entered stored (events ++ [e]) v.
Proof.
  intros [H | H]; [left; apply in_or_app; left; exact H | right; exact H].
Qed.

Lemma permitted_mono events e kv :
  permitted stored events kv -> permitted stored (events ++ [e]) kv.
Proof.
  intros [r H | r H | fresh fallback H | v Ho H].
  - apply permit_access, issued_mono, H.
  - apply permit_refresh, issued_mono, H.
  - apply (permit_device _ _ fresh fallback). apply in_or_app. left. exact H.
  - apply permit_password; [exact Ho | apply entered_mono, H].
Qed.

Lemma last_event (events : list event) e : In e (events ++ [e]).
Proof. apply in_or_app. right. left. reflexivity. Qed.

Lemma invariant_boot available : invariant stored [] (boot stored available).
Proof.
  split; cbn [boot writes screen secure initial_screen password biometricEnabled].
  - intros kv [].
  - left. reflexivity.
  - intros v H. right. exact H.
  - discriminate.
  - reflexivity.
Qed.

Ltac branch :=
  match goal with
  | |- context [match ?x with _ => _ end] =>
      lazymatch x with
      | derive _ _ => destruct x eqn:?
      | falsy _ => destruct x eqn:?
      | negb ?y => destruct y eqn:?; cbn [negb]
      | truthy _ => destruct x eqn:?
      | bool_decide _ => destruct x eqn:?
      | user _ => destruct x eqn:?
      | biometricEnabled _ => destruct x eqn:?
      | isAuthenticated _ => destruct x eqn:?
      | String.eqb _ _ => destruct x eqn:?
      | andb _ _ => destruct x eqn:?
      | _ => is_var x; destruct x
      end
  end.

Lemma falsy_false_inv (x : option jsstring) :
  falsy x = false -> exists v, x = Some v /\ field x = v /\ v <> [].
Proof.
  destruct x as [[|c v]|]; cbn; try discriminate.
  intros _. eexists. repeat split. discriminate.
Qed.

Lemma truthy_true_inv (s : jsstring) : truthy s = true -> s <> [].
Proof. destruct s; [discriminate | discriminate]. Qed.

Ltac through_store :=
  destruct storage_keys_distinct as (? & ? & ? & ? & ? & ? & ?);
  repeat first
    [ rewrite lookup_insert_ne by assumption
    | rewrite lookup_delete_ne by assumption ].

Ltac new_write events :=
  first
    [ apply permit_access; first
        [ left; do 2 eexists; apply last_event
        | right; do 4 eexists; apply last_event ]
    | apply permit_refresh; first
        [ left; do 2 eexists; apply last_event
        | right; do 4 eexists; apply last_event ]
    | eapply permit_device; apply last_event ].

Lemma typed_password_entered events e (pw : jsstring) :
  pw = [] \/ entered stored events pw -> truthy pw = true -> entered stored (events ++ [e]) pw.
Proof.
  intros [-> | H] Ht; [discriminate Ht | apply entered_mono, H].
Qed.

Lemma stored_password_entered events e (s : gmap string jsstring) :
  (forall v : jsstring, s !! BIOMETRIC_PASSWORD = Some v -> entered stored events v) ->
  falsy (s !! BIOMETRIC_PASSWORD) = false ->
  entered stored (events ++ [e]) (field (s !! BIOMETRIC_PASSWORD)).
Proof.
  intros H Hf. apply falsy_false_inv in Hf as (v & Hv & -> & _).
  apply entered_mono, H, Hv.
Qed.

Lemma flag_opted_in (s : gmap string jsstring) :
  s !! ENV.BIOMETRIC_ENABLED = stored !! ENV.BIOMETRIC_ENABLED ->
  bool_decide (s !! ENV.BIOMETRIC_ENABLED = Some (js "true")) = true ->
  opted_in stored.
Proof.
  intros H Hb. apply bool_decide_eq_true in Hb.
  unfold opted_in. rewrite <- H. exact Hb.
Qed.

Lemma invariant_step events e w :
  invariant stored events w -> invariant stored (events ++ [e]) (step derive e w).
Proof.
  intros [I1 I2 I3 I4 I5]. destruct w as [a c s k ws].
  cbn [writes screen secure] in *.
  destruct e as [email pw post | email pw first last post | post | | | | pw | next
                | text | compatible enrolled authenticate | authenticate |
                | fresh fallback | available];
    unfold_actions; repeat (branch; run_action).
  all: split; cbn [writes screen secure password biometricEnabled].
  (* the values handed to setItemAsync *)
  all: try (intros kv Hin; cbn [In] in Hin;
            repeat (destruct Hin as [<- | Hin];
                    [first [ new_write events
                           | apply permit_password;
                             [ apply I4; reflexivity
                             | eapply typed_password_entered; eassumption ] ]|]);
            apply permitted_mono, I1, Hin).
  (* the password field of the unlock screen *)
  all: try solve
         [ destruct I2 as [I2 | I2]; [left; exact I2 | right; apply entered_mono, I2]
         | right; left; apply last_event
         | right; eapply stored_password_entered; eassumption ].
  (* the master password kept for biometric unlock *)
  all: try solve
         [ intros v Hv; apply entered_mono, I3; revert Hv; through_store; trivial
         | intros v Hv; rewrite lookup_insert_eq in Hv;
           injection Hv as <-; eapply typed_password_entered; eassumption ].
  (* the opt-in seen by the unlock screen, and the flag in the store *)
  all: try solve
         [ exact I4
         | discriminate
         | intros _; apply I4; reflexivity
         | intros _; eapply flag_opted_in; eassumption
         | intros E; congruence ].
  all: through_store; exact I5.
Qed.

Theorem invariant_run events available :
  invariant stored events (run derive events (boot stored available)).
Proof.
  induction events as [|e events IH] using rev_ind.
  - apply invariant_boot.
  - unfold run. rewrite fold_left_app. cbn [fold_left].
    apply invariant_step, IH.
Qed.

End ProvenanceFacts.

(** ** Independence of the derived key *)

Section KeyIndependence.

Variables d1 d2 : jsstring -> jsstring -> result jsstring.
Hypothesis Hsame : same_outcomes d1 d2.

Ltac branch2 :=
  match goal with
  | |- context [match ?x with _ => _ end] =>
      lazymatch x with
      | d1 ?p ?u =>
          let H := fresh "Hs" in
          pose proof (Hsame p u) as H;
          destruct (d1 p u), (d2 p u); try contradiction; try subst
      | falsy _ => destruct x eqn:?
      | truthy _ => destruct x eqn:?
      | bool_decide _ => destruct x eqn:?
      | user _ => destruct x eqn:?
      | biometricEnabled _ => destruct x eqn:?
      | isAuthenticated _ => destruct x eqn:?
      | String.eqb _ _ => destruct x eqn:?
      | andb _ _ => destruct x eqn:?
      | negb ?y => destruct y eqn:?; cbn [negb]
      | _ => is_var x; destruct x
      end
  end.

Lemma alike_step e w1 w2 : alike w1 w2 -> alike (step d1 e w1) (step d2 e w2).
Proof.
  intros [H1 H2 H3 H4 H5 H6 H7 H8 H9 H10].
  destruct w1 as [[u1 at1 rt1 k1 ia1 il1 er1] c1 s1 kc1 ws1].
  destruct w2 as [[u2 at2 rt2 k2 ia2 il2 er2] c2 s2 kc2 ws2].
  cbn [auth screen secure keychain writes user accessToken refreshToken
       isAuthenticated isLoading error] in *.
  subst.
  destruct e as [email pw post | email pw first last post | post | | | | pw | next
                | text | compatible enrolled authenticate | authenticate |
                | fresh fallback | available];
    unfold_actions;
    cbn [user accessToken refreshToken encryptionKey isAuthenticated isLoading error];
    repeat (branch2; run_action;
            cbn [user accessToken refreshToken encryptionKey isAuthenticated
                 isLoading error begin_loading]).
  all: split; reflexivity.
Qed.

Theorem alike_run events w : alike (run d1 events w) (run d2 events w).
Proof.
  induction events as [|e events IH] using rev_ind.
  - split; reflexivity.
  - unfold run. rewrite !fold_left_app. cbn [fold_left].
    apply alike_step, IH.
Qed.

End KeyIndependence.



(** What the sample session hands to the secure store, run with a key
    derivation that returns the same key for every input: the two tokens
    (once by the service, once by the store), the master password, and the
    device identifier. *)
Example sample_session_writes :
  rev (writes (run (fun _ _ => Ok (js "AAAA")) sample_session
                   (boot opted_in_store true))) =
  [(ENV.ACCESS_TOKEN, js "access-token"); (ENV.REFRESH_TOKEN, js "refresh-token");
   (ENV.ACCESS_TOKEN, js "access-token"); (ENV.REFRESH_TOKEN, js "refresh-token");
   (BIOMETRIC_PASSWORD, js "Sup3rSecret!");
   (DEVICE_ID_KEY, js "6f1c0a52-device")].
Proof. vm_compute. reflexivity. Qed.

(** * The validation utilities *)

(** ** Facts about the regular expressions *)

Module RegExpFacts.
Import RegExp.

Lemma one_or_more_some p k s :
  is_Some (one_or_more p k s) <->
  exists pre post, s = pre ++ post /\ pre <> [] /\ forallb p pre = true /\
                   is_Some (k post).
Proof.
  induction s as [|c s IH]; cbn [one_or_more].
  - split.
    + intros [? ?]; discriminate.
    + intros (pre & post & E & Hne & _). destruct pre; [congruence | discriminate].
  - destruct (p c) eqn:Hc.
    + split.
      * intros H.
        destruct (one_or_more p k s) eqn:Hm.
        -- destruct (proj1 IH (ex_intro _ _ eq_refl)) as (pre & post & -> & Hne & Hp & Hk).
           exists (c :: pre), post. cbn. rewrite Hc, Hp. auto with *.
        -- exists [c], s. cbn. rewrite Hc. auto with *.
      * intros (pre & post & E & Hne & Hp & Hk).
        destruct pre as [|c' pre]; [congruence|].
        cbn in E. injection E as <- ->. cbn in Hp.
        rewrite Hc in Hp. cbn in Hp.
        destruct pre as [|c'' pre].
        -- cbn in *. destruct (one_or_more p k post); [eauto | exact Hk].
        -- assert (is_Some (one_or_more p k ((c'' :: pre) ++ post))) as [r ->].
           { apply IH. exists (c'' :: pre), post. auto with *. }
           eauto.
    + split.
      * intros [? ?]; discriminate.
      * intros (pre & post & E & Hne & Hp & _).
        destruct pre as [|c' pre]; [congruence|].
        cbn in E. injection E as <- ->. cbn in Hp. rewrite Hc in Hp. discriminate.
Qed.

Lemma search_anchored r s :
  from_start r = true ->
  search r true s = true <-> is_Some (match_here (terms r) (to_end r) s).
Proof.
  intros Hr.
  assert (forall t, search r false t = false) as Hno.
  { induction t as [|c t IH]; cbn [search]; rewrite Hr; cbn; [reflexivity | exact IH]. }
  assert (search r true s =
          match match_here (terms r) (to_end r) s with Some _ => true | None => false end)
    as ->.
  { destruct s as [|c s]; cbn [search]; rewrite Hr; cbn [andb negb].
    - apply orb_false_r.
    - rewrite Hno. apply orb_false_r. }
  destruct (match_here _ _ _); split; eauto; try discriminate.
  intros [? ?]; discriminate.
Qed.

(** An unanchored test for one code unit of a set. *)
Lemma search_one p b s :
  search {| from_start := false; terms := [{| accepts := p; quantity := Once |}];
            to_end := false |} b s = existsb p s.
Proof.
  revert b. induction s as [|c s IH]; intros b; cbn [search existsb].
  - reflexivity.
  - cbn. rewrite IH. destruct (p c); reflexivity.
Qed.

End RegExpFacts.

Lemma test_unanchored p s :
  RegExp.test (Validation.unanchored p) s = existsb p s.
Proof. apply RegExpFacts.search_one. Qed.

Module ValidationFacts.
Import RegExp Validation.

(** ** Facts about [replace] and [trim] *)

Lemma digit_not_space c : digit c = true -> space c = false.
Proof.
  unfold digit, space. intros H.
  apply andb_true_iff in H. destruct H as [H1 H2].
  apply Z.leb_le in H1, H2.
  repeat match goal with
         | |- context [?a <=? ?b] => destruct (Z.leb_spec a b); try lia
         | |- context [?a =? ?b] => destruct (Z.eqb_spec a b); try lia
         end; reflexivity.
Qed.

Lemma strip_non_digits_from fuel b s :
  (length s < fuel)%nat ->
  replace_from fuel (unanchored non_digit) (fun _ => []) b s = digits_of s.
Proof.
  revert b s. induction fuel as [|fuel IH]; intros b s Hlen; [lia|].
  destruct s as [|c s]; [reflexivity|].
  cbn [replace_from from_start unanchored andb terms to_end match_here one
       quantity accepts].
  cbn [length] in Hlen.
  unfold digits_of. cbn [List.filter]. fold (digits_of s).
  unfold non_digit at 1.
  destruct (digit c) eqn:Hc; cbn [negb].
  - rewrite IH by lia. reflexivity.
  - replace (length (c :: s) - length s)%nat with 1%nat by (cbn [length]; lia).
    cbn [firstn app]. rewrite IH by lia. reflexivity.
Qed.

Lemma strip_non_digits s :
  replace_all (unanchored non_digit) (fun _ => []) s = digits_of s.
Proof. apply strip_non_digits_from. lia. Qed.

Lemma digits_of_digits s : forallb digit (digits_of s) = true.
Proof.
  unfold digits_of. induction s as [|c s IH]; [reflexivity|].
  cbn [List.filter]. destruct (digit c) eqn:Hc; [|exact IH].
  cbn. rewrite Hc. exact IH.
Qed.

Lemma digits_of_id s : forallb digit s = true -> digits_of s = s.
Proof.
  unfold digits_of. induction s as [|c s IH]; [reflexivity|].
  cbn. intros H. apply andb_true_iff in H. destruct H as [-> H].
  f_equal. auto.
Qed.

Lemma digits_of_app s t : digits_of (s ++ t) = digits_of s ++ digits_of t.
Proof. apply List.filter_app. Qed.

Lemma digits_of_rev s : digits_of (rev s) = rev (digits_of s).
Proof.
  unfold digits_of. induction s as [|c s IH]; [reflexivity|].
  cbn [rev List.filter]. rewrite List.filter_app, IH. cbn [List.filter].
  destruct (digit c); [reflexivity | apply app_nil_r].
Qed.

Lemma digits_of_trim_start s : digits_of (trim_start s) = digits_of s.
Proof.
  induction s as [|c s IH]; [reflexivity|].
  cbn [trim_start]. destruct (space c) eqn:Hc; [|reflexivity].
  rewrite IH. unfold digits_of. cbn [List.filter].
  destruct (digit c) eqn:Hd; [|reflexivity].
  apply digit_not_space in Hd. congruence.
Qed.

Lemma digits_of_trim s : digits_of (trim s) = digits_of s.
Proof.
  unfold trim.
  rewrite digits_of_rev, digits_of_trim_start, digits_of_rev, rev_involutive.
  apply digits_of_trim_start.
Qed.

Section ByFour.
Variable P : list Z -> Prop.
Hypothesis short : forall s, (length s < 4)%nat -> P s.
Hypothesis long : forall a b c d s, P s -> P (a :: b :: c :: d :: s).

Lemma list_ind_by4 : forall s, P s.
Proof.
  intros s. remember (length s) as n eqn:Hn.
  revert s Hn. induction n as [n IH] using lt_wf_ind. intros s Hn.
  destruct s as [|a [|b [|c [|d s]]]]; try (apply short; cbn; lia).
  apply long. eapply IH; [|reflexivity]. subst n. cbn. lia.
Qed.
End ByFour.

Lemma group_digits_from fuel b ds :
  forallb digit ds = true -> (length ds < fuel)%nat ->
  replace_from fuel four_digits (fun group => group ++ js " ") b ds = spaced ds.
Proof.
  revert fuel b. induction ds as [ds Hshort | a b' c d ds IH] using list_ind_by4;
    intros fuel b Hd Hlen.
  - (* fewer than four digits: no match at any position *)
    assert (spaced ds = ds) as ->.
    { destruct ds as [|x [|y [|z [|u ds]]]]; try reflexivity. cbn in Hshort; lia. }
    clear Hd. revert fuel b Hlen.
    induction ds as [|x ds IHs]; intros fuel b Hlen.
    + destruct fuel; reflexivity.
    + destruct fuel as [|fuel]; [reflexivity|].
      cbn [replace_from from_start four_digits andb terms to_end match_here
           quantity accepts].
      assert (exactly digit 4 (x :: ds) = None) as ->.
      { destruct ds as [|y [|z [|u ds]]]; cbn in Hshort; try lia; cbn;
          repeat match goal with |- context [digit ?c] => destruct (digit c) end;
          reflexivity. }
      f_equal. apply IHs; cbn in *; lia.
  - destruct fuel as [|fuel]; [cbn in Hlen; lia|].
    cbn in Hd.
    repeat (apply andb_true_iff in Hd; let H := fresh "Hd" in destruct Hd as [H Hd]).
    cbn [replace_from from_start four_digits andb terms to_end match_here
         quantity accepts exactly].
    rewrite Hd0, Hd1, Hd2, Hd3.
    replace (length (a :: b' :: c :: d :: ds) - length ds)%nat with 4%nat
      by (cbn [length]; lia).
    cbn [firstn app js list_ascii_of_string map]. cbn [spaced].
    do 4 f_equal. change (Z.of_nat (nat_of_ascii " ")) with 32. f_equal.
    apply IH; [assumption | cbn in Hlen; lia].
Qed.

Lemma trim_start_app_keep s t :
  trim_start s <> [] -> trim_start (s ++ t) = trim_start s ++ t.
Proof.
  induction s as [|c s IH]; [intros H; exfalso; apply H; reflexivity|].
  cbn [trim_start app]. destruct (space c); [exact IH | reflexivity].
Qed.

Lemma trim_start_digit c s : digit c = true -> trim_start (c :: s) = c :: s.
Proof. intros H. cbn. rewrite (digit_not_space _ H). reflexivity. Qed.

Lemma trim_end_snoc_digit s c : digit c = true -> trim_end (s ++ [c]) = s ++ [c].
Proof.
  intros H. unfold trim_end. rewrite rev_app_distr. cbn [rev app].
  rewrite trim_start_digit by assumption.
  cbn [rev]. rewrite rev_involutive. reflexivity.
Qed.

Lemma trim_end_cons_keep c s : trim_end s <> [] -> trim_end (c :: s) = c :: trim_end s.
Proof.
  unfold trim_end. intros H. cbn [rev].
  rewrite trim_start_app_keep.
  - rewrite rev_app_distr. reflexivity.
  - intros E. rewrite E in H. apply H. reflexivity.
Qed.

Lemma trim_end_app_keep p s : trim_end s <> [] -> trim_end (p ++ s) = p ++ trim_end s.
Proof.
  intros H. induction p as [|c p IH]; [reflexivity|].
  cbn [app]. rewrite trim_end_cons_keep; rewrite IH; [reflexivity|].
  destruct p; [exact H | discriminate].
Qed.

Lemma trim_end_grouped ds :
  forallb digit ds = true -> trim_end (spaced ds) = grouped ds /\
  (ds <> [] -> grouped ds <> []).
Proof.
  induction ds as [ds Hshort | a b c d ds IH] using list_ind_by4; intros Hd.
  - assert (spaced ds = ds /\ grouped ds = ds) as [-> ->].
    { destruct ds as [|x [|y [|z [|u ds]]]]; try (split; reflexivity). cbn in Hshort; lia. }
    split; [|auto].
    destruct (rev ds) as [|l r] eqn:Hr.
    + unfold trim_end. rewrite Hr. cbn.
      apply (f_equal (@rev Z)) in Hr. rewrite rev_involutive in Hr. auto.
    + apply (f_equal (@rev Z)) in Hr. rewrite rev_involutive in Hr. cbn in Hr.
      subst ds. apply trim_end_snoc_digit.
      rewrite forallb_app in Hd. apply andb_true_iff in Hd. destruct Hd as [_ Hd].
      cbn in Hd. rewrite andb_true_r in Hd. exact Hd.
  - cbn in Hd.
    repeat (apply andb_true_iff in Hd; let H := fresh "Hd" in destruct Hd as [H Hd]).
    destruct (IH Hd) as [IH1 IH2].
    split; [|destruct ds; discriminate].
    cbn [spaced grouped].
    destruct ds as [|e ds].
    + cbn [spaced]. unfold trim_end. cbn [rev app trim_start].
      change (space 32) with true. cbv iota.
      rewrite (digit_not_space _ Hd3). reflexivity.
    + assert (trim_end (spaced (e :: ds)) <> []) as Hne.
      { rewrite IH1. apply IH2. discriminate. }
      change (a :: b :: c :: d :: 32 :: spaced (e :: ds))
        with ([a; b; c; d; 32] ++ spaced (e :: ds)).
      rewrite trim_end_app_keep by exact Hne.
      rewrite IH1. reflexivity.
Qed.

Lemma trim_spaced ds : forallb digit ds = true -> trim (spaced ds) = grouped ds.
Proof.
  intros Hd.
  assert (trim_start (spaced ds) = spaced ds) as E.
  { destruct ds as [|x ds]; [reflexivity|].
    cbn in Hd. apply andb_true_iff in Hd. destruct Hd as [Hx _].
    destruct ds as [|y [|z [|u ds]]]; cbn [spaced]; apply trim_start_digit; exact Hx. }
  unfold trim. rewrite E. apply trim_end_grouped. exact Hd.
Qed.

Lemma luhn_loop cs : forall s e,
  forallb digit cs = true ->
  fst (fold_left luhn_step cs (Some s, e)) = Some (s + luhn_total e cs).
Proof.
  induction cs as [|c cs IH]; intros s e Hd.
  - cbn. f_equal. lia.
  - cbn in Hd. apply andb_true_iff in Hd. destruct Hd as [Hc Hd].
    cbn [fold_left luhn_step luhn_total]. unfold parseInt. rewrite Hc.
    destruct e; cbn [negb luhn_weight]; rewrite IH by assumption; f_equal.
    + rewrite (Z.mul_comm (c - 48) 2). lia.
    + lia.
Qed.

Lemma forallb_rev_true {A} (p : A -> bool) l :
  forallb p l = true -> forallb p (rev l) = true.
Proof.
  rewrite !forallb_forall. intros H x Hx. apply H, in_rev, Hx.
Qed.

Lemma isValidCardNumber_luhn s :
  isValidCardNumber s =
  let ds := digits_of s in
  (13 <=? length ds)%nat && (length ds <=? 19)%nat
  && (luhn_total false (rev ds) mod 10 =? 0).
Proof.
  unfold isValidCardNumber. rewrite strip_non_digits. cbv zeta.
  destruct (Nat.ltb_spec (length (digits_of s)) 13) as [H|H]; cbn [orb].
  - destruct (Nat.leb_spec 13 (length (digits_of s))); [lia | reflexivity].
  - destruct (Nat.leb_spec 13 (length (digits_of s))) as [_|]; [|lia]. cbn [andb].
    destruct (Nat.ltb_spec 19 (length (digits_of s))) as [H'|H'].
    + destruct (Nat.leb_spec (length (digits_of s)) 19); [lia | reflexivity].
    + destruct (Nat.leb_spec (length (digits_of s)) 19) as [_|]; [|lia]. cbn [andb].
      pose proof (luhn_loop (rev (digits_of s)) 0 false) as L.
      specialize (L (forallb_rev_true _ _ (digits_of_digits s))).
      destruct (fold_left luhn_step _ _) as [sum e]. cbn in L. subst sum.
      reflexivity.
Qed.

Lemma luhn_total_app l1 c l2 e :
  luhn_total e (l1 ++ c :: l2) =
  luhn_total e l1
  + luhn_weight (xorb e (Nat.odd (length l1))) (c - 48)
  + luhn_total (negb (xorb e (Nat.odd (length l1)))) l2.
Proof.
  revert e. induction l1 as [|x l1 IH]; intros e.
  - cbn. rewrite xorb_false_r. lia.
  - cbn [app luhn_total length]. rewrite IH.
    rewrite Nat.odd_succ, <- Nat.negb_odd.
    replace (xorb (negb e) (Nat.odd (length l1)))
      with (xorb e (negb (Nat.odd (length l1))))
      by (destruct e, (Nat.odd (length l1)); reflexivity).
    lia.
Qed.

Lemma luhn_weight_injective e d d' :
  0 <= d <= 9 -> 0 <= d' <= 9 ->
  (luhn_weight e d - luhn_weight e d') mod 10 = 0 -> d = d'.
Proof.
  unfold luhn_weight. intros Hd Hd'.
  destruct e;
    repeat match goal with
           | |- context [?a <? ?b] => destruct (Z.ltb_spec a b)
           end;
    intros Hm; apply Z.mod_divide in Hm; try lia;
    destruct Hm as [k Hm]; lia.
Qed.

Lemma digit_value c : digit c = true -> 0 <= c - 48 <= 9.
Proof.
  unfold digit. intros H. apply andb_true_iff in H. destruct H as [H1 H2].
  apply Z.leb_le in H1, H2. lia.
Qed.

Lemma digits_of_cons_digit c s :
  digit c = true -> digits_of (c :: s) = c :: digits_of s.
Proof. intros H. unfold digits_of. cbn [List.filter]. rewrite H. reflexivity. Qed.

Lemma formatCardNumber_grouped cardNumber :
  formatCardNumber cardNumber = grouped (digits_of cardNumber).
Proof.
  unfold formatCardNumber. rewrite strip_non_digits.
  unfold replace_all. rewrite group_digits_from.
  - apply trim_spaced, digits_of_digits.
  - apply digits_of_digits.
  - lia.
Qed.

Lemma digits_of_formatCardNumber cardNumber :
  digits_of (formatCardNumber cardNumber) = digits_of cardNumber.
Proof.
  unfold formatCardNumber. rewrite digits_of_trim, strip_non_digits.
  unfold replace_all. rewrite group_digits_from by (try apply digits_of_digits; lia).
  generalize (digits_of_digits cardNumber).
  induction (digits_of cardNumber) as [ds Hshort | a b c d ds IH] using list_ind_by4;
    intros Hd.
  - assert (spaced ds = ds) as ->.
    { destruct ds as [|x [|y [|z [|u ds]]]]; try reflexivity. cbn in Hshort; lia. }
    apply digits_of_id, Hd.
  - cbn in Hd.
    repeat (apply andb_true_iff in Hd; let H := fresh "Hd" in destruct Hd as [H Hd]).
    cbn [spaced]. unfold digits_of. cbn [List.filter].
    rewrite Hd0, Hd1, Hd2, Hd3. change (digit 32) with false. cbv iota.
    do 4 f_equal. apply IH, Hd.
Qed.

End ValidationFacts.

(** X1. [isValidEmail] accepts exactly the strings of the form
    local@domain.tail in which the three parts are not empty and contain
    neither white space nor an at sign (further dots are allowed in any
    part). *)
Theorem isValidEmail_iff email :
  Validation.isValidEmail email = true <->
  exists a b c,
    email = a ++ js "@" ++ b ++ js "." ++ c /\
    email_part a = true /\ email_part b = true /\ email_part c = true.
Proof.
  unfold Validation.isValidEmail, RegExp.test.
  rewrite RegExpFacts.search_anchored by reflexivity.
  cbn [RegExp.terms RegExp.to_end Validation.emailRegex RegExp.match_here
       RegExp.quantity Validation.many Validation.one RegExp.accepts].
  rewrite RegExpFacts.one_or_more_some.
  unfold email_part.
  split.
  - intros (a & rest & -> & Ha & Hpa & Hk).
    destruct rest as [|at_ rest]; [destruct Hk; discriminate|].
    destruct (RegExp.literal "@" at_) eqn:Hat; [|destruct Hk; discriminate].
    apply RegExpFacts.one_or_more_some in Hk.
    destruct Hk as (b & rest' & -> & Hb & Hpb & Hk).
    destruct rest' as [|dot rest']; [destruct Hk; discriminate|].
    destruct (RegExp.literal "." dot) eqn:Hdot; [|destruct Hk; discriminate].
    apply RegExpFacts.one_or_more_some in Hk.
    destruct Hk as (c & rest'' & -> & Hc & Hpc & Hk).
    destruct rest''; [|destruct Hk; discriminate].
    exists a, b, c. rewrite app_nil_r.
    apply Z.eqb_eq in Hat, Hdot. subst.
    rewrite Hpa, Hpb, Hpc.
    destruct a, b, c; try congruence. auto.
  - intros (a & b & c & -> & Ha & Hb & Hc).
    apply andb_true_iff in Ha, Hb, Hc.
    destruct Ha as [Ha Hpa], Hb as [Hb Hpb], Hc as [Hc Hpc].
    exists a, (js "@" ++ b ++ js "." ++ c). repeat split; auto.
    { destruct a; [discriminate | congruence]. }
    cbn. apply RegExpFacts.one_or_more_some.
    exists b, (js "." ++ c). repeat split; auto.
    { destruct b; [discriminate | congruence]. }
    cbn. apply RegExpFacts.one_or_more_some.
    exists c, []. rewrite app_nil_r. repeat split; auto.
    { destruct c; [discriminate | congruence]. }
Qed.

(** X2. [formatCardNumber] returns the decimal digits of its argument in
    groups of four separated by single spaces, with no space at either end;
    every other character of the argument is dropped. *)
Theorem formatCardNumber_groups cardNumber :
  Validation.formatCardNumber cardNumber = grouped (digits_of cardNumber).
Proof.
  unfold Validation.formatCardNumber. rewrite ValidationFacts.strip_non_digits.
  unfold RegExp.replace_all. rewrite ValidationFacts.group_digits_from.
  - apply ValidationFacts.trim_spaced, ValidationFacts.digits_of_digits.
  - apply ValidationFacts.digits_of_digits.
  - lia.
Qed.

(** X3. The Luhn check of [isValidCardNumber] detects every single
    mistyped digit: if a card number is accepted, the number obtained by
    replacing one of its digits by a different digit is rejected, whatever
    separators the two strings contain. *)
Theorem luhn_detects_single_digit_error pre post d d' :
  RegExp.digit d = true -> RegExp.digit d' = true -> d <> d' ->
  Validation.isValidCardNumber (pre ++ d :: post) = true ->
  Validation.isValidCardNumber (pre ++ d' :: post) = false.
Proof.
  intros Hd Hd' Hne. rewrite !ValidationFacts.isValidCardNumber_luhn. cbv zeta.
  rewrite !ValidationFacts.digits_of_app, !ValidationFacts.digits_of_cons_digit
    by assumption.
  rewrite !length_app. cbn [length].
  rewrite !rev_app_distr. cbn [rev]. rewrite <- !app_assoc. cbn [app].
  rewrite !ValidationFacts.luhn_total_app.
  set (A := luhn_total false (rev (digits_of post))).
  set (e := xorb false (Nat.odd (length (rev (digits_of post))))).
  set (B := luhn_total (negb e) (rev (digits_of pre))).
  intros H. apply andb_true_iff in H. destruct H as [Hlen H].
  rewrite Hlen. cbn [andb].
  apply Z.eqb_eq in H. apply Z.eqb_neq. intros H'.
  apply Hne.
  assert (d - 48 = d' - 48) as E; [|lia].
  apply (ValidationFacts.luhn_weight_injective e);
    auto using ValidationFacts.digit_value.
  apply Z.mod_divide in H, H'; try lia.
  apply Z.mod_divide; try lia.
  destruct H as [k H], H' as [k' H']. exists (k - k'). lia.
Qed.

Lemma luhn_detects_single_digit_error_witness :
  Validation.isValidCardNumber (js "4111 1111 1111 1117") = false.
Proof.
  apply (luhn_detects_single_digit_error (js "4111 1111 1111 111") [] 49 55);
    [reflexivity | reflexivity | lia | vm_compute; reflexivity].
Defined.

(** X4. Formatting does not change the verdict of the card check, and
    formatting twice is formatting once. *)
Theorem formatCardNumber_keeps_validity cardNumber :
  Validation.isValidCardNumber (Validation.formatCardNumber cardNumber) =
    Validation.isValidCardNumber cardNumber /\
  Validation.formatCardNumber (Validation.formatCardNumber cardNumber) =
    Validation.formatCardNumber cardNumber.
Proof.
  pose proof (ValidationFacts.digits_of_formatCardNumber cardNumber) as E.
  split.
  - rewrite !ValidationFacts.isValidCardNumber_luhn. rewrite E. reflexivity.
  - rewrite (ValidationFacts.formatCardNumber_grouped
               (Validation.formatCardNumber cardNumber)), E.
    symmetry. apply ValidationFacts.formatCardNumber_grouped.
Qed.

(** * More about the cipher and [verifyMasterPassword] *)

Lemma code_units_decide s :
  forallb (fun c => (0 <=? c) && (c <=? 0xFFFF)) s = true -> code_units s.
Proof.
  intros H. apply List.Forall_forall. intros c Hc.
  rewrite forallb_forall in H. specialize (H c Hc).
  apply andb_true_iff in H. destruct H as [H1 H2].
  apply Z.leb_le in H1, H2. lia.
Qed.

Lemma nonce_draw_decide random :
  (length random =? 12)%nat && forallb (fun b => (0 <=? b) && (b <? 256)) random = true ->
  nonce_draw random.
Proof.
  intros H. apply andb_true_iff in H. destruct H as [Hl H].
  apply Nat.eqb_eq in Hl. split; [exact Hl|].
  apply List.Forall_forall. intros c Hc.
  rewrite forallb_forall in H. specialize (H c Hc).
  apply andb_true_iff in H. destruct H as [H1 H2].
  apply Z.leb_le in H1. apply Z.ltb_lt in H2. unfold octet. lia.
Qed.

Lemma to_scalars_code_units s :
  code_units s -> Forall TextSpec.scalar (Text.to_scalars s).
Proof.
  induction s as [s IH] using TextFacts.length_induction. intros Hs.
  destruct s as [|c rest]; [constructor|].
  inversion Hs as [|? ? Hc Hrest]; subst.
  assert (TextSpec.scalar Text.REPLACEMENT) as Hrep.
  { unfold TextSpec.scalar, Text.REPLACEMENT. lia. }
  cbn [Text.to_scalars].
  destruct (Text.is_high c) eqn:Hh.
  - destruct rest as [|d rest'].
    + constructor; [assumption | constructor].
    + destruct (Text.is_low d) eqn:Hl.
      * constructor; [apply TextFacts.pair_scalar; assumption|].
        apply IH; [cbn; lia|]. inversion Hrest; assumption.
      * constructor; [assumption|]. apply IH; [cbn; lia | assumption].
  - destruct (Text.is_low c) eqn:Hl.
    + constructor; [assumption|]. apply IH; [cbn; lia | assumption].
    + constructor; [apply TextFacts.unit_scalar; assumption|].
      apply IH; [cbn; lia | assumption].
Qed.

Lemma encode_octets_code_units s : code_units s -> octets (Text.encode s).
Proof.
  intros Hs. unfold Text.encode.
  pose proof (to_scalars_code_units s Hs) as H.
  induction H as [|cp cps Hcp _ IH]; [constructor|].
  cbn [flat_map]. apply Forall_app. split; [|exact IH].
  apply TextFacts.encode_scalar_octets, Hcp.
Qed.

Lemma importKey_ok kb : aes_key_bytes kb -> Subtle.importKey_AES_GCM kb = Ok kb.
Proof.
  unfold Subtle.importKey_AES_GCM. intros [-> | [-> | ->]]; reflexivity.
Qed.

Lemma importKey_inv kb key :
  Subtle.importKey_AES_GCM kb = Ok key -> key = kb /\ aes_key_bytes kb.
Proof.
  unfold Subtle.importKey_AES_GCM, aes_key_bytes.
  destruct (Nat.eqb_spec (length kb) 16); cbn [orb].
  { intros [= <-]. auto. }
  destruct (Nat.eqb_spec (length kb) 24); cbn [orb].
  { intros [= <-]. auto. }
  destruct (Nat.eqb_spec (length kb) 32); cbn [orb].
  { intros [= <-]. auto. }
  discriminate.
Qed.

Lemma importKey_fails kb :
  ~ aes_key_bytes kb -> Subtle.importKey_AES_GCM kb = Throw DataError.
Proof.
  intros H. destruct (Subtle.importKey_AES_GCM kb) eqn:E.
  - apply importKey_inv in E. tauto.
  - unfold Subtle.importKey_AES_GCM in E.
    destruct (_ || _); [discriminate | congruence].
Qed.

Lemma base64ToBytes_empty : base64ToBytes [] = Ok [].
Proof. reflexivity. Qed.

(** The record [encryptData] returns for a key of any accepted size. *)
Lemma encryptData_sealed p k kb random :
  p <> [] -> code_units p ->
  base64ToBytes k = Ok kb -> aes_key_bytes kb -> nonce_draw random ->
  encryptData p k random = Ok (sealed_record kb random (Text.encode p)).
Proof.
  intros Hp Hcu Hk Hkl [Hrl Hro].
  assert (Hkt : truthy k = true).
  { destruct k; [|reflexivity]. rewrite base64ToBytes_empty in Hk.
    injection Hk as <-. destruct Hkl as [H | [H | H]]; discriminate H. }
  unfold encryptData. rewrite (truthy_nonempty p Hp), Hkt. cbn [negb].
  rewrite Hk. cbn [bind_result].
  rewrite importKey_ok by assumption. cbn [bind_result].
  unfold Subtle.encrypt_AES_GCM.
  destruct random as [|r0 random']; [discriminate|].
  set (random := r0 :: random') in *. cbn [bind_result].
  rewrite GCMFacts.seal_split.
  set (E := GCM.block_cipher kb).
  set (c := GCMSpec.sealed_text E random (Text.encode p)).
  set (t := GCM.tag E (GCM.J0 E random) c).
  assert (Ht : length t = 16%nat) by apply GCMFacts.tag_length.
  rewrite slice_front, slice_back by assumption.
  assert (Hco : octets c)
    by (apply GCMFacts.sealed_text_octets, encode_octets_code_units; assumption).
  rewrite !bytesToBase64_ok
    by (assumption || apply GCMFacts.tag_octets).
  reflexivity.
Qed.

Lemma encryptData_guarded p k random :
  p <> [] -> k <> [] ->
  encryptData p k random =
  try_catch
    (let* keyBytes := base64ToBytes k in
     let* cryptoKey := Subtle.importKey_AES_GCM keyBytes in
     let* encryptedBuffer :=
       Subtle.encrypt_AES_GCM random cryptoKey (Text.encode p) in
     let* encryptedData64 := bytesToBase64 (slice encryptedBuffer 0 (Some (-16))) in
     let* iv64 := bytesToBase64 random in
     let* authTag64 := bytesToBase64 (slice encryptedBuffer (-16) None) in
     Ok {| encryptedData := Some encryptedData64; iv := Some iv64;
           authTag := Some authTag64 |})
    (fun _ => Throw (Error "Failed to encrypt data")).
Proof.
  intros Hp Hk. unfold encryptData.
  rewrite !truthy_nonempty by assumption. reflexivity.
Qed.

Lemma encryptData_is_ok_inv p k random :
  is_ok (encryptData p k random) = true ->
  p <> [] /\ exists kb, base64ToBytes k = Ok kb /\ aes_key_bytes kb.
Proof.
  intros Hok.
  destruct p as [|c p]; [discriminate Hok|].
  destruct k as [|x k]; [discriminate Hok|].
  split; [discriminate|].
  rewrite encryptData_guarded in Hok by discriminate.
  destruct (base64ToBytes (x :: k)) as [kb|] eqn:Hk; [|discriminate Hok].
  exists kb. split; [reflexivity|]. cbn [bind_result] in Hok.
  destruct (Subtle.importKey_AES_GCM kb) eqn:Hi; [|discriminate Hok].
  apply importKey_inv in Hi. tauto.
Qed.

(** X5. On a plaintext of UTF-16 code units and a twelve-octet nonce,
    [encryptData] returns a record exactly when the plaintext is not empty
    and the key is the base64 text of 16, 24 or 32 octets; whenever it
    throws, the message is one of its own three. *)
Theorem encryptData_succeeds_iff p k random :
  code_units p -> nonce_draw random ->
  (is_ok (encryptData p k random) = true <->
   p <> [] /\ exists kb, base64ToBytes k = Ok kb /\ aes_key_bytes kb) /\
  (forall e, encryptData p k random = Throw e ->
             e = Error "Plaintext data is required" \/
             e = Error "Encryption key is required" \/
             e = Error "Failed to encrypt data").
Proof.
  intros Hcu Hrandom.
  destruct p as [|c p].
  { split; [split; [discriminate | intros [H _]; congruence]|].
    intros e [= <-]. auto. }
  destruct k as [|x k].
  { split.
    - split; [discriminate|]. intros (_ & kb & Hk & Hkb).
      rewrite base64ToBytes_empty in Hk. injection Hk as <-.
      destruct Hkb as [H | [H | H]]; discriminate H.
    - intros e [= <-]. auto. }
  split.
  - split.
    + apply encryptData_is_ok_inv.
    + intros (_ & kb & Hk & Hkb).
      rewrite (encryptData_sealed _ _ kb) by (assumption || discriminate).
      reflexivity.
  - intros e. rewrite encryptData_guarded by discriminate.
    unfold try_catch. destruct (bind_result _ _); [discriminate|].
    intros [= <-]. auto.
Qed.

Lemma encryptData_succeeds_iff_witness :
  is_ok (encryptData (js "hello") sample_key sample_nonce) = true <->
  js "hello" <> [] /\
  exists kb, base64ToBytes sample_key = Ok kb /\ aes_key_bytes kb.
Proof.
  apply (proj1 (encryptData_succeeds_iff (js "hello") sample_key sample_nonce
                  (code_units_decide (js "hello") eq_refl)
                  (nonce_draw_decide sample_nonce eq_refl))).
Defined.

Lemma encryptData_inv p k random r :
  code_units p -> nonce_draw random ->
  encryptData p k random = Ok r ->
  p <> [] /\ exists kb, base64ToBytes k = Ok kb /\ aes_key_bytes kb /\
                        r = sealed_record kb random (Text.encode p).
Proof.
  intros Hcu Hrandom H.
  destruct (encryptData_is_ok_inv p k random) as (Hp & kb & Hk & Hkb).
  { rewrite H. reflexivity. }
  split; [assumption|]. exists kb. repeat split; try assumption.
  rewrite (encryptData_sealed _ _ kb) in H by assumption. congruence.
Qed.

(** X6. A record returned by [encryptData] has three non-empty base64
    fields: the ciphertext, as long as the UTF-8 encoding of the plaintext;
    the nonce that was drawn; and a tag of 16 octets. *)
Theorem encrypted_record_shape p k random r :
  code_units p -> nonce_draw random ->
  encryptData p k random = Ok r ->
  exists ciphertext tag,
    base64ToBytes (field (encryptedData r)) = Ok ciphertext /\
    length ciphertext = length (Text.encode p) /\
    base64ToBytes (field (iv r)) = Ok random /\
    base64ToBytes (field (authTag r)) = Ok tag /\
    length tag = 16%nat /\
    missing_field (Some r) = false.
Proof.
  intros Hcu Hrandom H.
  destruct (encryptData_inv _ _ _ _ Hcu Hrandom H) as (Hp & kb & Hk & Hkb & ->).
  destruct Hrandom as [Hrl Hro].
  unfold sealed_record. cbv zeta. cbn [encryptedData iv authTag field missing_field falsy].
  set (E := GCM.block_cipher kb).
  set (c := GCMSpec.sealed_text E random (Text.encode p)).
  set (t := GCM.tag E (GCM.J0 E random) c).
  assert (Hco : octets c)
    by (apply GCMFacts.sealed_text_octets, encode_octets_code_units; assumption).
  assert (Hcl : length c = length (Text.encode p))
    by apply GCMFacts.sealed_text_length.
  assert (Hpl : (0 < length (Text.encode p))%nat).
  { pose proof (TextFacts.encode_nonempty p Hp).
    destruct (Text.encode p); [congruence | cbn; lia]. }
  assert (Hto : octets t) by apply GCMFacts.tag_octets.
  assert (Htl : length t = 16%nat) by apply GCMFacts.tag_length.
  exists c, t.
  rewrite !base64ToBytes_encode by assumption.
  rewrite !truthy_encode_groups by (assumption || lia).
  repeat split; try reflexivity; assumption.
Qed.

Lemma encrypted_record_shape_witness :
  exists ciphertext tag,
    base64ToBytes (field (encryptedData hello_record)) = Ok ciphertext /\
    length ciphertext = length (Text.encode (js "hello")) /\
    base64ToBytes (field (iv hello_record)) = Ok sample_nonce /\
    base64ToBytes (field (authTag hello_record)) = Ok tag /\
    length tag = 16%nat /\
    missing_field (Some hello_record) = false.
Proof.
  apply (encrypted_record_shape (js "hello") sample_key sample_nonce hello_record).
  - apply code_units_decide. reflexivity.
  - apply nonce_draw_decide. reflexivity.
  - vm_compute. reflexivity.
Defined.

Lemma same_bytes_inv (a b : bytes) :
  length a = length b ->
  forallb (fun p => fst p =? snd p) (combine a b) = true -> a = b.
Proof.
  revert b. induction a as [|x a IH]; intros [|y b] Hl H; try discriminate.
  - reflexivity.
  - cbn in H. apply andb_true_iff in H. destruct H as [Hxy H].
    apply Z.eqb_eq in Hxy. subst y. f_equal. apply IH; [|exact H].
    cbn in Hl. lia.
Qed.

Lemma open_wrong_tag E iv c tag' :
  length tag' = 16%nat -> tag' <> GCM.tag E (GCM.J0 E iv) c ->
  GCM.open E iv (c ++ tag') = None.
Proof.
  intros Hl Hne. unfold GCM.open.
  rewrite length_app, Hl.
  destruct (Nat.ltb_spec (length c + 16) 16); [lia|].
  replace (length c + 16 - 16)%nat with (length c) by lia.
  rewrite firstn_app, Nat.sub_diag, firstn_all. cbn [firstn]. rewrite app_nil_r.
  rewrite skipn_app, Nat.sub_diag, skipn_all. cbn [skipn app].
  destruct (forallb _ _) eqn:Hf; [|reflexivity].
  exfalso. apply Hne. apply same_bytes_inv; [|exact Hf].
  rewrite GCMFacts.tag_length. exact Hl.
Qed.

(** X7. Replacing the tag of a record that [encryptData] returned by the
    base64 text of any other 16 octets makes [decryptData] under the same
    key fail with its decryption error. *)
Theorem tampered_tag_is_rejected p k random r tag64 tag' :
  code_units p -> nonce_draw random ->
  encryptData p k random = Ok r ->
  base64ToBytes tag64 = Ok tag' -> length tag' = 16%nat ->
  base64ToBytes (field (authTag r)) <> Ok tag' ->
  decryptData (Some (with_tag r tag64)) k = Throw DECRYPTION_FAILED.
Proof.
  intros Hcu Hrandom H Htag Hl Hne.
  destruct (encryptData_inv _ _ _ _ Hcu Hrandom H) as (Hp & kb & Hk & Hkb & ->).
  destruct Hrandom as [Hrl Hro].
  unfold with_tag, sealed_record in *. cbv zeta in *.
  cbn [encryptedData iv authTag field] in *.
  set (E := GCM.block_cipher kb) in *.
  set (c := GCMSpec.sealed_text E random (Text.encode p)) in *.
  set (t := GCM.tag E (GCM.J0 E random) c) in *.
  assert (Hco : octets c)
    by (apply GCMFacts.sealed_text_octets, encode_octets_code_units; assumption).
  assert (Hcl : length c = length (Text.encode p))
    by apply GCMFacts.sealed_text_length.
  assert (Hpl : (0 < length (Text.encode p))%nat).
  { pose proof (TextFacts.encode_nonempty p Hp).
    destruct (Text.encode p); [congruence | cbn; lia]. }
  assert (Hto : octets t) by apply GCMFacts.tag_octets.
  rewrite base64ToBytes_encode in Hne by assumption.
  assert (Hkt : truthy k = true).
  { destruct k; [|reflexivity]. rewrite base64ToBytes_empty in Hk.
    injection Hk as <-. destruct Hkb as [Hb | [Hb | Hb]]; discriminate Hb. }
  assert (Htt : truthy tag64 = true).
  { destruct tag64; [|reflexivity]. rewrite base64ToBytes_empty in Htag.
    injection Htag as <-. discriminate Hl. }
  unfold decryptData. cbn [encryptedData iv authTag falsy field].
  rewrite !truthy_encode_groups by (assumption || lia).
  rewrite Htt, Hkt. cbn [negb orb].
  rewrite Hk. cbn [bind_result].
  rewrite importKey_ok by assumption. cbn [bind_result].
  rewrite !base64ToBytes_encode by assumption. cbn [bind_result].
  rewrite Htag. cbn [bind_result].
  unfold Subtle.decrypt_AES_GCM.
  destruct random as [|r0 random']; [discriminate|].
  rewrite open_wrong_tag; [reflexivity | assumption |].
  intros ->. apply Hne. reflexivity.
Qed.

Lemma tampered_tag_is_rejected_witness :
  decryptData (Some hello_tampered) sample_key = Throw DECRYPTION_FAILED.
Proof.
  apply (tampered_tag_is_rejected (js "hello") sample_key sample_nonce hello_record
           (js "UupW4A46KeukH686kQo1yg==")
           [82; 234; 86; 224; 14; 58; 41; 235; 164; 31; 175; 58; 145; 10; 53; 202]).
  - apply code_units_decide. reflexivity.
  - apply nonce_draw_decide. reflexivity.
  - vm_compute. reflexivity.
  - vm_compute. reflexivity.
  - reflexivity.
  - vm_compute. discriminate.
Defined.

(** ** [verifyMasterPassword] *)

(** X8. [verifyMasterPassword] returns [true] for the password and the
    account id whose derived key sealed the test record: for every password
    of at least 8 code units, every non-empty account id and every
    plaintext the text codec carries unchanged. *)
Theorem verifyMasterPassword_accepts masterPassword userId p random :
  (8 <= length masterPassword)%nat -> userId <> [] ->
  plain_text p -> nonce_draw random ->
  exists r,
    encryptData p (derive_reference masterPassword userId) random = Ok r /\
    verifyMasterPassword masterPassword userId (Some r) = Ok true.
Proof.
  intros Hlen Hid (Hp & Hwf & Hbom) Hrandom.
  pose proof (deriveEncryptionKey_ok masterPassword userId Hlen Hid) as Hd.
  fold (derive_reference masterPassword userId) in Hd.
  destruct (derived_key_valid _ _ _ Hd) as (kb & Hk & Hkl).
  exists (sealed_record kb random (Text.encode p)). split.
  - apply encryptData_ok; assumption.
  - unfold verifyMasterPassword. rewrite Hd. cbn [bind_result].
    rewrite (decryptData_sealed _ kb); try assumption.
    + reflexivity.
    + apply TextFacts.encode_octets, Hwf.
    + apply TextFacts.encode_nonempty, Hp.
Qed.

Lemma verifyMasterPassword_accepts_witness :
  exists r,
    encryptData (js "hello") (derive_reference (js "Sup3rSecret!") (js "user-42"))
                sample_nonce = Ok r /\
    verifyMasterPassword (js "Sup3rSecret!") (js "user-42") (Some r) = Ok true.
Proof.
  apply (verifyMasterPassword_accepts (js "Sup3rSecret!") (js "user-42") (js "hello")
                                      sample_nonce).
  - cbn. lia.
  - discriminate.
  - split; [discriminate | split; reflexivity].
  - apply nonce_draw_decide. reflexivity.
Defined.

(** X9. [verifyMasterPassword] never rejects: it returns a boolean for
    all arguments, and [false] when the password has fewer than 8 code
    units, the account id is empty or a field of the test record is
    missing. *)
Theorem verifyMasterPassword_never_throws masterPassword userId r :
  (exists verdict, verifyMasterPassword masterPassword userId r = Ok verdict) /\
  ((length masterPassword < 8)%nat \/ userId = [] \/ missing_field r = true ->
   verifyMasterPassword masterPassword userId r = Ok false).
Proof.
  unfold verifyMasterPassword. split.
  - destruct (deriveEncryptionKey masterPassword userId) as [key|]; cbn;
      [|eauto].
    destruct (decryptData r key); cbn; eauto.
  - intros [H | [H | H]].
    + destruct (Nat.ltb_spec (length masterPassword) 8) as [Hlt|]; [|lia].
      unfold deriveEncryptionKey. apply Nat.ltb_lt in Hlt.
      rewrite Hlt, orb_true_r. reflexivity.
    + subst userId. unfold deriveEncryptionKey.
      destruct (negb (truthy masterPassword) || (length masterPassword <? 8)%nat);
        reflexivity.
    + destruct (deriveEncryptionKey masterPassword userId) as [key|]; cbn;
        [|reflexivity].
      rewrite decryptData_missing_field by assumption. reflexivity.
Qed.

(** * The session: tokens, device identifier, screens and navigation *)

(** ** Tokens *)

(** X10. With the keychain available, the tokens written by [saveTokens]
    are what [getAccessToken] and [getRefreshToken] read back, no other
    entry of the secure store changes, and after [clearTokens] both reads
    return [null]. *)
Theorem saved_tokens_read_back (access refresh : jsstring) w :
  keychain w = true ->
  let saved := snd (saveTokens access refresh w) in
  let cleared := snd (clearTokens saved) in
  fst (saveTokens access refresh w) = Ok tt /\
  fst (getAccessToken saved) = Ok (Some access) /\
  fst (getRefreshToken saved) = Ok (Some refresh) /\
  (forall key, key <> ENV.ACCESS_TOKEN -> key <> ENV.REFRESH_TOKEN ->
               secure saved !! key = secure w !! key) /\
  fst (clearTokens saved) = Ok tt /\
  fst (getAccessToken cleared) = Ok None /\
  fst (getRefreshToken cleared) = Ok None.
Proof.
  intros Hk. destruct w as [a c s k ws]. cbn in Hk. subst k.
  unfold saveTokens, clearTokens, getAccessToken, getRefreshToken. run_action.
  repeat split.
  - f_equal. rewrite lookup_insert_ne by discriminate. apply lookup_insert_eq.
  - f_equal. apply lookup_insert_eq.
  - intros key H1 H2. rewrite !lookup_insert_ne by congruence. reflexivity.
  - f_equal. rewrite lookup_delete_ne by discriminate. apply lookup_delete_eq.
  - f_equal. apply lookup_delete_eq.
Qed.

Lemma saved_tokens_read_back_witness :
  fst (getAccessToken (snd (saveTokens (js "access-token") (js "refresh-token")
                                       (boot ∅ true)))) =
  Ok (Some (js "access-token")).
Proof.
  exact (proj1 (proj2 (saved_tokens_read_back (js "access-token") (js "refresh-token")
                                              (boot ∅ true) eq_refl))).
Defined.

(** ** The device identifier *)

(** X11. With the keychain available, [getDeviceId] returns a non-empty
    identifier (the stored one if a non-empty one is stored, else the
    generated one), leaves it in the secure store, and every later call
    returns the same identifier and changes nothing. *)
Theorem device_id_is_stable (fresh fallback : jsstring) w :
  keychain w = true -> fresh <> [] ->
  exists id,
    fst (getDeviceId fresh fallback w) = Ok id /\
    id <> [] /\
    (secure w !! DEVICE_ID_KEY = Some id \/ id = fresh) /\
    secure (snd (getDeviceId fresh fallback w)) !! DEVICE_ID_KEY = Some id /\
    forall fresh' fallback',
      getDeviceId fresh' fallback' (snd (getDeviceId fresh fallback w)) =
      (Ok id, snd (getDeviceId fresh fallback w)).
Proof.
  intros Hk Hfresh. destruct w as [a c s k ws]. cbn in Hk. subst k.
  unfold getDeviceId. run_action.
  destruct (s !! DEVICE_ID_KEY) as [[|x stored]|] eqn:Hs;
    cbn [falsy truthy negb field]; run_action.
  - exists fresh. cbn [fst snd secure]. rewrite lookup_insert_eq.
    repeat split; auto.
    intros fresh' fallback'. destruct fresh; [congruence | reflexivity].
  - exists (x :: stored). cbn [fst snd secure]. rewrite Hs.
    repeat split; auto; discriminate.
  - exists fresh. cbn [fst snd secure]. rewrite lookup_insert_eq.
    repeat split; auto.
    intros fresh' fallback'. destruct fresh; [congruence | reflexivity].
Qed.

Lemma device_id_is_stable_witness :
  exists id,
    fst (getDeviceId (js "6f1c0a52-device") (js "fallback") (boot ∅ true)) = Ok id /\
    id <> [] /\
    ((∅ : gmap string jsstring) !! DEVICE_ID_KEY = Some id \/ id = js "6f1c0a52-device") /\
    secure (snd (getDeviceId (js "6f1c0a52-device") (js "fallback") (boot ∅ true)))
      !! DEVICE_ID_KEY = Some id /\
    forall fresh' fallback',
      getDeviceId fresh' fallback'
        (snd (getDeviceId (js "6f1c0a52-device") (js "fallback") (boot ∅ true))) =
      (Ok id, snd (getDeviceId (js "6f1c0a52-device") (js "fallback") (boot ∅ true))).
Proof.
  apply (device_id_is_stable (js "6f1c0a52-device") (js "fallback") (boot ∅ true));
    [reflexivity | discriminate].
Defined.

(** ** The session kept by the store *)

Ltac branch_on :=
  match goal with
  | |- context [match ?x with _ => _ end] =>
      lazymatch x with
      | falsy _ => destruct x eqn:?
      | negb ?y => destruct y eqn:?; cbn [negb]
      | truthy _ => destruct x eqn:?
      | bool_decide _ => destruct x eqn:?
      | user _ => destruct x eqn:?
      | biometricEnabled _ => destruct x eqn:?
      | isAuthenticated _ => destruct x eqn:?
      | String.eqb _ _ => destruct x eqn:?
      | andb _ _ => destruct x eqn:?
      | _ => is_var x; destruct x
      end
  end.

Section SessionFacts.

Variable derive : jsstring -> jsstring -> result jsstring.

Ltac branch_derive :=
  match goal with
  | |- context [match derive ?p ?u with _ => _ end] => destruct (derive p u) eqn:?
  end.

Lemma session_consistent_initial : session_consistent derive initial_auth.
Proof.
  split; cbn.
  - discriminate.
  - intros [? ?]; discriminate.
  - discriminate.
Qed.

Lemma falsy_false_some (x : option jsstring) : falsy x = false -> is_Some x.
Proof. destruct x; [eauto | discriminate]. Qed.

Lemma session_consistent_step e w :
  session_consistent derive (auth w) ->
  session_consistent derive (auth (step derive e w)).
Proof.
  intros [I1 I2 I3]. destruct w as [[u at_ rt key ia il er] c s k ws].
  cbn [auth user accessToken refreshToken encryptionKey isAuthenticated] in *.
  destruct e as [email pw post | email pw first last post | post | | | | pw | next
                | text | compatible enrolled authenticate | authenticate |
                | fresh fallback | available];
    unfold_actions;
    cbn [user accessToken refreshToken encryptionKey isAuthenticated isLoading error];
    repeat (first [branch_derive | branch_on]; run_action;
            cbn [user accessToken refreshToken encryptionKey isAuthenticated
                 isLoading error begin_loading signed_in fail_with user_of User.id]).
  all: split;
    cbn [auth user accessToken refreshToken encryptionKey isAuthenticated
         begin_loading signed_in fail_with user_of User.id];
    try assumption; try discriminate; try (intros [? ?]; discriminate); auto.
  all: try solve [ intros ? [= <-]; eauto
                 | intros _; split; eauto using falsy_false_some
                 | intros ? [= <-]; do 2 eexists; split; [reflexivity|]; eassumption ].
  intros _.
  match goal with
  | H : _ && _ = true |- _ => apply andb_true_iff in H; destruct H as [Ha Hr]
  end.
  apply negb_true_iff in Ha, Hr. split; apply falsy_false_some; assumption.
Qed.

Lemma session_consistent_run events stored available :
  session_consistent derive (auth (run derive events (boot stored available))).
Proof.
  induction events as [|e events IH] using rev_ind.
  - apply session_consistent_initial.
  - unfold run. rewrite fold_left_app. cbn [fold_left].
    apply session_consistent_step, IH.
Qed.

End SessionFacts.

Lemma deriveEncryptionKey_inv masterPassword userId key :
  deriveEncryptionKey masterPassword userId = Ok key ->
  (8 <= length masterPassword)%nat /\ userId <> [] /\
  key = derive_reference masterPassword userId.
Proof.
  intros H.
  destruct (Nat.ltb_spec (length masterPassword) 8) as [Hlt | Hge].
  - exfalso. unfold deriveEncryptionKey in H.
    apply Nat.ltb_lt in Hlt. rewrite Hlt, orb_true_r in H. discriminate.
  - destruct userId as [|c userId].
    + exfalso. unfold deriveEncryptionKey in H.
      destruct (negb (truthy masterPassword) || (length masterPassword <? 8)%nat);
        discriminate.
    + rewrite deriveEncryptionKey_ok in H by (assumption || discriminate).
      repeat split; [assumption | discriminate |].
      unfold derive_reference. change (256 / 8)%nat with 32%nat. congruence.
Qed.



(** ** The sign-in screens *)

Lemma deriveEncryptionKey_short masterPassword userId :
  (length masterPassword < 8)%nat ->
  deriveEncryptionKey masterPassword userId =
  Throw (Error "Master password must be at least 8 characters").
Proof.
  intros H. unfold deriveEncryptionKey.
  apply Nat.ltb_lt in H. rewrite H, orb_true_r. reflexivity.
Qed.

Lemma lookup_after_saveTokens (s : gmap string jsstring) (access refresh : jsstring) :
  (<[ENV.REFRESH_TOKEN := refresh]> (<[ENV.ACCESS_TOKEN := access]> s))
    !! ENV.ACCESS_TOKEN = Some access /\
  (<[ENV.REFRESH_TOKEN := refresh]> (<[ENV.ACCESS_TOKEN := access]> s))
    !! ENV.REFRESH_TOKEN = Some refresh.
Proof.
  split.
  - rewrite lookup_insert_ne by discriminate. apply lookup_insert_eq.
  - apply lookup_insert_eq.
Qed.

(** X14. When [handleLogin] is given a well-formed address and a
    non-empty password of fewer than 8 code units, and the server accepts
    them, the call completes with the key-derivation message as the store's
    error and the session as it was; yet the two tokens of the response are
    in the secure store, so that the next start of the application finds an
    authenticated session. *)
Theorem login_keeps_tokens_when_derivation_fails
  (email password : jsstring) (r : AuthResponse.t) w :
  keychain w = true ->
  Validation.isValidEmail email = true ->
  password <> [] -> (length password < 8)%nat ->
  let after := snd (handleLogin deriveEncryptionKey email password (Ok r) w) in
  fst (handleLogin deriveEncryptionKey email password (Ok r) w) = Ok tt /\
  error (auth after) = Some "Master password must be at least 8 characters"%string /\
  encryptionKey (auth after) = encryptionKey (auth w) /\
  user (auth after) = user (auth w) /\
  isAuthenticated (auth after) = isAuthenticated (auth w) /\
  secure after !! ENV.ACCESS_TOKEN = Some (AuthResponse.accessToken r) /\
  secure after !! ENV.REFRESH_TOKEN = Some (AuthResponse.refreshToken r) /\
  (AuthResponse.accessToken r <> [] -> AuthResponse.refreshToken r <> [] ->
   isAuthenticated (auth (snd (loadSession (boot (secure after) true)))) = true).
Proof.
  intros Hk Hemail Hpw Hlen.
  assert (truthy email = true) as Het.
  { destruct email; [discriminate Hemail | reflexivity]. }
  destruct w as [a c s k ws]. cbn in Hk. subst k.
  unfold handleLogin. rewrite Het, Hemail, (truthy_nonempty _ Hpw). cbn [negb].
  unfold login, AuthService.login, saveTokens, clearError. run_action.
  rewrite deriveEncryptionKey_short by assumption. run_action.
  destruct (lookup_after_saveTokens s (AuthResponse.accessToken r)
              (AuthResponse.refreshToken r)) as [Ha Hr].
  repeat split; try assumption.
  intros Hta Htr. rewrite loadSession_spec. cbv zeta.
  cbn [boot auth with_auth keychain secure andb].
  rewrite Ha, Hr. cbn [falsy].
  rewrite !truthy_nonempty by assumption. reflexivity.
Qed.

Lemma login_keeps_tokens_when_derivation_fails_witness :
  let after :=
    snd (handleLogin deriveEncryptionKey (js "a@b.com") (js "short")
                     (Ok sample_response) (boot ∅ true)) in
  error (auth after) = Some "Master password must be at least 8 characters"%string /\
  isAuthenticated (auth after) = false /\
  secure after !! ENV.ACCESS_TOKEN = Some (js "access-token") /\
  isAuthenticated (auth (snd (loadSession (boot (secure after) true)))) = true.
Proof.
  intros after.
  destruct (login_keeps_tokens_when_derivation_fails
              (js "a@b.com") (js "short") sample_response (boot ∅ true))
    as (_ & He & _ & _ & Hi & Ha & _ & Hl);
    [reflexivity | reflexivity | discriminate | cbn; lia |].
  split; [exact He|]. split; [exact Hi|]. split; [exact Ha|].
  apply Hl; discriminate.
Defined.

Lemma validateForm_passes formData :
  snd (validateForm formData) = true ->
  Validation.isValidEmail (RegisterForm.email formData) = true /\
  Validation.isStrongPassword (RegisterForm.password formData) = true /\
  RegisterForm.password formData = RegisterForm.confirmPassword formData.
Proof.
  unfold validateForm. cbn [snd existsb].
  destruct (truthy (RegisterForm.email formData)); cbn [negb]; [|discriminate].
  destruct (Validation.isValidEmail (RegisterForm.email formData));
    cbn [negb]; [|discriminate].
  destruct (truthy (RegisterForm.password formData)); cbn [negb]; [|discriminate].
  destruct (Validation.isStrongPassword (RegisterForm.password formData));
    cbn [negb]; [|discriminate].
  destruct (bool_decide_reflect
              (RegisterForm.password formData = RegisterForm.confirmPassword formData));
    [auto | discriminate].
Qed.

Lemma isStrongPassword_length password :
  Validation.isStrongPassword password = true -> (8 <= length password)%nat.
Proof.
  unfold Validation.isStrongPassword.
  destruct (Nat.ltb_spec (length password) 8); [discriminate | auto].
Qed.

(** X15. When the registration form passes [validateForm], both names
    are filled in, the keychain is available and the server answers with a
    non-empty account id, [handleRegister] leaves the store signed in with
    the account and the tokens of the response and with the key derived
    from the form's password and that id, without error, and the tokens are
    in the secure store. *)
Theorem registration_signs_in (formData : RegisterForm.t) (r : AuthResponse.t) w :
  snd (validateForm formData) = true ->
  RegisterForm.firstName formData <> [] -> RegisterForm.lastName formData <> [] ->
  keychain w = true -> AuthResponse.userId r <> [] ->
  let out := handleRegister deriveEncryptionKey formData (Ok r) w in
  fst out = Ok tt /\
  auth (snd out) =
    {| user := Some (user_of r);
       accessToken := Some (AuthResponse.accessToken r);
       refreshToken := Some (AuthResponse.refreshToken r);
       encryptionKey :=
         Some (derive_reference (RegisterForm.password formData)
                                (AuthResponse.userId r));
       isAuthenticated := true; isLoading := false; error := None |} /\
  secure (snd out) !! ENV.ACCESS_TOKEN = Some (AuthResponse.accessToken r) /\
  secure (snd out) !! ENV.REFRESH_TOKEN = Some (AuthResponse.refreshToken r).
Proof.
  intros Hform Hfirst Hlast Hk Hid.
  destruct (validateForm_passes _ Hform) as (_ & Hstrong & _).
  apply isStrongPassword_length in Hstrong.
  destruct w as [a c s k ws]. cbn in Hk. subst k.
  unfold handleRegister. rewrite Hform, !truthy_nonempty by assumption.
  cbn [negb orb].
  unfold register, AuthService.register, saveTokens, clearError. run_action.
  rewrite deriveEncryptionKey_ok by assumption. run_action.
  fold (derive_reference (RegisterForm.password formData) (AuthResponse.userId r)).
  cbn [fst snd auth secure signed_in begin_loading error].
  repeat split.
  - rewrite lookup_insert_ne by discriminate. apply lookup_insert_eq.
  - apply lookup_insert_eq.
Qed.

Lemma registration_signs_in_witness :
  encryptionKey
    (auth (snd (handleRegister deriveEncryptionKey sample_form (Ok sample_response)
                               (boot ∅ true)))) =
  Some (derive_reference (js "Sup3rSecret!") (js "user-42")).
Proof.
  destruct (registration_signs_in sample_form sample_response (boot ∅ true))
    as (_ & Ha & _); [reflexivity | discriminate | discriminate | reflexivity
                      | discriminate |].
  rewrite Ha. reflexivity.
Defined.

(** ** The navigation guard *)

(** X16. The navigation effect, once loading is over: when it leaves the
    user on a route of the (app) group other than the unlock screen, the
    session is authenticated and a key is resident; and when it redirects,
    it does not redirect again from the target. *)
Theorem navigation_guard (s : AuthStore) (segments : list string) :
  isLoading s = false ->
  (redirect s segments = None ->
   hd_error segments = Some "(app)"%string ->
   existsb (String.eqb "unlock") segments = false ->
   isAuthenticated s = true /\ falsy (encryptionKey s) = false) /\
  (forall target, redirect s segments = Some target ->
                  redirect s (segments_of target) = None).
Proof.
  intros Hl. unfold redirect. rewrite Hl. split.
  - intros Hr Hhd Hun. destruct segments as [|seg segments]; [discriminate|].
    injection Hhd as ->. rewrite Hun in Hr.
    cbn [String.eqb Ascii.eqb Bool.eqb andb negb] in Hr.
    destruct (isAuthenticated s); cbn [negb andb] in Hr; [|discriminate].
    destruct (falsy (encryptionKey s)); [discriminate | auto].
  - intros target.
    destruct (isAuthenticated s), (falsy (encryptionKey s));
      destruct segments as [|seg segments]; cbn [negb andb];
      repeat match goal with
             | |- context [if ?b then _ else _] => destruct b eqn:?
             end;
      intros [= <-]; try discriminate; reflexivity.
Qed.

Lemma navigation_guard_witness :
  redirect (auth sample_locked) ["(app)"; "vaults"]%string = Some "/(auth)/unlock"%string /\
  redirect (auth sample_locked) (segments_of "/(auth)/unlock") = None.
Proof.
  split; [reflexivity|].
  apply (proj2 (navigation_guard (auth sample_locked) ["(app)"; "vaults"]%string
                                 eq_refl)).
  reflexivity.
Defined.

(** ** The strength meter *)

(** X17. [getPasswordStrength] answers "Too short" exactly for passwords
    of fewer than 8 code units, and never rates [weak] a password that
    [isStrongPassword] accepts. *)
Theorem strength_meter_agrees_with_check (password : jsstring) :
  (snd (Validation.getPasswordStrength password) = "Too short"%string
   <-> (length password < 8)%nat) /\
  (Validation.isStrongPassword password = true ->
   fst (Validation.getPasswordStrength password) <> Validation.weak).
Proof.
  unfold Validation.getPasswordStrength, Validation.isStrongPassword.
  destruct (Nat.ltb_spec (length password) 8) as [H | H].
  - split; [split; [intros _; exact H | reflexivity] | discriminate].
  - rewrite !test_unanchored.
    set (special := existsb (fun c => negb (Validation.alnum c)) password).
    set (long := (12 <=? length password)%nat).
    split.
    + split; [|lia].
      destruct (existsb Validation.lower password),
               (existsb Validation.upper password),
               (existsb RegExp.digit password), special, long;
        cbn; intros E; discriminate E.
    + intros Hs. apply andb_true_iff in Hs. destruct Hs as [Hs H3].
      apply andb_true_iff in Hs. destruct Hs as [H1 H2].
      rewrite H1, H2, H3.
      destruct special, long; cbn; discriminate.
Qed.

(** ** What survives a restart *)

(** X18. After a successful [register], restarting the application
    ([loadSession] on what the secure store holds) gives an authenticated
    session with the tokens of the response, without account and without
    key; restarting after a [logout] gives the initial, signed-out
    state. *)
Theorem session_across_restart (email password firstName lastName : jsstring)
  (r : AuthResponse.t) (post : result unit) w :
  keychain w = true ->
  (8 <= length password)%nat -> AuthResponse.userId r <> [] ->
  AuthResponse.accessToken r <> [] -> AuthResponse.refreshToken r <> [] ->
  let signed :=
    snd (register deriveEncryptionKey email password firstName lastName (Ok r) w) in
  let restarted := snd (loadSession (boot (secure signed) true)) in
  let left := snd (logout post signed) in
  auth restarted =
    {| user := None;
       accessToken := Some (AuthResponse.accessToken r);
       refreshToken := Some (AuthResponse.refreshToken r);
       encryptionKey := None;
       isAuthenticated := true; isLoading := false; error := None |} /\
  auth (snd (loadSession (boot (secure left) true))) = initial_auth.
Proof.
  intros Hk Hlen Hid Ha Hr signed restarted left.
  assert (secure signed =
          <[ENV.REFRESH_TOKEN := AuthResponse.refreshToken r]>
            (<[ENV.ACCESS_TOKEN := AuthResponse.accessToken r]>
               (<[ENV.REFRESH_TOKEN := AuthResponse.refreshToken r]>
                  (<[ENV.ACCESS_TOKEN := AuthResponse.accessToken r]> (secure w))))
          /\ keychain signed = true) as [Hs Hks].
  { subst signed. destruct w as [a c s k ws]. cbn in Hk. subst k.
    unfold register, AuthService.register, saveTokens. run_action.
    rewrite deriveEncryptionKey_ok by assumption. run_action.
    split; reflexivity. }
  split.
  - subst restarted. rewrite loadSession_spec. cbv zeta.
    cbn [boot auth with_auth keychain secure andb snd].
    rewrite Hs.
    destruct (lookup_after_saveTokens
                (<[ENV.REFRESH_TOKEN := AuthResponse.refreshToken r]>
                   (<[ENV.ACCESS_TOKEN := AuthResponse.accessToken r]> (secure w)))
                (AuthResponse.accessToken r) (AuthResponse.refreshToken r))
      as [Hla Hlr].
    rewrite Hla, Hlr. cbn [falsy].
    rewrite !truthy_nonempty by assumption. reflexivity.
  - subst left. rewrite logout_spec, Hks. cbn [snd secure].
    rewrite loadSession_spec. cbv zeta.
    cbn [boot auth with_auth keychain secure andb snd].
    rewrite lookup_delete_ne by discriminate.
    rewrite lookup_delete_eq. reflexivity.
Qed.

Lemma session_across_restart_witness :
  isAuthenticated
    (auth (snd (loadSession (boot (secure registered_world) true)))) = true /\
  isAuthenticated
    (auth (snd (loadSession
                  (boot (secure (snd (logout (Ok tt) registered_world))) true)))) =
  false.
Proof.
  destruct (session_across_restart (js "a@b.com") (js "Sup3rSecret!") (js "A") (js "B")
              sample_response (Ok tt) (boot ∅ true))
    as [H1 H2]; [reflexivity | cbn; lia | discriminate | discriminate | discriminate |].
  unfold registered_world. rewrite H1, H2. split; reflexivity.
Defined.

(** * Structured records: [encryptObject] and [decryptObject] *)

(** ** Induction on values *)

Section ValueInduction.
Variable P : jsvalue -> Prop.
Hypothesis on_undefined : P JsUndefined.
Hypothesis on_null : P JsNull.
Hypothesis on_boolean : forall b, P (JsBoolean b).
Hypothesis on_string : forall s, P (JsString s).
Hypothesis on_array : forall items, Forall P items -> P (JsArray items).
Hypothesis on_object :
  forall properties, Forall (fun property => P (snd property)) properties ->
                     P (JsObject properties).

Lemma jsvalue_induction : forall v, P v.
Proof.
  exact
    (fix value_ind (v : jsvalue) : P v :=
       match v with
       | JsUndefined => on_undefined
       | JsNull => on_null
       | JsBoolean b => on_boolean b
       | JsString s => on_string s
       | JsArray items =>
           on_array items
             ((fix all (l : list jsvalue) : Forall P l :=
                 match l with
                 | [] => List.Forall_nil P
                 | x :: l' => List.Forall_cons _ x l' (value_ind x) (all l')
                 end) items)
       | JsObject properties =>
           on_object properties
             ((fix all (l : list (jsstring * jsvalue))
                 : Forall (fun property => P (snd property)) l :=
                 match l with
                 | [] => List.Forall_nil _
                 | p :: l' => List.Forall_cons _ p l' (value_ind (snd p)) (all l')
                 end) properties)
       end).
Qed.

End ValueInduction.

(** ** Reading a quoted string back *)

Module StringifyFacts.
Import Stringify.

Ltac compare_all :=
  repeat match goal with
         | |- context [?a <=? ?b] => destruct (Z.leb_spec a b)
         | |- context [?a <? ?b] => destruct (Z.ltb_spec a b)
         | |- context [?a =? ?b] => destruct (Z.eqb_spec a b)
         | H : context [?a <=? ?b] |- _ => destruct (Z.leb_spec a b)
         | H : context [?a <? ?b] |- _ => destruct (Z.ltb_spec a b)
         | H : context [?a =? ?b] |- _ => destruct (Z.eqb_spec a b)
         end;
  cbn [andb orb negb] in *.

Lemma hex_digit_hex_char n : 0 <= n < 16 -> JSON.hex_digit (hex_char n) = Some n.
Proof.
  intros H. unfold JSON.hex_digit, JSON.is_digit, hex_char.
  compare_all; try lia; f_equal; lia.
Qed.

Lemma string_body_unicode_escape c tail :
  0 <= c <= 0xFFFF ->
  JSON.string_body (unicode_escape c ++ tail) =
  match JSON.string_body tail with
  | Some (s, rest) => Some (c :: s, rest)
  | None => None
  end.
Proof.
  intros Hc. unfold unicode_escape. cbn [app JSON.string_body].
  rewrite !hex_digit_hex_char by (apply Z.mod_pos_bound; lia).
  destruct (JSON.string_body tail) as [[s rest]|]; [|reflexivity].
  do 2 f_equal. f_equal. Z.div_mod_to_equations. lia.
Qed.

(** A code unit that is neither the quotation mark nor the backslash. *)
Lemma string_body_plain c tail :
  c <> 34 -> c <> 92 ->
  JSON.string_body (c :: tail) =
  if c <? 32 then None
  else match JSON.string_body tail with
       | Some (s, rest) => Some (c :: s, rest)
       | None => None
       end.
Proof.
  intros H34 H92.
  destruct c as [|p|p]; try reflexivity.
  do 7 (try (destruct p as [p|p|]; try reflexivity; try congruence)).
Qed.

Lemma string_body_short e c tail :
  In (e, c) [(98, 8); (116, 9); (110, 10); (102, 12); (114, 13); (34, 34); (92, 92)] ->
  JSON.string_body (92 :: e :: tail) =
  match JSON.string_body tail with
  | Some (s, rest) => Some (c :: s, rest)
  | None => None
  end.
Proof.
  intros H. cbn [In] in H.
  repeat (destruct H as [[= <- <-] | H]; [reflexivity|]).
  destruct H.
Qed.

Lemma string_body_escape_unit c tail :
  0 <= c <= 0xFFFF ->
  JSON.string_body (escape_unit c ++ tail) =
  match JSON.string_body tail with
  | Some (s, rest) => Some (c :: s, rest)
  | None => None
  end.
Proof.
  intros Hc. unfold escape_unit.
  destruct (Z.eqb_spec c 8) as [-> | ?];
    [apply (string_body_short 98 8); cbn; tauto|].
  destruct (Z.eqb_spec c 9) as [-> | ?];
    [apply (string_body_short 116 9); cbn; tauto|].
  destruct (Z.eqb_spec c 10) as [-> | ?];
    [apply (string_body_short 110 10); cbn; tauto|].
  destruct (Z.eqb_spec c 12) as [-> | ?];
    [apply (string_body_short 102 12); cbn; tauto|].
  destruct (Z.eqb_spec c 13) as [-> | ?];
    [apply (string_body_short 114 13); cbn; tauto|].
  destruct (Z.eqb_spec c 34) as [-> | ?];
    [apply (string_body_short 34 34); cbn; tauto|].
  destruct (Z.eqb_spec c 92) as [-> | ?];
    [apply (string_body_short 92 92); cbn; tauto|].
  destruct (Z.ltb_spec c 32) as [Hlt | Hge].
  - apply string_body_unicode_escape, Hc.
  - cbn [app]. rewrite string_body_plain by assumption.
    destruct (Z.ltb_spec c 32); [lia | reflexivity].
Qed.

Lemma string_body_surrogate c tail :
  Text.is_high c || Text.is_low c = true ->
  JSON.string_body (c :: tail) =
  match JSON.string_body tail with
  | Some (s, rest) => Some (c :: s, rest)
  | None => None
  end.
Proof.
  intros H.
  assert (0xD800 <= c) as Hc.
  { unfold Text.is_high, Text.is_low in H. compare_all; try lia; discriminate. }
  rewrite string_body_plain by lia.
  destruct (Z.ltb_spec c 32); [lia | reflexivity].
Qed.

Lemma is_code_unit_range c : is_code_unit c = true -> 0 <= c <= 0xFFFF.
Proof. unfold is_code_unit. compare_all; try discriminate. lia. Qed.

Lemma string_body_quote_body s tail :
  forallb is_code_unit s = true ->
  JSON.string_body (quote_body s ++ 34 :: tail) = Some (s, tail).
Proof.
  induction s as [s IH] using TextFacts.length_induction. intros Hs.
  destruct s as [|c rest]; [reflexivity|].
  cbn [forallb] in Hs. apply andb_true_iff in Hs. destruct Hs as [Hc Hrest].
  apply is_code_unit_range in Hc.
  cbn [quote_body].
  destruct (Text.is_high c) eqn:Hh.
  - destruct rest as [|d rest'].
    + rewrite string_body_unicode_escape by assumption. reflexivity.
    + destruct (Text.is_low d) eqn:Hl.
      * cbn [app].
        rewrite (string_body_surrogate c) by (rewrite Hh; reflexivity).
        rewrite (string_body_surrogate d) by (rewrite Hl; apply orb_true_r).
        cbn [forallb] in Hrest. apply andb_true_iff in Hrest.
        rewrite IH by (cbn; lia || tauto). reflexivity.
      * rewrite <- app_assoc, string_body_unicode_escape by assumption.
        rewrite IH by (cbn; lia || assumption). reflexivity.
  - destruct (Text.is_low c) eqn:Hl.
    + rewrite <- app_assoc, string_body_unicode_escape by assumption.
      rewrite IH by (cbn; lia || assumption). reflexivity.
    + rewrite <- app_assoc, string_body_escape_unit by assumption.
      rewrite IH by (cbn; lia || assumption). reflexivity.
Qed.

End StringifyFacts.

Module ParseFacts.
Import Stringify StringifyFacts.

Lemma text_of_array items :
  text_of (JsArray items) = 91 :: join (map text_of items) ++ [93].
Proof. reflexivity. Qed.

Lemma text_of_object properties :
  text_of (JsObject properties) = 123 :: join (member_texts properties) ++ [125].
Proof. reflexivity. Qed.

Lemma stringify_none v : stringify v = None <-> v = JsUndefined.
Proof. destruct v; cbn; split; congruence. Qed.

Lemma text_of_head v : exists h t, text_of v = h :: t /\ opens_value h.
Proof.
  unfold opens_value.
  destruct v as [| |[|]|s|items|properties]; cbn; eexists _, _; split;
    try reflexivity; tauto.
Qed.

Lemma join_head parts :
  parts <> [] -> Forall (fun part => exists h t, part = h :: t /\ opens_value h) parts ->
  exists h t, join parts = h :: t /\ opens_value h.
Proof.
  intros Hne H. destruct H as [|part rest (h & t & -> & Hh) _]; [congruence|].
  destruct rest; cbn; eauto.
Qed.

Lemma parse_value_quoted fuel body :
  JSON.parse_value (S fuel) (34 :: body) =
  match JSON.string_body body with
  | Some (s, rest) => Some (JSON.String s, rest)
  | None => None
  end.
Proof. reflexivity. Qed.

Lemma parse_value_string fuel s rest :
  forallb is_code_unit s = true ->
  JSON.parse_value (S fuel) (quote s ++ rest) = Some (JSON.String s, rest).
Proof.
  intros Hs. unfold quote. cbn [app]. rewrite parse_value_quoted.
  rewrite <- app_assoc. cbn [app].
  rewrite string_body_quote_body by assumption. reflexivity.
Qed.

Lemma parse_value_array fuel input :
  (exists h t, input = h :: t /\ opens_value h) ->
  JSON.parse_value (S fuel) (91 :: input) =
  match JSON.parse_elements fuel input with
  | Some (items, rest) => Some (JSON.Array items, rest)
  | None => None
  end.
Proof.
  intros (h & t & -> & [-> | [-> | [-> | [-> | [-> | ->]]]]]); reflexivity.
Qed.

Lemma parse_value_object fuel input :
  (exists t, input = 34 :: t) ->
  JSON.parse_value (S fuel) (123 :: input) =
  match JSON.parse_members fuel input with
  | Some (members, rest) => Some (JSON.Object members, rest)
  | None => None
  end.
Proof. intros (t & ->). reflexivity. Qed.

Lemma parse_elements_last fuel input v rest :
  JSON.parse_value fuel input = Some (v, 93 :: rest) ->
  JSON.parse_elements (S fuel) input = Some ([v], rest).
Proof.
  intros H. change (JSON.parse_elements (S fuel) input)
    with (match JSON.parse_value fuel input with
          | Some (v, rest) =>
              match JSON.skip_ws rest with
              | 93 :: rest' => Some ([v], rest')
              | 44 :: rest' =>
                  match JSON.parse_elements fuel rest' with
                  | Some (vs, rest'') => Some (v :: vs, rest'')
                  | None => None
                  end
              | _ => None
              end
          | None => None
          end).
  rewrite H. reflexivity.
Qed.

Lemma parse_elements_more fuel input v rest vs rest' :
  JSON.parse_value fuel input = Some (v, 44 :: rest) ->
  JSON.parse_elements fuel rest = Some (vs, rest') ->
  JSON.parse_elements (S fuel) input = Some (v :: vs, rest').
Proof.
  intros H H'. change (JSON.parse_elements (S fuel) input)
    with (match JSON.parse_value fuel input with
          | Some (v, rest) =>
              match JSON.skip_ws rest with
              | 93 :: rest' => Some ([v], rest')
              | 44 :: rest' =>
                  match JSON.parse_elements fuel rest' with
                  | Some (vs, rest'') => Some (v :: vs, rest'')
                  | None => None
                  end
              | _ => None
              end
          | None => None
          end).
  rewrite H.
  change (JSON.skip_ws (44 :: rest)) with (44 :: rest). cbv iota.
  rewrite H'. reflexivity.
Qed.

Lemma parse_members_quoted fuel body :
  JSON.parse_members (S fuel) (34 :: body) =
  match JSON.string_body body with
  | Some (name, rest') =>
      match JSON.skip_ws rest' with
      | 58 :: rest'' =>
          match JSON.parse_value fuel rest'' with
          | Some (v, rest3) =>
              match JSON.skip_ws rest3 with
              | 125 :: rest4 => Some ([(name, v)], rest4)
              | 44 :: rest4 =>
                  match JSON.parse_members fuel rest4 with
                  | Some (ms, rest5) => Some ((name, v) :: ms, rest5)
                  | None => None
                  end
              | _ => None
              end
          | None => None
          end
      | _ => None
      end
  | None => None
  end.
Proof. reflexivity. Qed.

Lemma parse_members_last fuel name tail v rest :
  forallb is_code_unit name = true ->
  JSON.parse_value fuel tail = Some (v, 125 :: rest) ->
  JSON.parse_members (S fuel) (quote name ++ 58 :: tail) = Some ([(name, v)], rest).
Proof.
  intros Hs H. unfold quote. cbn [app]. rewrite parse_members_quoted.
  rewrite <- app_assoc. cbn [app].
  rewrite string_body_quote_body by assumption.
  change (JSON.skip_ws (58 :: tail)) with (58 :: tail). cbv iota.
  rewrite H. reflexivity.
Qed.

Lemma parse_members_more fuel name tail v rest ms rest' :
  forallb is_code_unit name = true ->
  JSON.parse_value fuel tail = Some (v, 44 :: rest) ->
  JSON.parse_members fuel rest = Some (ms, rest') ->
  JSON.parse_members (S fuel) (quote name ++ 58 :: tail) =
  Some ((name, v) :: ms, rest').
Proof.
  intros Hs H H'. unfold quote. cbn [app]. rewrite parse_members_quoted.
  rewrite <- app_assoc. cbn [app].
  rewrite string_body_quote_body by assumption.
  change (JSON.skip_ws (58 :: tail)) with (58 :: tail). cbv iota.
  rewrite H.
  change (JSON.skip_ws (44 :: rest)) with (44 :: rest). cbv iota.
  rewrite H'. reflexivity.
Qed.

Lemma quote_length s : length (quote s) = S (S (length (quote_body s))).
Proof. unfold quote. cbn [length]. rewrite length_app. cbn. lia. Qed.

Lemma elements_read_back items :
  items <> [] -> Forall reads_back items -> forallb strings_ok items = true ->
  forall fuel rest,
    (length (join (map text_of items)) + 2 <= fuel)%nat ->
    JSON.parse_elements fuel (join (map text_of items) ++ 93 :: rest) =
    Some (map parsed items, rest).
Proof.
  intros Hne Hall. induction Hall as [|x items Hx Hall IH]; [congruence|].
  intros Hok fuel rest Hfuel. clear Hne.
  cbn [forallb] in Hok. apply andb_true_iff in Hok. destruct Hok as [Hokx Hok].
  destruct fuel as [|fuel]; [lia|].
  destruct items as [|y items].
  - cbn [map join] in *.
    apply parse_elements_last. apply Hx; assumption || lia.
  - change (join (map text_of (x :: y :: items)))
      with (text_of x ++ 44 :: join (map text_of (y :: items))) in *.
    rewrite length_app in Hfuel. cbn [length] in Hfuel.
    rewrite <- app_assoc. cbn [app].
    eapply parse_elements_more.
    + apply Hx; assumption || lia.
    + apply IH; assumption || discriminate || lia.
Qed.

Lemma member_texts_cons name x properties :
  member_texts ((name, x) :: properties) =
  match x with
  | JsUndefined => member_texts properties
  | _ => (quote name ++ 58 :: text_of x) :: member_texts properties
  end.
Proof. destruct x; reflexivity. Qed.

Lemma parsed_members_cons name x properties :
  parsed_members ((name, x) :: properties) =
  match x with
  | JsUndefined => parsed_members properties
  | _ => (name, parsed x) :: parsed_members properties
  end.
Proof. destruct x; reflexivity. Qed.

Lemma member_texts_nil properties :
  member_texts properties = [] -> parsed_members properties = [].
Proof.
  induction properties as [|[name x] properties IH]; [reflexivity|].
  rewrite member_texts_cons, parsed_members_cons.
  destruct x; try discriminate. exact IH.
Qed.

Lemma members_read_back properties :
  Forall (fun property => reads_back (snd property)) properties ->
  forallb (fun property =>
             forallb is_code_unit (fst property) && strings_ok (snd property))
          properties = true ->
  member_texts properties <> [] ->
  forall fuel rest,
    (length (join (member_texts properties)) + 2 <= fuel)%nat ->
    JSON.parse_members fuel (join (member_texts properties) ++ 125 :: rest) =
    Some (parsed_members properties, rest).
Proof.
  intros Hall. induction Hall as [|[name x] properties Hx Hall IH];
    [intros _ H; exfalso; apply H; reflexivity|].
  intros Hok Hne fuel rest Hfuel.
  cbn [forallb fst snd] in Hok, Hx.
  apply andb_true_iff in Hok. destruct Hok as [Hokx Hok].
  apply andb_true_iff in Hokx. destruct Hokx as [Hname Hokx].
  destruct (stringify x) as [tx|] eqn:Hsx.
  2:{ apply stringify_none in Hsx. subst x.
      rewrite member_texts_cons, parsed_members_cons in *.
      apply IH; assumption. }
  assert (member_texts ((name, x) :: properties) =
          (quote name ++ 58 :: text_of x) :: member_texts properties) as Em.
  { rewrite member_texts_cons. destruct x; try reflexivity. discriminate. }
  assert (parsed_members ((name, x) :: properties) =
          (name, parsed x) :: parsed_members properties) as Ep.
  { rewrite parsed_members_cons. destruct x; try reflexivity. discriminate. }
  rewrite Em in *. rewrite Ep. clear Em Ep Hne.
  destruct fuel as [|fuel]; [lia|].
  destruct (member_texts properties) as [|m ms] eqn:Hms.
  - cbn [join] in *. rewrite length_app, quote_length in Hfuel.
    cbn [length] in Hfuel.
    rewrite <- app_assoc. cbn [app].
    rewrite (member_texts_nil properties Hms).
    apply parse_members_last; [assumption|].
    apply Hx; assumption || lia.
  - change (join ((quote name ++ 58 :: text_of x) :: m :: ms))
      with ((quote name ++ 58 :: text_of x) ++ 44 :: join (m :: ms)) in *.
    rewrite !length_app, quote_length in Hfuel. cbn [length] in Hfuel.
    rewrite ?length_app in Hfuel. cbn [length] in Hfuel.
    rewrite <- !app_assoc. cbn [app].
    rewrite <- Hms in *.
    eapply parse_members_more; [assumption | |].
    + apply Hx; assumption || lia.
    + apply IH; try assumption; try lia. rewrite Hms. discriminate.
Qed.

Lemma member_texts_head properties :
  member_texts properties <> [] ->
  exists t, join (member_texts properties) = 34 :: t.
Proof.
  destruct (member_texts properties) as [|m ms] eqn:E; [congruence|]. intros _.
  assert (exists t, m = 34 :: t) as [t ->].
  { revert E. clear. induction properties as [|[name x] properties IH];
      [discriminate|].
    rewrite member_texts_cons. destruct x; try exact IH;
      intros [= <- _]; unfold quote; cbn [app]; eauto. }
  destruct ms; cbn; eauto.
Qed.

Lemma value_reads_back v : reads_back v.
Proof.
  induction v as [| |b|s|items IH|properties IH] using jsvalue_induction;
    intros fuel rest Hfuel Hok; (destruct fuel as [|fuel]; [lia|]).
  - reflexivity.
  - reflexivity.
  - destruct b; reflexivity.
  - apply parse_value_string, Hok.
  - rewrite text_of_array in *. cbn [length] in Hfuel.
    rewrite length_app in Hfuel. cbn [length] in Hfuel.
    cbn [app]. rewrite <- app_assoc. cbn [app].
    destruct items as [|x items].
    + reflexivity.
    + rewrite parse_value_array.
      * rewrite elements_read_back by (assumption || discriminate || lia).
        reflexivity.
      * destruct (join_head (map text_of (x :: items))) as (h & t & E & Hh).
        -- discriminate.
        -- apply List.Forall_forall. intros part Hin.
           apply in_map_iff in Hin. destruct Hin as (y & <- & _).
           apply text_of_head.
        -- rewrite E. cbn [app]. eauto.
  - rewrite text_of_object in *. cbn [length] in Hfuel.
    rewrite length_app in Hfuel. cbn [length] in Hfuel.
    cbn [app]. rewrite <- app_assoc. cbn [app].
    change (parsed (JsObject properties))
      with (JSON.Object (parsed_members properties)).
    destruct (member_texts properties) as [|m ms] eqn:Hms.
    + rewrite (member_texts_nil properties Hms). reflexivity.
    + rewrite <- Hms in *.
      assert (member_texts properties <> []) as Hne by (rewrite Hms; discriminate).
      rewrite parse_value_object.
      * rewrite members_read_back by (assumption || lia). reflexivity.
      * destruct (member_texts_head properties Hne) as (t & ->).
        cbn [app]. eauto.
Qed.

End ParseFacts.

(** [JSON.parse] undoes [JSON.stringify]. *)
Lemma parse_stringify v text :
  strings_ok v = true -> Stringify.stringify v = Some text ->
  JSON.parse text = Ok (parsed v).
Proof.
  intros Hok Hs. unfold JSON.parse.
  assert (text_of v = text) as E by (unfold text_of; rewrite Hs; reflexivity).
  pose proof (ParseFacts.value_reads_back v (2 * length text + 2)%nat []) as H.
  rewrite E, app_nil_r in H. rewrite H by (assumption || lia). reflexivity.
Qed.

(** ** The text of a value is well-formed UTF-16 *)

Module TransparentFacts.
Import Stringify StringifyFacts.

Lemma transparent_nil : transparent [].
Proof. intros tail. reflexivity. Qed.

Lemma transparent_app a b : transparent a -> transparent b -> transparent (a ++ b).
Proof. intros Ha Hb tail. rewrite <- app_assoc, Ha, Hb. reflexivity. Qed.

Lemma transparent_unit c :
  Text.is_high c = false -> Text.is_low c = false -> 0 <= c <= 0xFFFF ->
  transparent [c].
Proof.
  intros Hh Hl Hc tail. cbn [app Text.well_formed]. rewrite Hh, Hl.
  destruct (Z.leb_spec 0 c); [|lia]. destruct (Z.leb_spec c 0xFFFF); [|lia].
  reflexivity.
Qed.

Lemma transparent_ascii c : 0 <= c < 128 -> transparent [c].
Proof.
  intros Hc. apply transparent_unit; try lia;
    unfold Text.is_high, Text.is_low; compare_all; try lia; reflexivity.
Qed.

Lemma transparent_cons_ascii c text :
  0 <= c < 128 -> transparent text -> transparent (c :: text).
Proof. intros Hc H. apply (transparent_app [c]); [apply transparent_ascii, Hc | exact H]. Qed.

Lemma transparent_pair c d :
  Text.is_high c = true -> Text.is_low d = true -> transparent [c; d].
Proof. intros Hh Hl tail. cbn [app Text.well_formed]. rewrite Hh, Hl. reflexivity. Qed.

Lemma hex_char_ascii n : 0 <= n < 16 -> 0 <= hex_char n < 128.
Proof. unfold hex_char. intros H. destruct (Z.ltb_spec n 10); lia. Qed.

Lemma transparent_unicode_escape c : transparent (unicode_escape c).
Proof.
  unfold unicode_escape.
  repeat (apply transparent_cons_ascii;
          [first [lia | apply hex_char_ascii, Z.mod_pos_bound; lia]|]).
  apply transparent_nil.
Qed.

Lemma transparent_escape_unit c :
  Text.is_high c = false -> Text.is_low c = false -> 0 <= c <= 0xFFFF ->
  transparent (escape_unit c).
Proof.
  intros Hh Hl Hc. unfold escape_unit.
  repeat match goal with
         | |- context [?a =? ?b] =>
             destruct (Z.eqb_spec a b);
             [repeat (apply transparent_cons_ascii; [lia|]); apply transparent_nil|]
         end.
  destruct (Z.ltb_spec c 32).
  - apply transparent_unicode_escape.
  - apply transparent_unit; assumption.
Qed.

Lemma transparent_quote_body s :
  forallb is_code_unit s = true -> transparent (quote_body s).
Proof.
  induction s as [s IH] using TextFacts.length_induction. intros Hs.
  destruct s as [|c rest]; [apply transparent_nil|].
  cbn [forallb] in Hs. apply andb_true_iff in Hs. destruct Hs as [Hc Hrest].
  apply is_code_unit_range in Hc.
  cbn [quote_body].
  destruct (Text.is_high c) eqn:Hh.
  - destruct rest as [|d rest'].
    + apply transparent_unicode_escape.
    + destruct (Text.is_low d) eqn:Hl.
      * apply (transparent_app [c; d]); [apply transparent_pair; assumption|].
        cbn [forallb] in Hrest. apply andb_true_iff in Hrest.
        apply IH; [cbn; lia | tauto].
      * apply transparent_app; [apply transparent_unicode_escape|].
        apply IH; [cbn; lia | assumption].
  - destruct (Text.is_low c) eqn:Hl.
    + apply transparent_app; [apply transparent_unicode_escape|].
      apply IH; [cbn; lia | assumption].
    + apply transparent_app; [apply transparent_escape_unit; assumption|].
      apply IH; [cbn; lia | assumption].
Qed.

Lemma transparent_quote s : forallb is_code_unit s = true -> transparent (quote s).
Proof.
  intros Hs. unfold quote. apply transparent_cons_ascii; [lia|].
  apply transparent_app; [apply transparent_quote_body, Hs|].
  apply transparent_ascii. lia.
Qed.

Lemma transparent_join parts : Forall transparent parts -> transparent (join parts).
Proof.
  induction 1 as [|part parts Hp Hall IH]; [apply transparent_nil|].
  destruct parts as [|next parts]; [exact Hp|].
  change (join (part :: next :: parts)) with (part ++ 44 :: join (next :: parts)).
  apply transparent_app; [exact Hp|].
  apply transparent_cons_ascii; [lia | exact IH].
Qed.

Lemma transparent_js (s : string) :
  forallb (fun c => (0 <=? c) && (c <? 128)) (js s) = true -> transparent (js s).
Proof.
  induction (js s) as [|c l IH]; intros H; [apply transparent_nil|].
  cbn [forallb] in H. apply andb_true_iff in H. destruct H as [Hc H].
  apply transparent_cons_ascii; [|apply IH, H].
  apply andb_true_iff in Hc. destruct Hc as [H1 H2].
  apply Z.leb_le in H1. apply Z.ltb_lt in H2. lia.
Qed.

Lemma transparent_text v : strings_ok v = true -> transparent (text_of v).
Proof.
  induction v as [| |b|s|items IH|properties IH] using jsvalue_induction;
    intros Hok.
  - apply (transparent_js "null"). reflexivity.
  - apply (transparent_js "null"). reflexivity.
  - destruct b; [apply (transparent_js "true") | apply (transparent_js "false")];
      reflexivity.
  - apply transparent_quote, Hok.
  - rewrite ParseFacts.text_of_array.
    apply transparent_cons_ascii; [lia|].
    apply transparent_app; [|apply transparent_ascii; lia].
    apply transparent_join.
    cbn [strings_ok] in Hok. rewrite forallb_forall in Hok.
    apply List.Forall_forall. intros part Hin.
    apply in_map_iff in Hin. destruct Hin as (x & <- & Hx).
    rewrite List.Forall_forall in IH. apply IH; auto.
  - rewrite ParseFacts.text_of_object.
    apply transparent_cons_ascii; [lia|].
    apply transparent_app; [|apply transparent_ascii; lia].
    apply transparent_join.
    cbn [strings_ok] in Hok.
    induction IH as [|[name x] properties Hx Hall IHp]; [constructor|].
    cbn [forallb fst snd] in Hok, Hx.
    apply andb_true_iff in Hok. destruct Hok as [Hokx Hok].
    apply andb_true_iff in Hokx. destruct Hokx as [Hname Hokx].
    rewrite ParseFacts.member_texts_cons.
    destruct x; try (apply IHp; assumption);
      (constructor; [|apply IHp; assumption]);
      (apply transparent_app; [apply transparent_quote, Hname|]);
      (apply transparent_cons_ascii; [lia|]); apply Hx, Hokx.
Qed.

End TransparentFacts.

(** The text of a value can be sealed and opened without loss. *)
Lemma stringify_plain_text v text :
  strings_ok v = true -> Stringify.stringify v = Some text -> plain_text text.
Proof.
  intros Hok Hs.
  assert (text_of v = text) as E by (unfold text_of; rewrite Hs; reflexivity).
  destruct (ParseFacts.text_of_head v) as (h & t & Eh & Hh).
  rewrite E in Eh. repeat split.
  - rewrite Eh. discriminate.
  - rewrite <- E, <- (app_nil_r (text_of v)).
    rewrite (TransparentFacts.transparent_text v Hok). reflexivity.
  - rewrite Eh. cbn [Text.starts_with_bom].
    destruct Hh as [-> | [-> | [-> | [-> | [-> | ->]]]]]; reflexivity.
Qed.

Lemma encryptObject_sealed obj k random :
  strings_ok obj = true -> obj <> JsUndefined ->
  valid_key k -> nonce_draw random ->
  exists kb text,
    base64ToBytes k = Ok kb /\ length kb = 32%nat /\
    Stringify.stringify obj = Some text /\ plain_text text /\
    encryptObject obj k random = Ok (sealed_record kb random (Text.encode text)).
Proof.
  intros Hok Hdef (kb & Hk & Hkl) Hrandom.
  destruct (Stringify.stringify obj) as [text|] eqn:Hs.
  2:{ apply ParseFacts.stringify_none in Hs. contradiction. }
  pose proof (stringify_plain_text obj text Hok Hs) as Hplain.
  exists kb, text. repeat split; try assumption; try apply Hplain.
  unfold encryptObject. rewrite Hs.
  destruct Hplain as (Hne & Hwf & Hbom).
  apply encryptData_ok; assumption.
Qed.

Lemma decryptObject_sealed obj k kb random text :
  strings_ok obj = true -> obj <> JsUndefined ->
  base64ToBytes k = Ok kb -> length kb = 32%nat -> nonce_draw random ->
  Stringify.stringify obj = Some text -> plain_text text ->
  decryptObject (Some (sealed_record kb random (Text.encode text))) k =
  Ok (parsed obj).
Proof.
  intros Hok Hdef Hk Hkl Hrandom Hs (Hne & Hwf & Hbom).
  unfold decryptObject.
  rewrite (decryptData_sealed k kb) by
    (assumption || apply TextFacts.encode_octets, Hwf
     || apply TextFacts.encode_nonempty, Hne).
  cbn [bind_result].
  rewrite TextFacts.decode_encode by assumption.
  apply parse_stringify; assumption.
Qed.

(** X19. [decryptObject] gives back what [encryptObject] was given, as
    [JSON.parse] rebuilds it: for every value other than [undefined] whose
    strings are UTF-16 code units, every valid key and every twelve-octet
    nonce.  Strings with unpaired surrogates or a leading U+FEFF are
    included; a property whose value is [undefined] is dropped and an array
    element that is [undefined] comes back as [null]. *)
Theorem object_roundtrip obj k random :
  strings_ok obj = true -> obj <> JsUndefined ->
  valid_key k -> nonce_draw random ->
  exists r,
    encryptObject obj k random = Ok r /\
    decryptObject (Some r) k = Ok (parsed obj).
Proof.
  intros Hok Hdef Hkey Hrandom.
  destruct (encryptObject_sealed obj k random Hok Hdef Hkey Hrandom)
    as (kb & text & Hk & Hkl & Hs & Hplain & Henc).
  exists (sealed_record kb random (Text.encode text)).
  split; [exact Henc|].
  apply (decryptObject_sealed obj k kb random text); assumption.
Qed.

Lemma object_roundtrip_witness :
  exists r,
    encryptObject sample_entry sample_key sample_nonce = Ok r /\
    decryptObject (Some r) sample_key =
    Ok (JSON.Object
          [(js "username", JSON.String (js "ada@example.com"));
           (js "password", JSON.String (0xFEFF :: 0xD800 :: js_quoted "p'w\d"))]).
Proof.
  apply (object_roundtrip sample_entry sample_key sample_nonce).
  - reflexivity.
  - discriminate.
  - exists (map Z.of_nat (seq 0 32)). split; vm_compute; reflexivity.
  - apply nonce_draw_decide. reflexivity.
Defined.

(** * The vault stores *)

(** ** The vault item store *)

Lemma find_after_append (items : list VaultItem.t) item itemId :
  Forall (fun i => VaultItem.id i <> itemId) items ->
  VaultItem.id item = itemId ->
  List.find (fun i => bool_decide (VaultItem.id i = itemId)) (items ++ [item]) =
  Some item.
Proof.
  intros Hfresh Hid. induction Hfresh as [|i items Hi _ IH]; cbn.
  - rewrite bool_decide_eq_true_2 by assumption. reflexivity.
  - rewrite bool_decide_eq_false_2 by assumption. exact IH.
Qed.

(** X20. [createItem] followed by [decryptItem]: when the server stores
    the record it is sent and answers with an identifier that no item of
    the store has, the new item is appended, and decrypting it with the
    same key caches the data that were entered, as [JSON.parse] rebuilds
    them. *)
Theorem created_item_can_be_decrypted
  vaultId type name data key favorite random post newId s :
  strings_ok data = true -> data <> JsUndefined ->
  valid_key key -> nonce_draw random ->
  stores_request newId post ->
  Forall (fun i => VaultItem.id i <> newId) (VaultItemStore.items s) ->
  exists item,
    fst (VaultItemStore.createItem vaultId type name data key favorite random post s)
      = Ok item /\
    VaultItem.id item = newId /\
    let created :=
      snd (VaultItemStore.createItem vaultId type name data key favorite random
                                     post s) in
    fst (VaultItemStore.decryptItem newId key created) = Ok tt /\
    VaultItemStore.decryptedItems
      (snd (VaultItemStore.decryptItem newId key created)) !! newId =
    Some {| DecryptedVaultItem.item := item;
            DecryptedVaultItem.data := parsed data |}.
Proof.
  intros Hok Hdef Hkey Hrandom Hpost Hfresh.
  destruct (encryptObject_sealed data key random Hok Hdef Hkey Hrandom)
    as (kb & text & Hk & Hkl & Hs & Hplain & Henc).
  pose proof (decryptObject_sealed data key kb random text Hok Hdef Hk Hkl Hrandom
                                   Hs Hplain) as Hdec.
  set (r := sealed_record kb random (Text.encode text)) in *.
  set (request :=
         {| CreateVaultItemRequest.vaultId := vaultId;
            CreateVaultItemRequest.type := type;
            CreateVaultItemRequest.name := name;
            CreateVaultItemRequest.encryptedData := r;
            CreateVaultItemRequest.favorite :=
              match favorite with Some b => b | None => false end |}).
  destruct (Hpost request) as (item & Hitem & Hid & Hrecord).
  unfold request in Hrecord. cbn [CreateVaultItemRequest.encryptedData] in Hrecord.
  exists item.
  unfold VaultItemStore.createItem, VaultItemService.createVaultItem.
  rewrite Henc. cbn [bind_result]. fold request. rewrite Hitem.
  cbn [try_catch fst snd]. repeat split; [assumption|..].
  all: unfold VaultItemStore.decryptItem;
    cbn [VaultItemStore.items VaultItemStore.begin];
    rewrite (find_after_append _ item newId Hfresh Hid);
    unfold VaultItemService.decryptVaultItem;
    rewrite Hrecord, Hdec; cbn [bind_result try_catch fst snd
                                  VaultItemStore.decryptedItems].
  - reflexivity.
  - apply lookup_insert_eq.
Qed.

Lemma valid_key_sample : valid_key sample_key.
Proof. exists (map Z.of_nat (seq 0 32)). split; vm_compute; reflexivity. Qed.

Lemma created_item_can_be_decrypted_witness :
  exists item,
    fst (VaultItemStore.createItem (js "vault-1") PASSWORD (js "Mail") sample_entry
           sample_key None sample_nonce sample_server VaultItemStore.initial)
      = Ok item /\
    VaultItem.id item = js "item-1" /\
    let created :=
      snd (VaultItemStore.createItem (js "vault-1") PASSWORD (js "Mail") sample_entry
             sample_key None sample_nonce sample_server VaultItemStore.initial) in
    fst (VaultItemStore.decryptItem (js "item-1") sample_key created) = Ok tt /\
    VaultItemStore.decryptedItems
      (snd (VaultItemStore.decryptItem (js "item-1") sample_key created))
      !! js "item-1" =
    Some {| DecryptedVaultItem.item := item;
            DecryptedVaultItem.data := parsed sample_entry |}.
Proof.
  apply (created_item_can_be_decrypted (js "vault-1") PASSWORD (js "Mail")
           sample_entry sample_key None sample_nonce sample_server (js "item-1")
           VaultItemStore.initial).
  - reflexivity.
  - discriminate.
  - exact valid_key_sample.
  - apply nonce_draw_decide. reflexivity.
  - intros request. eexists. repeat split; reflexivity.
  - constructor.
Defined.

Lemma find_some_inv (items : list VaultItem.t) itemId item :
  List.find (fun i => bool_decide (VaultItem.id i = itemId)) items = Some item ->
  In item items /\ VaultItem.id item = itemId.
Proof.
  intros H. apply find_some in H. destruct H as [Hin Hid].
  apply bool_decide_eq_true in Hid. auto.
Qed.

Lemma find_none_inv (items : list VaultItem.t) itemId :
  List.find (fun i => bool_decide (VaultItem.id i = itemId)) items = None ->
  Forall (fun i => VaultItem.id i <> itemId) items.
Proof.
  intros H. apply List.Forall_forall. intros i Hin Hid.
  pose proof (find_none _ _ H i Hin) as Hb. cbn in Hb.
  rewrite bool_decide_eq_true_2 in Hb by assumption. discriminate.
Qed.

(** X21. [decryptItem] ends in one of three ways.  It caches the
    decrypted item under its identifier and changes nothing else; or it
    throws "Item not found", when no item has the identifier; or it throws
    "Failed to decrypt item - incorrect password", when [decryptObject]
    fails for whatever reason.  A failure leaves the store as it was: no
    error is recorded. *)
Theorem decryptItem_outcomes itemId key s :
  match VaultItemStore.decryptItem itemId key s with
  | (Ok _, s') =>
      exists item data,
        In item (VaultItemStore.items s) /\ VaultItem.id item = itemId /\
        decryptObject (VaultItem.encryptedData item) key = Ok data /\
        VaultItemStore.items s' = VaultItemStore.items s /\
        VaultItemStore.decryptedItems s' =
          <[itemId := {| DecryptedVaultItem.item := item;
                         DecryptedVaultItem.data := data |}]>
            (VaultItemStore.decryptedItems s)
  | (Throw e, s') =>
      s' = s /\
      ((e = Error "Item not found" /\
        Forall (fun i => VaultItem.id i <> itemId) (VaultItemStore.items s)) \/
       (e = Error "Failed to decrypt item - incorrect password" /\
        exists item failure,
          In item (VaultItemStore.items s) /\ VaultItem.id item = itemId /\
          decryptObject (VaultItem.encryptedData item) key = Throw failure))
  end.
Proof.
  unfold VaultItemStore.decryptItem.
  destruct (List.find _ _) as [item|] eqn:Hfind.
  - apply find_some_inv in Hfind. destruct Hfind as [Hin Hid].
    unfold VaultItemService.decryptVaultItem.
    destruct (decryptObject (VaultItem.encryptedData item) key) as [data|failure]
      eqn:Hdec; cbn [bind_result try_catch].
    + exists item, data. auto.
    + split; [reflexivity|]. right. split; [reflexivity|].
      exists item, failure. auto.
  - split; [reflexivity|]. left. split; [reflexivity|].
    apply find_none_inv, Hfind.
Qed.

Lemma encryptData_throws_error p k random e :
  encryptData p k random = Throw e -> exists m, e = Error m.
Proof.
  unfold encryptData.
  destruct (truthy p); cbn [negb]; [|intros [= <-]; eauto].
  destruct (truthy k); cbn [negb]; [|intros [= <-]; eauto].
  unfold try_catch. destruct (bind_result _ _); [discriminate|].
  intros [= <-]. eauto.
Qed.

Lemma encryptObject_throws_error obj k random e :
  encryptObject obj k random = Throw e -> exists m, e = Error m.
Proof.
  unfold encryptObject. destruct (Stringify.stringify obj).
  - apply encryptData_throws_error.
  - intros [= <-]. eauto.
Qed.

Lemma updateVaultItemData_failure name data key favorite random put e :
  VaultItemService.updateVaultItemData name data key favorite random put = Throw e ->
  e = UNEXPECTED.
Proof.
  unfold VaultItemService.updateVaultItemData, VaultItemService.updateVaultItem.
  destruct (encryptObject data key random) as [r|e0] eqn:Henc; cbn [bind_result].
  - destruct (put _) as [item|e1]; cbn [try_catch]; [discriminate|].
    intros [= <-]. reflexivity.
  - apply encryptObject_throws_error in Henc. destruct Henc as [m ->].
    cbn [try_catch]. intros [= <-]. reflexivity.
Qed.

(** X22. [updateItem]: on success the cached plaintext of the item is
    dropped, the other cache entries are kept and the number of items is
    the same; on every failure, of the encryption or of the request, the
    error is "An unexpected error occurred", and items and cache are
    unchanged. *)
Theorem updateItem_outcomes itemId name data key favorite random put s :
  match VaultItemStore.updateItem itemId name data key favorite random put s with
  | (Ok _, s') =>
      VaultItemStore.decryptedItems s' !! itemId = None /\
      (forall other, other <> itemId ->
                     VaultItemStore.decryptedItems s' !! other =
                     VaultItemStore.decryptedItems s !! other) /\
      length (VaultItemStore.items s') = length (VaultItemStore.items s) /\
      VaultItemStore.error s' = None
  | (Throw e, s') =>
      e = UNEXPECTED /\
      VaultItemStore.error s' = Some "An unexpected error occurred"%string /\
      VaultItemStore.items s' = VaultItemStore.items s /\
      VaultItemStore.decryptedItems s' = VaultItemStore.decryptedItems s
  end.
Proof.
  unfold VaultItemStore.updateItem.
  destruct (VaultItemService.updateVaultItemData _ _ _ _ _ _) as [item|e] eqn:H.
  - cbn. repeat split.
    + apply lookup_delete_eq.
    + intros other Hne. apply lookup_delete_ne. congruence.
    + apply length_map.
  - apply updateVaultItemData_failure in H. subst e. cbn. auto.
Qed.

(** X23. [deleteItem]: on success no item with the identifier remains,
    every other item remains, and the cached plaintext of the item is
    dropped; on failure, items and cache are unchanged and the store's
    error is the message of the failure (the fallback text if that is
    empty). *)
Theorem deleteItem_outcomes itemId request s :
  match VaultItemStore.deleteItem itemId request s with
  | (Ok _, s') =>
      Forall (fun i => VaultItem.id i <> itemId) (VaultItemStore.items s') /\
      (forall i, In i (VaultItemStore.items s) -> VaultItem.id i <> itemId ->
                 In i (VaultItemStore.items s')) /\
      VaultItemStore.decryptedItems s' !! itemId = None /\
      (forall other, other <> itemId ->
                     VaultItemStore.decryptedItems s' !! other =
                     VaultItemStore.decryptedItems s !! other)
  | (Throw e, s') =>
      VaultItemStore.items s' = VaultItemStore.items s /\
      VaultItemStore.decryptedItems s' = VaultItemStore.decryptedItems s /\
      exists m, e = Error m /\
                VaultItemStore.error s' = Some (or_default m "Failed to delete item")
  end.
Proof.
  unfold VaultItemStore.deleteItem, VaultItemService.deleteVaultItem.
  destruct request as [[]|e]; cbn.
  - repeat split.
    + apply List.Forall_forall. intros i Hin. apply filter_In in Hin.
      destruct Hin as [_ Hb]. apply negb_true_iff, bool_decide_eq_false in Hb.
      exact Hb.
    + intros i Hin Hne. apply filter_In. split; [exact Hin|].
      apply negb_true_iff, bool_decide_eq_false. exact Hne.
    + apply lookup_delete_eq.
    + intros other Hne. apply lookup_delete_ne. congruence.
  - repeat split. eexists. split; reflexivity.
Qed.

(** ** The vault store *)

(** X24. [deleteVault]: on success no vault with the identifier remains,
    every other vault remains, and the current vault is deselected if it
    was the deleted one and kept otherwise; on failure, vaults and
    selection are unchanged and the store's error is the message of the
    failure (the fallback text if that is empty). *)
Theorem deleteVault_outcomes vaultId request s :
  match VaultStore.deleteVault vaultId request s with
  | (Ok _, s') =>
      Forall (fun v => Vault.id v <> vaultId) (VaultStore.vaults s') /\
      (forall v, In v (VaultStore.vaults s) -> Vault.id v <> vaultId ->
                 In v (VaultStore.vaults s')) /\
      VaultStore.currentVaultId s' <> Some vaultId /\
      (VaultStore.currentVaultId s <> Some vaultId ->
       VaultStore.currentVaultId s' = VaultStore.currentVaultId s)
  | (Throw e, s') =>
      VaultStore.vaults s' = VaultStore.vaults s /\
      VaultStore.currentVaultId s' = VaultStore.currentVaultId s /\
      exists m, e = Error m /\
                VaultStore.error s' = Some (or_default m "Failed to delete vault")
  end.
Proof.
  unfold VaultStore.deleteVault, VaultService.deleteVault.
  destruct request as [[]|e]; cbn.
  - repeat split.
    + apply List.Forall_forall. intros v Hin. apply filter_In in Hin.
      destruct Hin as [_ Hb]. apply negb_true_iff, bool_decide_eq_false in Hb.
      exact Hb.
    + intros v Hin Hne. apply filter_In. split; [exact Hin|].
      apply negb_true_iff, bool_decide_eq_false. exact Hne.
    + destruct (bool_decide_reflect (VaultStore.currentVaultId s = Some vaultId));
        [discriminate | assumption].
    + intros Hne. rewrite bool_decide_eq_false_2 by assumption. reflexivity.
  - repeat split. eexists. split; reflexivity.
Qed.

(** * The interceptors of the API client *)

(** ** Token refresh *)

Lemma loadSession_without_tokens (stored : gmap string jsstring) :
  stored !! ENV.ACCESS_TOKEN = None ->
  isAuthenticated (auth (snd (loadSession (boot stored true)))) = false.
Proof.
  intros H. rewrite loadSession_spec. cbv zeta.
  cbn [boot auth with_auth keychain secure andb snd].
  rewrite H. reflexivity.
Qed.

(** X25. The response interceptor, on a 401 for a request not yet
    retried: when there is no refresh token, or the refresh request fails,
    it rejects with that failure, both tokens are deleted from the secure
    store and the session store is left as it was; the next start of the
    application is signed out. *)
Theorem failed_refresh_ends_session {A} error request refresh
  (resend : Request.t -> M A) w :
  keychain w = true -> Request._retry request = false ->
  falsy (secure w !! ENV.REFRESH_TOKEN) = true \/
  (exists e, refresh (field (secure w !! ENV.REFRESH_TOKEN)) = Throw e) ->
  let out := onResponseError error (Some 401) request refresh resend w in
  fst out =
    Throw (if falsy (secure w !! ENV.REFRESH_TOKEN)
           then Error "No refresh token available"
           else match refresh (field (secure w !! ENV.REFRESH_TOKEN)) with
                | Throw e => e
                | Ok _ => error
                end) /\
  secure (snd out) !! ENV.ACCESS_TOKEN = None /\
  secure (snd out) !! ENV.REFRESH_TOKEN = None /\
  auth (snd out) = auth w /\
  writes (snd out) = writes w /\
  isAuthenticated (auth (snd (loadSession (boot (secure (snd out)) true)))) = false.
Proof.
  intros Hk Hretry Hfail. destruct w as [a c s k ws]. cbn in Hk. subst k.
  cbn [secure] in Hfail.
  unfold onResponseError. rewrite Hretry.
  rewrite bool_decide_eq_true_2 by reflexivity. cbn [andb negb].
  unfold clearTokens. run_action.
  assert (forall t : gmap string jsstring,
             delete ENV.REFRESH_TOKEN (delete ENV.ACCESS_TOKEN t)
               !! ENV.ACCESS_TOKEN = None) as Ha.
  { intros t. rewrite lookup_delete_ne by discriminate. apply lookup_delete_eq. }
  destruct (falsy (s !! ENV.REFRESH_TOKEN)) eqn:Hf; run_action.
  - cbn [fst snd secure auth writes]. repeat split; try apply lookup_delete_eq;
      try apply Ha. apply loadSession_without_tokens, Ha.
  - destruct Hfail as [Hfail | [e He]]; [discriminate|].
    rewrite He. run_action. cbn [fst snd secure auth writes].
    repeat split; try apply lookup_delete_eq; try apply Ha.
    apply loadSession_without_tokens, Ha.
Qed.

Lemma failed_refresh_ends_session_witness :
  let out :=
    onResponseError (AxiosError "Unauthorized") (Some 401)
      {| Request.headers := ∅; Request._retry := false |}
      (fun _ => Throw (AxiosError "Refresh token expired"))
      (refused (A := unit) (AxiosError "Unauthorized"))
      (boot persisted_tokens true) in
  fst out = Throw (AxiosError "Refresh token expired") /\
  secure (snd out) !! ENV.ACCESS_TOKEN = None /\
  secure (snd out) !! ENV.REFRESH_TOKEN = None.
Proof.
  intros out.
  destruct (failed_refresh_ends_session (A := unit)
              (AxiosError "Unauthorized")
              {| Request.headers := ∅; Request._retry := false |}
              (fun _ => Throw (AxiosError "Refresh token expired"))
              (refused (AxiosError "Unauthorized"))
              (boot persisted_tokens true))
    as (H1 & H2 & H3 & _); [reflexivity | reflexivity | right; eauto |].
  split; [exact H1 | split; [exact H2 | exact H3]].
Defined.

(** X26. The response interceptor, on a 401 for a request not yet
    retried, when the refresh succeeds: the two new tokens are stored and
    the request is sent again with the new access token, marked as
    retried; a failure of a request so marked is passed on without another
    refresh. *)
Theorem refreshed_request_is_sent_once {A} error request refresh
  (resend : Request.t -> M A) w (old newAccess newRefresh : jsstring) :
  keychain w = true -> Request._retry request = false ->
  secure w !! ENV.REFRESH_TOKEN = Some old -> old <> [] ->
  refresh old = Ok (newAccess, newRefresh) ->
  onResponseError error (Some 401) request refresh resend w =
    resend (retried request newAccess) (with_tokens newAccess newRefresh w) /\
  forall error' status' refresh' (resend' : Request.t -> M A) w',
    onResponseError error' status' (retried request newAccess) refresh' resend' w' =
    (Throw error', w').
Proof.
  intros Hk Hretry Hold Hne Hrefresh. split.
  - destruct w as [a c s k ws]. cbn in Hk. cbn [secure] in Hold. subst k.
    unfold onResponseError. rewrite Hretry.
    rewrite bool_decide_eq_true_2 by reflexivity. cbn [andb negb].
    run_action. rewrite Hold. cbn [falsy field].
    rewrite (truthy_nonempty _ Hne). cbn [negb].
    rewrite Hrefresh. run_action. reflexivity.
  - intros error' status' refresh' resend' w'.
    unfold onResponseError, retried. cbn [Request._retry negb].
    rewrite andb_false_r. reflexivity.
Qed.

Lemma refreshed_request_is_sent_once_witness :
  fst (onResponseError (AxiosError "Unauthorized") (Some 401)
         {| Request.headers := ∅; Request._retry := false |}
         (fun _ => Ok (js "new-access", js "new-refresh"))
         (fun retried =>
            onResponseError (A := unit) (AxiosError "Unauthorized") (Some 401) retried
              (fun _ => Ok (js "newer-access", js "newer-refresh"))
              (refused (AxiosError "never sent")))
         (boot persisted_tokens true)) =
  Throw (AxiosError "Unauthorized").
Proof.
  destruct (refreshed_request_is_sent_once (A := unit)
              (AxiosError "Unauthorized")
              {| Request.headers := ∅; Request._retry := false |}
              (fun _ => Ok (js "new-access", js "new-refresh"))
              (fun retried =>
                 onResponseError (A := unit) (AxiosError "Unauthorized") (Some 401)
                   retried
                   (fun _ => Ok (js "newer-access", js "newer-refresh"))
                   (refused (AxiosError "never sent")))
              (boot persisted_tokens true)
              (js "refresh-token") (js "new-access") (js "new-refresh"))
    as [H1 H2]; [reflexivity | reflexivity | reflexivity | discriminate
                 | reflexivity |].
  rewrite H1, H2. reflexivity.
Defined.
